(** * UDP relay core of go-shadowsocks2 (udp.go)

    A shallow embedding of [udp.go]: the NAT table, the per-session relay
    loop [timedCopy] with its three role transforms, the three ingress read
    loops and the address adapter [udpAddrToNetip], followed by the
    properties of the relay that the design document states. *)

From Stdlib Require Import ZArith.
From Stdlib.Strings Require Import Byte.
From stdpp Require Import base tactics option list strings gmap.

Local Open Scope string_scope.
Local Open Scope nat_scope.
Local Open Scope list_scope.

(** ** Bytes and buffers *)

Abbreviation byte := Byte.byte.

#[global] Instance byte_eq_dec : EqDecision byte := Byte.byte_eq_dec.
#[global] Instance byte_inhabited : Inhabited byte := populate x00.
#[global] Instance byte_countable : Countable byte :=
  inj_countable Byte.to_N Byte.of_N Byte.of_to_N.

(** const udpBufSize = 64 * 1024 *)
Definition udpBufSize : nat := 64 * 1024.
Arguments udpBufSize : simpl never.

(** make([]byte, udpBufSize) *)
Definition make_buf : list byte := replicate udpBufSize x00.

(** [copy(arr[off:], src)] for a source that does not share memory with
    [arr]: min(len(arr) - off, len(src)) bytes are written, the length of
    [arr] is unchanged. *)
Definition copy_to (arr : list byte) (off : nat) (src : list byte) : list byte :=
  take off arr ++ take (length arr - off) src ++ drop (off + length src) arr.

(** [copy] between two windows of the same array moves the bytes one at a
    time inside that array, as the runtime's memmove does: front to back
    when the destination starts at or below the source, back to front
    otherwise. [d] and [s] are the offsets of the windows, [k] the number of
    bytes. *)
Fixpoint move_fwd (arr : list byte) (d s k : nat) : list byte :=
  match k with
  | 0 => arr
  | S k' => move_fwd (<[d := arr !!! s]> arr) (S d) (S s) k'
  end.

Fixpoint move_bwd (arr : list byte) (d s k : nat) : list byte :=
  match k with
  | 0 => arr
  | S k' => move_bwd (<[d + k' := arr !!! (s + k')]> arr) d s k'
  end.

Definition memmove (arr : list byte) (d s k : nat) : list byte :=
  if decide (d ≤ s) then move_fwd arr d s k else move_bwd arr d s k.

(** [c.ReadFrom(arr[off:])] delivering the datagram [d]: the first
    min(len(d), len(arr) - off) bytes of [d] land at [off], the rest of the
    datagram is discarded; the count is returned. (A wrapped connection may
    leave other bytes behind the datagram; the relay reads only the first
    [n].) *)
Definition recv (arr : list byte) (off : nat) (d : list byte) : nat * list byte :=
  (length d `min` (length arr - off), copy_to arr off d).

(** ** Addresses *)

Definition error := string.

(** [net.Addr]: a [*net.UDPAddr], or any other implementation of the
    interface. *)
Inductive net_Addr :=
  | UDPAddr (IP : list byte) (Port : Z) (Zone : string)
  | OtherAddr (network text : string).

(** [netip.Addr]: the zero value (not valid), an IPv4 address, or an IPv6
    address with its zone. *)
Inductive netip_Addr :=
  | AddrZero
  | Addr4 (ip : list byte)
  | Addr6 (ip : list byte) (zone : string).

#[global] Instance net_Addr_eq_dec : EqDecision net_Addr.
Proof. solve_decision. Defined.
#[global] Instance netip_Addr_eq_dec : EqDecision netip_Addr.
Proof. solve_decision. Defined.
#[global] Instance netip_Addr_countable : Countable netip_Addr.
Proof.
  refine (inj_countable'
    (λ a, match a with
          | AddrZero => inl ()
          | Addr4 ip => inr (inl ip)
          | Addr6 ip z => inr (inr (ip, z))
          end)
    (λ c, match c with
          | inl () => AddrZero
          | inr (inl ip) => Addr4 ip
          | inr (inr (ip, z)) => Addr6 ip z
          end) _).
  by intros [].
Defined.

(** [netip.AddrPort]; the port is a uint16. *)
Definition netip_AddrPort : Type := netip_Addr * Z.

Definition AddrPortFrom (ip : netip_Addr) (port : Z) : netip_AddrPort := (ip, port).
Definition AddrPort_zero : netip_AddrPort := (AddrZero, 0%Z).
Definition AddrPort_Addr (ap : netip_AddrPort) : netip_Addr := ap.1.
Definition AddrPort_Port (ap : netip_AddrPort) : Z := ap.2.

Definition IsValid (ip : netip_Addr) : bool :=
  match ip with AddrZero => false | _ => true end.

Definition AsSlice (ip : netip_Addr) : list byte :=
  match ip with
  | AddrZero => []
  | Addr4 b => b
  | Addr6 b _ => b
  end.

(** The conversion [uint16(x)] of an int. *)
Definition uint16 (x : Z) : Z := (x `mod` 65536)%Z.

(** A packet connection is known by its handle. *)
Definition PacketConn := nat.

(** ** What the relay takes from outside this file

    The wire-address codec of package [socks], the [shadow] wrapper handed to
    each listener, and the text functions of the standard library. A nil
    [socks.Addr] is [None]; its length is 0. *)
Class Extern := {
  shadow : PacketConn → PacketConn;
  socks_ParseAddr : string → option (list byte);
  socks_SplitAddr : list byte → option (list byte);
  Addr_String : net_Addr → string;
  IP_String : list byte → string;
  netip_ParseAddr : string → error + netip_Addr;
}.

Definition len (a : option (list byte)) : nat :=
  match a with Some b => length b | None => 0 end.

Definition bytes_of (a : option (list byte)) : list byte :=
  match a with Some b => b | None => [] end.

(** ** Roles, sessions and what the relay does to the outside *)

(** type mode int: remoteServer, relayClient, socksClient *)
Inductive mode := remoteServer | relayClient | socksClient.

#[global] Instance mode_eq_dec : EqDecision mode.
Proof. solve_decision. Defined.

(** The arguments [natmap.Add] hands to the goroutine it starts. *)
Record session := {
  s_dst : PacketConn;
  s_peer : netip_AddrPort;
  s_src : PacketConn;
  s_timeout : Z;
  s_role : mode;
}.

(** Calls that reach outside the relay, in program order. [ListenPacket]
    records the call of [net.ListenPacket] and what it returned. *)
Inductive effect :=
  | logf (format : string)
  | ListenPacket (r : error + PacketConn)
  | WriteTo (pc : PacketConn) (b : list byte) (addr : net_Addr)
  | SetReadDeadline (pc : PacketConn) (t : Z)
  | ReadFrom (pc : PacketConn)
  | Close (pc : PacketConn)
  | go (s : session).

#[global] Instance session_eq_dec : EqDecision session.
Proof. solve_decision. Defined.
#[global] Instance effect_eq_dec : EqDecision effect.
Proof. solve_decision. Defined.

(** ** The runtime checks of slice expressions *)

(** A computation of the Go runtime either yields a value or panics, after
    the calls [effs] were made; a panic in any goroutine ends the process. *)
Inductive run (A : Type) : Type :=
  | Ret (a : A)
  | Panic (effs : list effect) (msg : string).
Arguments Ret {A} a.
Arguments Panic {A} effs msg.

Definition run_bind {A B} (x : run A) (f : A → run B) : run B :=
  match x with
  | Ret a => f a
  | Panic effs msg => Panic effs msg
  end.

Notation "x ← y ;;; z" := (run_bind y (λ x, z))
  (at level 20, y at level 100, z at level 200, right associativity,
   format "x  ←  y  ;;;  '/' z").

(** [x] evaluated after the calls [effs] were made. *)
Definition after {A} (effs : list effect) (x : run A) : run A :=
  match x with
  | Ret a => Ret a
  | Panic effs' msg => Panic (effs ++ effs') msg
  end.

Definition panics {A} (x : run A) : Prop :=
  match x with Ret _ => False | Panic _ _ => True end.

(** The bounds check of the slice expression [s[lo:hi]] on a slice of
    capacity [cap]. *)
Definition bounds (lo hi cap : nat) : run unit :=
  if decide (lo ≤ hi ∧ hi ≤ cap) then Ret tt
  else Panic [] "slice bounds out of range".

(** [s[lo:hi]] as a value, for a slice whose capacity is its length (every
    slice of [udp.go] is cut from a buffer made by [make([]byte, size)]). *)
Definition slice (s : list byte) (lo hi : nat) : run (list byte) :=
  _ ← bounds lo hi (length s);;;
  Ret (take (hi - lo) (drop lo s)).

(** ** The NAT table *)

Record natmap := {
  m : gmap netip_AddrPort PacketConn;
  timeout : Z;
}.

Definition newNATmap (timeout : Z) : natmap :=
  {| m := ∅; timeout := timeout |}.

Definition natmap_Get (key : netip_AddrPort) (nm : natmap) : option PacketConn :=
  m nm !! key.

Definition natmap_Set (key : netip_AddrPort) (pc : PacketConn) (nm : natmap) : natmap :=
  {| m := <[key := pc]> (m nm); timeout := timeout nm |}.

Definition natmap_Del (key : netip_AddrPort) (nm : natmap) : option PacketConn * natmap :=
  match m nm !! key with
  | Some pc => (Some pc, {| m := delete key (m nm); timeout := timeout nm |})
  | None => (None, nm)
  end.

(** [Add] installs the entry and starts the goroutine of the session. *)
Definition natmap_Add (peer : netip_AddrPort) (dst src : PacketConn) (role : mode)
    (nm : natmap) : natmap * list effect :=
  (natmap_Set peer src nm,
   [go {| s_dst := dst; s_peer := peer; s_src := src;
          s_timeout := timeout nm; s_role := role |}]).

(** ** The address adapter *)

Definition udpAddrToNetip `{Extern} (addr : net_Addr) : netip_AddrPort * option error :=
  match addr with
  | OtherAddr _ _ => (AddrPort_zero, Some "not a UDPAddr")
  | UDPAddr IP Port _ =>
      match netip_ParseAddr (IP_String IP) with
      | inl err => (AddrPort_zero, Some ("invalid IP: " +:+ err))
      | inr ip =>
          if negb (IsValid ip)
          then (AddrPort_zero, Some ("invalid IP: " +:+ IP_String IP))
          else (AddrPortFrom ip (uint16 Port), None)
      end
  end.

(** ** The relay loop of a session *)

(** What the outside answers during one iteration of [timedCopy]: the clock,
    the result of [src.ReadFrom] (an error, or the datagram that arrived and
    its source) and the result of [dst.WriteTo]. *)
Record relay_io := {
  now : Z;
  r_read : error + (list byte * net_Addr);
  r_write : option error;
}.

(** One pass through the body of the [for] of [timedCopy]: the buffer after
    it, the calls made, and the error returned if the loop returns here. *)
Definition timedCopy_iter `{Extern} (dst : PacketConn) (udpTarget : net_Addr)
    (src : PacketConn) (timeout : Z) (role : mode) (buf : list byte) (e : relay_io)
    : run (list byte * list effect * option error) :=
  let deadline := SetReadDeadline src (now e + timeout) in
  match r_read e with
  | inl err => Ret (buf, [deadline; ReadFrom src], Some err)
  | inr (d, addr) =>
      let '(n, buf) := recv buf 0 d in
      after [deadline; ReadFrom src]
      match role with
      | remoteServer =>
          let srcAddr := socks_ParseAddr (Addr_String addr) in
          _ ← bounds (len srcAddr) (length buf) (length buf);;;
          _ ← bounds 0 n (length buf);;;
          let buf := memmove buf (len srcAddr) 0
                       ((length buf - len srcAddr) `min` n) in
          let buf := copy_to buf 0 (bytes_of srcAddr) in
          out ← slice buf 0 (len srcAddr + n);;;
          Ret (buf, [deadline; ReadFrom src; WriteTo dst out udpTarget], r_write e)
      | relayClient =>
          b ← slice buf 0 n;;;
          let srcAddr := socks_SplitAddr b in
          out ← slice buf (len srcAddr) n;;;
          Ret (buf, [deadline; ReadFrom src; WriteTo dst out udpTarget], r_write e)
      | socksClient =>
          b ← slice buf 0 n;;;
          Ret (buf, [deadline; ReadFrom src;
                     WriteTo dst ([x00; x00; x00] ++ b) udpTarget], r_write e)
      end
  end.

(** Where a loop stands after the outside has answered a finite number of
    times: still in its [for], returned with an error, or the process has
    panicked. *)
Inductive status :=
  | Running (buf : list byte)
  | Returned (err : error)
  | Crashed (msg : string).

Fixpoint timedCopy_loop `{Extern} (dst : PacketConn) (udpTarget : net_Addr)
    (src : PacketConn) (timeout : Z) (role : mode) (buf : list byte)
    (script : list relay_io) : list effect * status :=
  match script with
  | [] => ([], Running buf)
  | e :: script' =>
      match timedCopy_iter dst udpTarget src timeout role buf e with
      | Panic effs msg => (effs, Crashed msg)
      | Ret (_, effs, Some err) => (effs, Returned err)
      | Ret (buf', effs, None) =>
          let '(effs', st) :=
            timedCopy_loop dst udpTarget src timeout role buf' script' in
          (effs ++ effs', st)
      end
  end.

Definition timedCopy `{Extern} (dst : PacketConn) (target : netip_AddrPort)
    (src : PacketConn) (timeout : Z) (role : mode) (script : list relay_io)
    : list effect * status :=
  let buf := make_buf in
  let udpTarget := UDPAddr (AsSlice (AddrPort_Addr target)) (AddrPort_Port target) "" in
  timedCopy_loop dst udpTarget src timeout role buf script.

(** The goroutine started by [Add]: the relay loop, then the removal of the
    peer's entry and the closing of what the removal returned. [nm] is the
    table as it stands when the loop has returned. *)
Definition session_task `{Extern} (s : session) (script : list relay_io) (nm : natmap)
    : list effect * natmap * status :=
  match timedCopy (s_dst s) (s_peer s) (s_src s) (s_timeout s) (s_role s) script with
  | (effs, Returned err) =>
      match natmap_Del (s_peer s) nm with
      | (Some pc, nm') => (effs ++ [Close pc], nm', Returned err)
      | (None, nm') => (effs, nm', Returned err)
      end
  | (effs, st) => (effs, nm, st)
  end.

(** ** The ingress read loops *)

(** The state an ingress loop carries from one datagram to the next. *)
Record ingress := {
  i_nm : natmap;
  i_buf : list byte;
}.

(** What the outside answers while one datagram is handled: the result of
    the read on the listening socket, of [net.ListenPacket] and of
    [pc.WriteTo] if they are called, and (server mode) of the resolution of
    the target. *)
Record ingress_io := {
  i_read : error + (list byte * net_Addr);
  i_listen : error + PacketConn;
  i_write : option error;
  i_resolve : error + net_Addr;
}.

(** What the outside answers at start-up: [net.ResolveUDPAddr] of the server
    and of the address listened on, and [net.ListenUDP]. *)
Record boot := {
  b_server : error + net_Addr;
  b_laddr : error + net_Addr;
  b_listen : error + PacketConn;
}.

Inductive served :=
  | Serving (st : ingress)
  | Exited
  | Died (msg : string).

(** [pc.WriteTo(b, addr)] followed by the log line of its error branch. *)
Definition written (pc : PacketConn) (b : list byte) (addr : net_Addr)
    (e : ingress_io) (format : string) : list effect :=
  WriteTo pc b addr :: match i_write e with Some _ => [logf format] | None => [] end.

(** [for { body }] against a finite list of answers: the loop alone, the
    table going from one iteration to the next as the loop left it. The
    removals done by the goroutines of the sessions come in with
    [serve_shared]. *)
Fixpoint serve (body : ingress → ingress_io → run (ingress * list effect))
    (st : ingress) (script : list ingress_io) : list effect * served :=
  match script with
  | [] => ([], Serving st)
  | e :: script' =>
      match body st e with
      | Panic effs msg => (effs, Died msg)
      | Ret (st', effs) =>
          let '(effs', r) := serve body st' script' in (effs ++ effs', r)
      end
  end.

(** The deferred [c.Close()] runs when the loop panics. *)
Definition deferred_Close (c : PacketConn) (r : list effect * served)
    : list effect * served :=
  match r with
  | (effs, Died msg) => (effs ++ [Close c], Died msg)
  | _ => r
  end.

(** *** Transparent mode *)

Definition udpLocal_iter `{Extern} (c : PacketConn) (srvAddr : net_Addr)
    (tgt : list byte) (st : ingress) (e : ingress_io) : run (ingress * list effect) :=
  _ ← bounds (length tgt) (length (i_buf st)) (length (i_buf st));;;
  match i_read e with
  | inl _ => Ret (st, [ReadFrom c; logf "UDP local read error: %v"])
  | inr (d, addr) =>
      let '(n, buf) := recv (i_buf st) (length tgt) d in
      match udpAddrToNetip addr with
      | (_, Some _) =>
          Ret ({| i_nm := i_nm st; i_buf := buf |},
               [ReadFrom c; logf "Address conversion failed: %v"])
      | (raddr, None) =>
          match natmap_Get raddr (i_nm st) with
          | Some pc =>
              out ← after [ReadFrom c] (slice buf 0 (length tgt + n));;;
              Ret ({| i_nm := i_nm st; i_buf := buf |},
                   ReadFrom c :: written pc out srvAddr e "UDP local write error: %v")
          | None =>
              match i_listen e with
              | inl _ =>
                  Ret ({| i_nm := i_nm st; i_buf := buf |},
                       [ReadFrom c; ListenPacket (i_listen e);
                        logf "UDP local listen error: %v"])
              | inr pc0 =>
                  let pc := shadow pc0 in
                  let '(nm, started) := natmap_Add raddr c pc relayClient (i_nm st) in
                  out ← after ([ReadFrom c; ListenPacket (i_listen e)] ++ started)
                          (slice buf 0 (length tgt + n));;;
                  Ret ({| i_nm := nm; i_buf := buf |},
                       [ReadFrom c; ListenPacket (i_listen e)] ++ started ++
                       written pc out srvAddr e "UDP local write error: %v")
              end
          end
      end
  end.

Definition udpLocal `{Extern} (laddr server target : string) (UDPTimeout : Z)
    (b : boot) (script : list ingress_io) : list effect * served :=
  match b_server b with
  | inl _ => ([logf "UDP server address error: %v"], Exited)
  | inr srvAddr =>
      match socks_ParseAddr target with
      | None => ([logf "UDP target address error: %v"], Exited)
      | Some tgt =>
          match b_laddr b with
          | inl _ => ([logf "UDP listen address error: %v"], Exited)
          | inr _ =>
              match b_listen b with
              | inl _ => ([logf "UDP local listen error: %v"], Exited)
              | inr c =>
                  let nm := newNATmap UDPTimeout in
                  let buf := copy_to make_buf 0 tgt in
                  let '(effs, r) :=
                    deferred_Close c
                      (serve (udpLocal_iter c srvAddr tgt)
                             {| i_nm := nm; i_buf := buf |} script) in
                  (logf "UDP tunnel %s <-> %s <-> %s" :: effs, r)
              end
          end
      end
  end.

(** *** SOCKS5 mode *)

Definition udpSocksLocal_iter `{Extern} (c : PacketConn) (srvAddr : net_Addr)
    (st : ingress) (e : ingress_io) : run (ingress * list effect) :=
  match i_read e with
  | inl _ => Ret (st, [ReadFrom c; logf "UDP local read error: %v"])
  | inr (d, addr) =>
      let '(n, buf) := recv (i_buf st) 0 d in
      match udpAddrToNetip addr with
      | (_, Some _) =>
          Ret ({| i_nm := i_nm st; i_buf := buf |},
               [ReadFrom c; logf "Address conversion failed: %v"])
      | (raddr, None) =>
          match natmap_Get raddr (i_nm st) with
          | Some pc =>
              out ← after [ReadFrom c] (slice buf 3 n);;;
              Ret ({| i_nm := i_nm st; i_buf := buf |},
                   ReadFrom c :: written pc out srvAddr e "UDP local write error: %v")
          | None =>
              match i_listen e with
              | inl _ =>
                  Ret ({| i_nm := i_nm st; i_buf := buf |},
                       [ReadFrom c; ListenPacket (i_listen e);
                        logf "UDP local listen error: %v"])
              | inr pc0 =>
                  _ ← after [ReadFrom c; ListenPacket (i_listen e)]
                        (bounds 3 (length buf) (length buf));;;
                  let pc := shadow pc0 in
                  let '(nm, started) := natmap_Add raddr c pc socksClient (i_nm st) in
                  out ← after ([ReadFrom c; ListenPacket (i_listen e);
                                logf "UDP socks tunnel %s <-> %s <-> %s"] ++ started)
                          (slice buf 3 n);;;
                  Ret ({| i_nm := nm; i_buf := buf |},
                       [ReadFrom c; ListenPacket (i_listen e);
                        logf "UDP socks tunnel %s <-> %s <-> %s"] ++ started ++
                       written pc out srvAddr e "UDP local write error: %v")
              end
          end
      end
  end.

Definition udpSocksLocal `{Extern} (laddr server : string) (UDPTimeout : Z)
    (b : boot) (script : list ingress_io) : list effect * served :=
  match b_server b with
  | inl _ => ([logf "UDP server address error: %v"], Exited)
  | inr srvAddr =>
      match b_laddr b with
      | inl _ => ([logf "UDP listen address error: %v"], Exited)
      | inr _ =>
          match b_listen b with
          | inl _ => ([logf "UDP local listen error: %v"], Exited)
          | inr c =>
              let nm := newNATmap UDPTimeout in
              let buf := make_buf in
              deferred_Close c
                (serve (udpSocksLocal_iter c srvAddr)
                       {| i_nm := nm; i_buf := buf |} script)
          end
      end
  end.

(** *** Server mode *)

(** The [pc] read from is [shadow(cc)]; the [pc] of the session is a second
    variable of that name, declared inside the loop, and it is passed to
    [Add] both as [dst] and as [src]. *)
Definition udpRemote_iter `{Extern} (pc : PacketConn)
    (st : ingress) (e : ingress_io) : run (ingress * list effect) :=
  match i_read e with
  | inl _ => Ret (st, [ReadFrom pc; logf "UDP remote read error: %v"])
  | inr (d, addr) =>
      let '(n, buf) := recv (i_buf st) 0 d in
      let st := {| i_nm := i_nm st; i_buf := buf |} in
      match udpAddrToNetip addr with
      | (_, Some _) => Ret (st, [ReadFrom pc; logf "Address conversion failed: %v"])
      | (raddr, None) =>
          b ← after [ReadFrom pc] (slice buf 0 n);;;
          match socks_SplitAddr b with
          | None =>
              Ret (st, [ReadFrom pc;
                        logf "failed to split target address from packet: %q"])
          | Some tgtAddr =>
              match i_resolve e with
              | inl _ =>
                  Ret (st, [ReadFrom pc;
                            logf "failed to resolve target UDP address: %v"])
              | inr tgtUDPAddr =>
                  payload ← after [ReadFrom pc] (slice buf (length tgtAddr) n);;;
                  match natmap_Get raddr (i_nm st) with
                  | Some pc' =>
                      Ret (st, ReadFrom pc ::
                               written pc' payload tgtUDPAddr e "UDP remote write error: %v")
                  | None =>
                      match i_listen e with
                      | inl _ =>
                          Ret (st, [ReadFrom pc; ListenPacket (i_listen e);
                                    logf "UDP remote listen error: %v"])
                      | inr pc' =>
                          let '(nm, started) :=
                            natmap_Add raddr pc' pc' remoteServer (i_nm st) in
                          Ret ({| i_nm := nm; i_buf := buf |},
                               [ReadFrom pc; ListenPacket (i_listen e)] ++ started ++
                               written pc' payload tgtUDPAddr e "UDP remote write error: %v")
                      end
                  end
              end
          end
      end
  end.

Definition udpRemote `{Extern} (addr : string) (UDPTimeout : Z)
    (b : boot) (script : list ingress_io) : list effect * served :=
  match b_laddr b with
  | inl _ => ([logf "UDP server address error: %v"], Exited)
  | inr _ =>
      match b_listen b with
      | inl _ => ([logf "UDP remote listen error: %v"], Exited)
      | inr cc =>
          let pc := shadow cc in
          let nm := newNATmap UDPTimeout in
          let buf := make_buf in
          let '(effs, r) :=
            deferred_Close cc
              (serve (udpRemote_iter pc) {| i_nm := nm; i_buf := buf |} script) in
          (logf "listening UDP on %s" :: effs, r)
      end
  end.

(** ** An environment for the scenarios *)

Module Scenario.

(** Modelled from the spec: package [socks] is not among the sources. The
    Wire Address is "type tag + address bytes + 2-byte port", self-delimiting
    from its tag; [SplitAddr] cuts it from the front of a buffer and yields
    nil when it cannot. The tags and lengths are those of SOCKS5: 1 for IPv4
    (4 address bytes), 3 for a domain name (a length byte, then that many
    bytes), 4 for IPv6 (16 address bytes). *)
Definition SplitAddr (b : list byte) : option (list byte) :=
  match b with
  | [] => None
  | atyp :: rest =>
      let addrLen :=
        if decide (atyp = x03) then
          match rest with
          | [] => None
          | l :: _ => Some (1 + 1 + Byte.to_nat l + 2)
          end
        else if decide (atyp = x01) then Some (1 + 4 + 2)
        else if decide (atyp = x04) then Some (1 + 16 + 2)
        else None in
      match addrLen with
      | Some k => if decide (length b < k) then None else Some (take k b)
      | None => None
      end
  end.

(** 93.184.216.34, 127.0.0.1 and 2001:db8::1 *)
Definition ip_target : list byte := [x5d; xb8; xd8; x22].
Definition ip_client : list byte := [x7f; x00; x00; x01].
Definition ip_v6 : list byte := [x20; x01; x0d; xb8] ++ replicate 11 x00 ++ [x01].

(** encode(93.184.216.34:80), encode(example.com:443), encode([2001:db8::1]:53) *)
Definition wire_target : list byte := x01 :: ip_target ++ [x00; x50].
Definition wire_example : list byte :=
  [x03; x0b] ++ String.list_byte_of_string "example.com" ++ [x01; xbb].
Definition wire_v6 : list byte := x04 :: ip_v6 ++ [x00; x35].

(** Modelled from the spec: [socks.ParseAddr] ("parse(textAddress) →
    WireAddress | nil") at the addresses of the scenarios; no other text is
    an address in this environment. *)
Definition ParseAddr (s : string) : option (list byte) :=
  if decide (s = "93.184.216.34:80") then Some wire_target
  else if decide (s = "example.com:443") then Some wire_example
  else if decide (s = "[2001:db8::1]:53") then Some wire_v6
  else None.

(** The text forms the standard library gives the addresses of the
    scenarios. *)
Definition UDPAddr_String (a : net_Addr) : string :=
  match a with
  | UDPAddr ip port _ =>
      if decide (ip = ip_target ∧ port = 80%Z) then "93.184.216.34:80"
      else if decide (ip = ip_v6 ∧ port = 53%Z) then "[2001:db8::1]:53"
      else "<nil>"
  | OtherAddr _ text => text
  end.

Definition IP_text (ip : list byte) : string :=
  if decide (ip = ip_client) then "127.0.0.1"
  else if decide (ip = ip_target) then "93.184.216.34"
  else if decide (ip = ip_v6) then "2001:db8::1"
  else "<nil>".

Definition ParseIP_text (s : string) : error + netip_Addr :=
  if decide (s = "127.0.0.1") then inr (Addr4 ip_client)
  else if decide (s = "93.184.216.34") then inr (Addr4 ip_target)
  else if decide (s = "2001:db8::1") then inr (Addr6 ip_v6 "")
  else inl "unable to parse IP".

#[global] Instance env : Extern := {|
  shadow pc := 1000 + pc;
  socks_ParseAddr := ParseAddr;
  socks_SplitAddr := SplitAddr;
  Addr_String := UDPAddr_String;
  IP_String := IP_text;
  netip_ParseAddr := ParseIP_text;
|}.

(** 127.0.0.1:40000, the client of the scenarios, and its table key *)
Definition client : net_Addr := UDPAddr ip_client 40000 "".
Definition client_key : netip_AddrPort := (Addr4 ip_client, 40000%Z).
(** the tunnel server, the answering host and an IPv6 host *)
Definition server : net_Addr := UDPAddr [xc6; x33; x64; x07] 8488 "".
Definition host : net_Addr := UDPAddr ip_target 80 "".
Definition host_v6 : net_Addr := UDPAddr ip_v6 53 "".

End Scenario.

(** * Properties *)

(** ** Slices and copies *)

Lemma bounds_ok lo hi cap : lo ≤ hi → hi ≤ cap → bounds lo hi cap = Ret tt.
Proof. intros. unfold bounds. by rewrite decide_True. Qed.

Lemma bounds_panics lo hi cap : panics (bounds lo hi cap) ↔ (hi < lo ∨ cap < hi).
Proof. unfold bounds. case_decide; simpl; lia. Qed.

Lemma after_Ret {A} effs (x : run A) a : after effs x = Ret a → x = Ret a.
Proof. by destruct x. Qed.

Lemma slice_ok s lo hi :
  lo ≤ hi → hi ≤ length s → slice s lo hi = Ret (take (hi - lo) (drop lo s)).
Proof. intros. unfold slice. by rewrite bounds_ok. Qed.

Lemma slice_prefix s n : n ≤ length s → slice s 0 n = Ret (take n s).
Proof. intros. rewrite slice_ok by lia. by rewrite Nat.sub_0_r. Qed.

Lemma length_copy_to arr off src : length (copy_to arr off src) = length arr.
Proof.
  unfold copy_to. rewrite !length_app, !length_take, length_drop. lia.
Qed.

Lemma copy_to_fits arr off src :
  off + length src ≤ length arr →
  copy_to arr off src = take off arr ++ src ++ drop (off + length src) arr.
Proof. intros. unfold copy_to. by rewrite (take_ge src) by lia. Qed.

Lemma take_copy_to arr off src k :
  off ≤ length arr → k ≤ length arr - off → k ≤ length src →
  take (off + k) (copy_to arr off src) = take off arr ++ take k src.
Proof.
  intros. unfold copy_to.
  rewrite take_app, length_take_le by lia.
  rewrite (take_ge (take off arr)) by (rewrite length_take; lia).
  replace (off + k - off) with k by lia.
  rewrite take_app_le by (rewrite length_take; lia).
  by rewrite take_take, Nat.min_l by lia.
Qed.

Lemma take_copy_to_below arr off src k :
  k ≤ off → off ≤ length arr → take k (copy_to arr off src) = take k arr.
Proof.
  intros. unfold copy_to.
  rewrite take_app_le by (rewrite length_take; lia).
  by rewrite take_take, Nat.min_l by lia.
Qed.

Lemma recv_count arr off d : (recv arr off d).1 = length d `min` (length arr - off).
Proof. done. Qed.

Lemma length_recv arr off d : length (recv arr off d).2 = length arr.
Proof. apply length_copy_to. Qed.

(** Moving back to front inside one array reads every source byte before it
    is overwritten when the destination starts at or above the source. *)
Lemma move_bwd_lookup k : ∀ (arr : list byte) d s i,
  s ≤ d → d + k ≤ length arr →
  move_bwd arr d s k !! i =
    if decide (d ≤ i ∧ i < d + k) then arr !! (s + (i - d)) else arr !! i.
Proof.
  induction k as [|k IH]; intros arr d s i Hsd Hlen; simpl.
  - case_decide; [lia | done].
  - rewrite IH by (rewrite ?length_insert; lia).
    destruct (decide (i = d + k)) as [->|Hne].
    + rewrite decide_False, decide_True by lia.
      rewrite list_lookup_insert_eq by lia.
      replace (s + (d + k - d)) with (s + k) by lia.
      symmetry. apply list_lookup_lookup_total_lt. lia.
    + case_decide.
      * rewrite decide_True by lia. apply list_lookup_insert_ne. lia.
      * rewrite decide_False by lia. by apply list_lookup_insert_ne.
Qed.

(** Front to back does the same when the destination starts at or below the
    source. *)
Lemma move_fwd_lookup k : ∀ (arr : list byte) d s i,
  d ≤ s → s + k ≤ length arr →
  move_fwd arr d s k !! i =
    if decide (d ≤ i ∧ i < d + k) then arr !! (s + (i - d)) else arr !! i.
Proof.
  induction k as [|k IH]; intros arr d s i Hds Hlen; simpl.
  - case_decide; [lia | done].
  - rewrite IH by (rewrite ?length_insert; lia).
    destruct (decide (i = d)) as [->|Hne].
    + rewrite decide_False, decide_True by lia.
      rewrite list_lookup_insert_eq by lia.
      replace (s + (d - d)) with s by lia.
      symmetry. apply list_lookup_lookup_total_lt. lia.
    + case_decide.
      * rewrite decide_True by lia.
        rewrite list_lookup_insert_ne by lia. f_equal. lia.
      * rewrite decide_False by lia. by apply list_lookup_insert_ne.
Qed.

Lemma memmove_lookup (arr : list byte) d s k i :
  d + k ≤ length arr → s + k ≤ length arr →
  memmove arr d s k !! i =
    if decide (d ≤ i ∧ i < d + k) then arr !! (s + (i - d)) else arr !! i.
Proof.
  intros. unfold memmove. case_decide.
  - by apply move_fwd_lookup.
  - apply move_bwd_lookup; lia.
Qed.

(** [copy] inside one array behaves as a copy from a snapshot of the source
    window, whichever way the windows overlap. *)
Lemma memmove_spec (arr : list byte) d s k :
  d + k ≤ length arr → s + k ≤ length arr →
  memmove arr d s k = take d arr ++ take k (drop s arr) ++ drop (d + k) arr.
Proof.
  intros Hd Hs. apply list_eq. intros i.
  rewrite memmove_lookup by done.
  destruct (decide (i < d)) as [Hlt|Hge].
  - rewrite decide_False by lia.
    rewrite lookup_app_l by (rewrite length_take; lia).
    by rewrite lookup_take_lt.
  - rewrite lookup_app_r by (rewrite length_take; lia).
    rewrite length_take_le by lia.
    destruct (decide (i < d + k)) as [Hin|Hout].
    + rewrite decide_True by lia.
      rewrite lookup_app_l by (rewrite length_take, length_drop; lia).
      rewrite lookup_take_lt by lia. by rewrite lookup_drop.
    + rewrite decide_False by lia.
      rewrite lookup_app_r by (rewrite length_take, length_drop; lia).
      rewrite length_take_le by (rewrite length_drop; lia).
      rewrite lookup_drop. f_equal. lia.
Qed.

Lemma length_memmove (arr : list byte) d s k :
  d + k ≤ length arr → s + k ≤ length arr → length (memmove arr d s k) = length arr.
Proof.
  intros. rewrite memmove_spec by done.
  rewrite !length_app, !length_take, !length_drop. lia.
Qed.

(** ** The reverse transform of a remoteServer session *)

(** The writes among the calls of a trace. *)
Definition writes (effs : list effect) : list (PacketConn * list byte * net_Addr) :=
  omap (λ eff, match eff with WriteTo pc b addr => Some (pc, b, addr) | _ => None end) effs.

(** The splice of [timedCopy]: the payload is moved up by the length of the
    address inside the buffer, the address is copied in front of it. *)
Lemma splice_prefix (buf a : list byte) n :
  length a + n ≤ length buf →
  take (length a + n) (copy_to (memmove buf (length a) 0 n) 0 a) = a ++ take n buf.
Proof.
  intros Hfit.
  rewrite memmove_spec by lia.
  rewrite copy_to_fits by (rewrite !length_app, !length_take, !length_drop; lia).
  simpl. rewrite drop_0.
  rewrite drop_app_length' by (rewrite length_take; lia).
  rewrite take_app_add' by done.
  by rewrite take_app_length' by (rewrite length_take; lia).
Qed.

Lemma take_recv (buf d : list byte) :
  take (recv buf 0 d).1 (recv buf 0 d).2 = take (recv buf 0 d).1 d.
Proof.
  unfold recv, copy_to. simpl. rewrite Nat.sub_0_r.
  destruct (decide (length d ≤ length buf)).
  - rewrite Nat.min_l by lia. rewrite !(take_ge d) by lia. by rewrite take_app_length.
  - rewrite Nat.min_r by lia.
    rewrite take_app_length' by (rewrite length_take; lia). done.
Qed.

Section remoteServer.
Context `{Extern}.
Variables (dst src : PacketConn) (udpTarget : net_Addr) (timeout : Z).

(** X1. Where the encoded source address and the datagram fit the 64 KiB
    buffer together, a remoteServer session writes to the reverse
    destination the encoding of the source address followed by the [n] bytes
    read, unchanged by the splice inside the buffer. *)
Lemma remoteServer_fits (buf : list byte) (e : relay_io) (d : list byte) (A : net_Addr) :
  r_read e = inr (d, A) →
  let n := length d `min` length buf in
  let srcAddr := socks_ParseAddr (Addr_String A) in
  len srcAddr + n ≤ length buf →
  ∃ buf',
    timedCopy_iter dst udpTarget src timeout remoteServer buf e =
      Ret (buf',
           [SetReadDeadline src (now e + timeout); ReadFrom src;
            WriteTo dst (bytes_of srcAddr ++ take n d) udpTarget],
           r_write e)
    ∧ length buf' = length buf.
Proof.
  intros Hrd n srcAddr Hfit.
  unfold timedCopy_iter. rewrite Hrd.
  pose proof (take_recv buf d) as Htake.
  pose proof (length_recv buf 0 d) as Hlen.
  destruct (recv buf 0 d) as [n' buf1] eqn:Hrecv.
  assert (n' = n) as -> by (unfold recv in Hrecv; injection Hrecv; intros; subst; lia).
  simpl in Htake, Hlen. fold srcAddr.
  rewrite !bounds_ok by lia. simpl.
  rewrite Nat.min_r by lia.
  assert (len srcAddr = length (bytes_of srcAddr)) as HL by (by destruct srcAddr).
  rewrite HL in *.
  rewrite slice_prefix
    by (rewrite length_copy_to, length_memmove; lia).
  rewrite splice_prefix by lia. simpl.
  eexists. split.
  - by rewrite Htake.
  - rewrite length_copy_to, length_memmove; lia.
Qed.

(** Where they do not fit, a slice expression of the splice (at the latest
    [buf[:len(srcAddr)+n]]) is out of range and the process panics. *)
Lemma remoteServer_overflow (buf : list byte) (e : relay_io) (d : list byte) (A : net_Addr) :
  r_read e = inr (d, A) →
  let n := length d `min` length buf in
  let srcAddr := socks_ParseAddr (Addr_String A) in
  length buf < len srcAddr + n →
  timedCopy_iter dst udpTarget src timeout remoteServer buf e =
    Panic [SetReadDeadline src (now e + timeout); ReadFrom src]
      "slice bounds out of range".
Proof.
  intros Hrd n srcAddr Hover.
  unfold timedCopy_iter. rewrite Hrd.
  pose proof (length_recv buf 0 d) as Hlen.
  destruct (recv buf 0 d) as [n' buf1] eqn:Hrecv.
  assert (n' = n) as -> by (unfold recv in Hrecv; injection Hrecv; intros; subst; lia).
  simpl in Hlen. fold srcAddr.
  destruct (decide (len srcAddr ≤ length buf)) as [HL|HL].
  - rewrite !bounds_ok by lia. simpl.
    unfold slice, bounds.
    rewrite length_copy_to, length_memmove by lia.
    by rewrite decide_False by lia.
  - unfold bounds at 1. by rewrite decide_False by lia.
Qed.

End remoteServer.

Lemma length_make_buf : length make_buf = udpBufSize.
Proof. apply length_replicate. Qed.

Lemma udpBufSize_eq : udpBufSize = 64 * 1024.
Proof. reflexivity. Qed.

(** Scenario: the host 93.184.216.34:80 answers "OK" to a remoteServer
    session; the tunnel peer is sent encode(93.184.216.34:80) ‖ "OK". *)
Lemma remoteServer_fits_witness :
  ∃ buf',
    timedCopy_iter (H := Scenario.env) 7 Scenario.client 7 60 remoteServer make_buf
      {| now := 0; r_read := inr ([x4f; x4b], Scenario.host); r_write := None |} =
      Ret (buf',
           [SetReadDeadline 7 60; ReadFrom 7;
            WriteTo 7 (Scenario.wire_target ++ [x4f; x4b]) Scenario.client],
           None)
    ∧ length buf' = length make_buf.
Proof.
  apply (remoteServer_fits (H := Scenario.env) 7 7 Scenario.client 60 make_buf
           {| now := 0; r_read := inr ([x4f; x4b], Scenario.host); r_write := None |}
           [x4f; x4b] Scenario.host).
  - reflexivity.
  - rewrite length_make_buf, udpBufSize_eq.
    change (len (socks_ParseAddr (Addr_String Scenario.host))) with 7.
    change (length [x4f; x4b]) with 2. lia.
Defined.

(** C1 (the code departs from it). A remoteServer session is to write
    encode(A) ‖ buf[:n] for every datagram read. The splice is done inside the
    64 KiB receive buffer, and where the address and the datagram do not fit
    it together the slice is out of range: for the largest UDP datagram over
    IPv6 (65527 bytes) from [2001:db8::1]:53, whose encoding has 19 bytes,
    the iteration panics and nothing is written. *)
Theorem remoteServer_largest_ipv6_datagram_panics :
  timedCopy_iter (H := Scenario.env) 7 Scenario.client 7 60 remoteServer make_buf
    {| now := 0;
       r_read := inr (replicate (udpBufSize - 9) x00, Scenario.host_v6);
       r_write := None |}
  = Panic [SetReadDeadline 7 60; ReadFrom 7] "slice bounds out of range".
Proof.
  rewrite (remoteServer_overflow (H := Scenario.env) 7 7 Scenario.client 60 make_buf _
             (replicate (udpBufSize - 9) x00) Scenario.host_v6).
  - reflexivity.
  - reflexivity.
  - rewrite length_replicate, length_make_buf.
    change (len (socks_ParseAddr (Addr_String Scenario.host_v6))) with 19.
    rewrite udpBufSize_eq. lia.
Qed.

(** ** What an ingress forwards *)

(** The connection an ingress writes to after its lookup: the entry found
    or, on a miss, the connection just created (wrapped by [wrap]); none when
    [net.ListenPacket] failed. *)
Definition session_conn (wrap : PacketConn → PacketConn) (st : ingress)
    (e : ingress_io) (raddr : netip_AddrPort) : option PacketConn :=
  match natmap_Get raddr (i_nm st) with
  | Some pc => Some pc
  | None =>
      match i_listen e with
      | inr pc0 => Some (wrap pc0)
      | inl _ => None
      end
  end.

(** The one write of [data] to [to] over that connection, or none when the
    sender has no canonical address or no connection could be had. *)
Definition forwarded (wrap : PacketConn → PacketConn) `{Extern} (st : ingress)
    (e : ingress_io) (addr : net_Addr) (data : list byte) (to : net_Addr)
    : list (PacketConn * list byte * net_Addr) :=
  match udpAddrToNetip addr with
  | (raddr, None) =>
      match session_conn wrap st e raddr with
      | Some pc => [(pc, data, to)]
      | None => []
      end
  | (_, Some _) => []
  end.

Lemma slice_take_drop (s : list byte) lo hi :
  lo ≤ hi → hi ≤ length s → slice s lo hi = Ret (drop lo (take hi s)).
Proof.
  intros. rewrite slice_ok by done. f_equal.
  rewrite take_drop_commute. do 2 f_equal. lia.
Qed.

Lemma slice_recv (buf d : list byte) lo n buf' :
  recv buf 0 d = (n, buf') → lo ≤ n → slice buf' lo n = Ret (drop lo (take n d)).
Proof.
  intros Hrecv Hlo.
  pose proof (take_recv buf d) as Htake. pose proof (length_recv buf 0 d) as Hlen.
  rewrite Hrecv in Htake, Hlen. simpl in Htake, Hlen.
  assert (n ≤ length buf) by (unfold recv in Hrecv; injection Hrecv; lia).
  rewrite slice_take_drop by lia. by rewrite Htake.
Qed.

Lemma writes_written pc b addr e format :
  writes (written pc b addr e format) = [(pc, b, addr)].
Proof. unfold written. by destruct (i_write e). Qed.

Lemma writes_app effs1 effs2 : writes (effs1 ++ effs2) = writes effs1 ++ writes effs2.
Proof. unfold writes. apply omap_app. Qed.

Section udpSocksLocal.
Context `{Extern}.
Variables (c : PacketConn) (srvAddr : net_Addr).

(** A datagram of at least three bytes is handled without a panic, and what
    is forwarded is the datagram without its first three bytes. *)
Lemma udpSocksLocal_iter_forwards (st : ingress) (e : ingress_io) d addr :
  3 ≤ length (i_buf st) →
  i_read e = inr (d, addr) →
  let n := length d `min` length (i_buf st) in
  3 ≤ n →
  ∃ st' effs,
    udpSocksLocal_iter c srvAddr st e = Ret (st', effs)
    ∧ length (i_buf st') = length (i_buf st)
    ∧ writes effs = forwarded shadow st e addr (drop 3 (take n d)) srvAddr.
Proof.
  intros Hbuf Hrd n Hn.
  unfold udpSocksLocal_iter, forwarded, session_conn. rewrite Hrd.
  pose proof (length_recv (i_buf st) 0 d) as Hlen.
  destruct (recv (i_buf st) 0 d) as [n' buf'] eqn:Hrecv.
  assert (n' = n) as -> by (unfold recv in Hrecv; injection Hrecv; intros; subst; lia).
  simpl in Hlen.
  destruct (udpAddrToNetip addr) as [raddr [err|]]; [by eauto|].
  destruct (natmap_Get raddr (i_nm st)) as [pc|].
  - rewrite (slice_recv _ _ _ _ _ Hrecv) by done. simpl.
    do 2 eexists. split_and!; [done..|]. unfold written. by destruct (i_write e).
  - destruct (i_listen e) as [err|pc0]; [by eauto|].
    rewrite bounds_ok by lia. simpl.
    rewrite (slice_recv _ _ _ _ _ Hrecv) by done. simpl.
    do 2 eexists. split_and!; [done..|]. unfold written. by destruct (i_write e).
Qed.

(** The iteration panics exactly when a datagram of fewer than three bytes
    arrives from a sender that has a canonical address and a connection:
    [buf[3:n]] is then out of range. *)
Lemma udpSocksLocal_iter_panics_iff (st : ingress) (e : ingress_io) :
  3 ≤ length (i_buf st) →
  panics (udpSocksLocal_iter c srvAddr st e) ↔
  ∃ d addr raddr,
    i_read e = inr (d, addr) ∧ length d < 3
    ∧ udpAddrToNetip addr = (raddr, None)
    ∧ is_Some (session_conn shadow st e raddr).
Proof.
  intros Hbuf. split.
  - destruct (i_read e) as [err|[d addr]] eqn:Hrd.
    { unfold udpSocksLocal_iter. by rewrite Hrd. }
    destruct (decide (length d < 3)) as [Hshort|Hlong].
    + intros Hp. exists d, addr. unfold udpSocksLocal_iter in Hp. rewrite Hrd in Hp.
      destruct (recv (i_buf st) 0 d) as [n' buf']. unfold session_conn.
      destruct (udpAddrToNetip addr) as [raddr [err|]]; [done|].
      exists raddr. split_and!; [done..|].
      destruct (natmap_Get raddr (i_nm st)); [by eauto|].
      destruct (i_listen e); [done | by eauto].
    + destruct (udpSocksLocal_iter_forwards st e d addr) as (st' & effs & -> & _);
        [done | done | lia | done].
  - intros (d & addr & raddr & Hrd & Hshort & Hconv & Hconn).
    unfold udpSocksLocal_iter. rewrite Hrd.
    pose proof (length_recv (i_buf st) 0 d) as Hlen.
    destruct (recv (i_buf st) 0 d) as [n' buf'] eqn:Hrecv.
    assert (n' = length d) as -> by (unfold recv in Hrecv; injection Hrecv; intros; subst; lia).
    simpl in Hlen. rewrite Hconv.
    unfold session_conn in Hconn.
    destruct (natmap_Get raddr (i_nm st)) as [pc|].
    + unfold slice, bounds. by rewrite decide_False by lia.
    + destruct (i_listen e) as [err|pc0]; [by destruct Hconn|].
      rewrite bounds_ok by lia. simpl.
      unfold slice, bounds. by rewrite decide_False by lia.
Qed.

End udpSocksLocal.

(** ** The read loop as a whole *)

Lemma serve_app body st pre post :
  serve body st (pre ++ post) =
    match serve body st pre with
    | (effs, Serving st') =>
        let '(effs', r) := serve body st' post in (effs ++ effs', r)
    | r => r
    end.
Proof.
  revert st. induction pre as [|e pre IH]; intros st; simpl.
  - by destruct (serve body st post).
  - destruct (body st e) as [[st' effs]|effs0 msg]; [|done].
    rewrite IH. destruct (serve body st' pre) as [effs1 [st1| |msg]]; [|done..].
    destruct (serve body st1 post) as [effs2 r]. by rewrite app_assoc.
Qed.

(** A loop whose body keeps an invariant and never panics under it is still
    serving, in a state with the invariant, after any finite number of
    datagrams. *)
Lemma serve_invariant (inv : ingress → Prop) body :
  (∀ st e, inv st → ∃ st' effs, body st e = Ret (st', effs) ∧ inv st') →
  ∀ script st, inv st →
  ∃ effs st', serve body st script = (effs, Serving st') ∧ inv st'.
Proof.
  intros Hbody. induction script as [|e script IH]; intros st Hinv; simpl.
  - by eauto.
  - destruct (Hbody st e Hinv) as (st1 & effs1 & -> & Hinv1).
    destruct (IH st1 Hinv1) as (effs2 & st2 & -> & Hinv2). by eauto.
Qed.

(** ** Transparent mode: what is forwarded *)

Section udpLocal.
Context `{Extern}.
Variables (c : PacketConn) (srvAddr : net_Addr) (tgt : list byte).

(** The target's address stays at the front of the buffer, where start-up
    copied it: reads land behind it. *)
Definition tgt_in_front (st : ingress) : Prop :=
  length (i_buf st) = udpBufSize ∧ take (length tgt) (i_buf st) = tgt.

Lemma tgt_in_front_init nm :
  length tgt ≤ udpBufSize →
  tgt_in_front {| i_nm := nm; i_buf := copy_to make_buf 0 tgt |}.
Proof.
  intros Htgt. split; simpl.
  - by rewrite length_copy_to, length_make_buf.
  - rewrite copy_to_fits by (rewrite length_make_buf; lia). simpl.
    by rewrite take_app_length.
Qed.

Lemma udpLocal_iter_read_error (st : ingress) (e : ingress_io) err :
  length tgt ≤ udpBufSize → tgt_in_front st →
  i_read e = inl err →
  udpLocal_iter c srvAddr tgt st e =
    Ret (st, [ReadFrom c; logf "UDP local read error: %v"]).
Proof.
  intros Htgt [Hlen _] Hrd. unfold udpLocal_iter.
  rewrite bounds_ok by lia. simpl. by rewrite Hrd.
Qed.

Lemma udpLocal_iter_forwards (st : ingress) (e : ingress_io) d addr :
  length tgt ≤ udpBufSize → tgt_in_front st →
  i_read e = inr (d, addr) →
  let n := length d `min` (udpBufSize - length tgt) in
  ∃ st' effs,
    udpLocal_iter c srvAddr tgt st e = Ret (st', effs)
    ∧ tgt_in_front st'
    ∧ writes effs = forwarded shadow st e addr (tgt ++ take n d) srvAddr.
Proof.
  intros Htgt [Hlen Hfront] Hrd n.
  unfold udpLocal_iter, forwarded, session_conn.
  rewrite bounds_ok by lia. cbn [run_bind after]. rewrite Hrd.
  destruct (recv (i_buf st) (length tgt) d) as [n' buf'] eqn:Hrecv.
  unfold recv in Hrecv. injection Hrecv as Hn' Hbuf'.
  assert (n' = n) as -> by (subst n' n; by rewrite Hlen).
  assert (length buf' = udpBufSize) as Hlen'
    by (by rewrite <- Hbuf', length_copy_to).
  assert (take (length tgt) buf' = tgt) as Hfront'.
  { rewrite <- Hbuf'. by rewrite take_copy_to_below by lia. }
  assert (slice buf' 0 (length tgt + n) = Ret (tgt ++ take n d)) as Hout.
  { rewrite slice_prefix by lia. f_equal. rewrite <- Hbuf'.
    rewrite take_copy_to by lia. by rewrite Hfront. }
  assert (∀ nm, tgt_in_front {| i_nm := nm; i_buf := buf' |}) as Hinv'
    by (by intros; split).
  destruct (udpAddrToNetip addr) as [raddr [err|]]; [by eauto 10|].
  destruct (natmap_Get raddr (i_nm st)) as [pc|].
  - rewrite Hout. simpl.
    do 2 eexists. split_and!; [done..|]. unfold written. by destruct (i_write e).
  - destruct (i_listen e) as [err|pc0]; [by eauto 10|]. simpl.
    rewrite Hout. simpl.
    do 2 eexists. split_and!; [done..|]. unfold written. by destruct (i_write e).
Qed.

Lemma udpLocal_iter_invariant (st : ingress) (e : ingress_io) :
  length tgt ≤ udpBufSize → tgt_in_front st →
  ∃ st' effs, udpLocal_iter c srvAddr tgt st e = Ret (st', effs) ∧ tgt_in_front st'.
Proof.
  intros Htgt Hinv. destruct (i_read e) as [err|[d addr]] eqn:Hrd.
  - rewrite (udpLocal_iter_read_error st e err) by done. by eauto.
  - destruct (udpLocal_iter_forwards st e d addr) as (st' & effs & -> & ? & _);
      by eauto.
Qed.

End udpLocal.

(** C3. Transparent mode: at every iteration of the read loop of [udpLocal]
    that reads a datagram, with [n] payload bytes landing in the buffer, the
    iteration does not panic and what it writes is exactly one datagram to
    the server address, the wire address parsed from [target] at start-up
    followed by those [n] bytes, over the connection of the sender's session
    (nothing when the sender has no canonical address or no connection could
    be created). [pre] are the datagrams handled before, [post] those after;
    the loop is still serving at the end. *)
Theorem udpLocal_framing `{Extern} (laddr server target : string) (T : Z) (b : boot)
    (pre post : list ingress_io) (e : ingress_io) (tgt : list byte)
    (srvAddr la : net_Addr) (c : PacketConn) (d : list byte) (addr : net_Addr) :
  socks_ParseAddr target = Some tgt → length tgt ≤ udpBufSize →
  b_server b = inr srvAddr → b_laddr b = inr la → b_listen b = inr c →
  i_read e = inr (d, addr) →
  let n := length d `min` (udpBufSize - length tgt) in
  ∃ effs_pre st effs st' effs_post st_end,
    serve (udpLocal_iter c srvAddr tgt)
      {| i_nm := newNATmap T; i_buf := copy_to make_buf 0 tgt |} pre
      = (effs_pre, Serving st)
    ∧ udpLocal_iter c srvAddr tgt st e = Ret (st', effs)
    ∧ writes effs = forwarded shadow st e addr (tgt ++ take n d) srvAddr
    ∧ udpLocal laddr server target T b (pre ++ e :: post)
      = (logf "UDP tunnel %s <-> %s <-> %s" :: effs_pre ++ effs ++ effs_post,
         Serving st_end).
Proof.
  intros Hparse Htgt Hsrv Hla Hc Hrd n.
  pose proof (λ st e, udpLocal_iter_invariant c srvAddr tgt st e Htgt) as Hbody.
  destruct (serve_invariant _ _ Hbody pre _ (tgt_in_front_init tgt (newNATmap T) Htgt))
    as (effs_pre & st & Hpre & Hinv).
  destruct (udpLocal_iter_forwards c srvAddr tgt st e d addr Htgt Hinv Hrd)
    as (st' & effs & Hiter & Hinv' & Hw).
  destruct (serve_invariant _ _ Hbody post _ Hinv') as (effs_post & st_end & Hpost & _).
  exists effs_pre, st, effs, st', effs_post, st_end.
  split_and!; [done..|].
  unfold udpLocal. rewrite Hsrv, Hparse, Hla, Hc.
  rewrite serve_app, Hpre. simpl. by rewrite Hiter, Hpost.
Qed.

(** Scenario 1: the fixed target is 93.184.216.34:80 and the client sends
    "hello". *)
Lemma udpLocal_framing_witness :
  let e := {| i_read := inr (String.list_byte_of_string "hello", Scenario.client);
              i_listen := inr 2; i_write := None; i_resolve := inl "" |} in
  let b := {| b_server := inr Scenario.server; b_laddr := inr Scenario.client;
              b_listen := inr 1 |} in
  ∃ effs_pre st effs st' effs_post st_end,
    serve (udpLocal_iter (H := Scenario.env) 1 Scenario.server Scenario.wire_target)
      {| i_nm := newNATmap 60; i_buf := copy_to make_buf 0 Scenario.wire_target |} []
      = (effs_pre, Serving st)
    ∧ udpLocal_iter (H := Scenario.env) 1 Scenario.server Scenario.wire_target st e
      = Ret (st', effs)
    ∧ writes effs =
        forwarded (H := Scenario.env) shadow st e Scenario.client
          (Scenario.wire_target ++ String.list_byte_of_string "hello") Scenario.server
    ∧ udpLocal (H := Scenario.env) ":1080" "198.51.100.7:8488" "93.184.216.34:80" 60 b
        ([] ++ e :: [])
      = (logf "UDP tunnel %s <-> %s <-> %s" :: effs_pre ++ effs ++ effs_post,
         Serving st_end).
Proof.
  intros e b.
  apply (udpLocal_framing (H := Scenario.env) ":1080" "198.51.100.7:8488"
           "93.184.216.34:80" 60 b [] [] e Scenario.wire_target Scenario.server
           Scenario.client 1 (String.list_byte_of_string "hello") Scenario.client).
  - reflexivity.
  - rewrite udpBufSize_eq. change (length Scenario.wire_target) with 7. lia.
  - reflexivity.
  - reflexivity.
  - reflexivity.
  - reflexivity.
Defined.

(** The trace of scenario 1: encode(93.184.216.34:80) ‖ "hello" goes to the
    server over the new session's connection. *)
Example udpLocal_scenario :
  let e := {| i_read := inr (String.list_byte_of_string "hello", Scenario.client);
              i_listen := inr 2; i_write := None; i_resolve := inl "" |} in
  let b := {| b_server := inr Scenario.server; b_laddr := inr Scenario.client;
              b_listen := inr 1 |} in
  (udpLocal (H := Scenario.env) ":1080" "198.51.100.7:8488" "93.184.216.34:80" 60 b [e]).1
  = [logf "UDP tunnel %s <-> %s <-> %s"; ReadFrom 1; ListenPacket (inr 2);
     go {| s_dst := 1; s_peer := Scenario.client_key; s_src := 1002;
           s_timeout := 60; s_role := relayClient |};
     WriteTo 1002 ([x01; x5d; xb8; xd8; x22; x00; x50] ++
                   String.list_byte_of_string "hello") Scenario.server].
Proof. vm_compute. reflexivity. Qed.

(** ** SOCKS5 mode *)

(** C10. The handling of a datagram by the SOCKS5 ingress is total only from
    three bytes on. [buf[3:]] is always in range and [buf[3:n]] is in range
    for every count 3 ≤ n the read can return, so a datagram of at least
    three bytes is handled without a panic; [buf[3:n]] is out of range for
    every n < 3, nothing checks the length before, and the iteration panics
    exactly when a datagram of fewer than three bytes arrives from a sender
    that has a canonical address and a session connection. *)
Theorem udpSocksLocal_total_from_three_bytes `{Extern} (c : PacketConn)
    (srvAddr : net_Addr) (st : ingress) (e : ingress_io) :
  length (i_buf st) = udpBufSize →
  (∀ n, 3 ≤ n → n ≤ udpBufSize →
     bounds 3 udpBufSize udpBufSize = Ret tt ∧ bounds 3 n udpBufSize = Ret tt)
  ∧ (∀ n, n < 3 → bounds 3 n udpBufSize = Panic [] "slice bounds out of range")
  ∧ (∀ d addr, i_read e = inr (d, addr) → 3 ≤ length d →
       ¬ panics (udpSocksLocal_iter c srvAddr st e))
  ∧ (panics (udpSocksLocal_iter c srvAddr st e) ↔
     ∃ d addr raddr,
       i_read e = inr (d, addr) ∧ length d < 3
       ∧ udpAddrToNetip addr = (raddr, None)
       ∧ is_Some (session_conn shadow st e raddr)).
Proof.
  intros Hlen.
  assert (3 ≤ length (i_buf st)) as Hbuf by (rewrite Hlen, udpBufSize_eq; lia).
  pose proof (udpSocksLocal_iter_panics_iff c srvAddr st e Hbuf) as Hiff.
  split_and!; [| | |done].
  - intros n ? ?. rewrite !bounds_ok; [done|lia..|rewrite udpBufSize_eq; lia|done].
  - intros n ?. unfold bounds. by rewrite decide_False by lia.
  - intros d addr Hrd Hd [d' (addr' & raddr & Hrd' & Hshort & _)]%Hiff.
    rewrite Hrd in Hrd'. injection Hrd' as <- <-. lia.
Qed.

(** A datagram of two bytes from 127.0.0.1:40000, a new peer. *)
Lemma udpSocksLocal_total_from_three_bytes_witness :
  panics
    (udpSocksLocal_iter (H := Scenario.env) 1 Scenario.server
       {| i_nm := newNATmap 60; i_buf := make_buf |}
       {| i_read := inr ([x00; x00], Scenario.client); i_listen := inr 2;
          i_write := None; i_resolve := inl "" |}).
Proof.
  apply (udpSocksLocal_total_from_three_bytes (H := Scenario.env) 1 Scenario.server
           {| i_nm := newNATmap 60; i_buf := make_buf |}
           {| i_read := inr ([x00; x00], Scenario.client); i_listen := inr 2;
              i_write := None; i_resolve := inl "" |} length_make_buf).
  exists [x00; x00], Scenario.client, Scenario.client_key.
  split_and!; [reflexivity | simpl; lia | reflexivity | by eexists].
Defined.

(** C4 (the code departs from it). The SOCKS5 ingress is to forward bytes 3
    to n-1 of every datagram it reads. A datagram of two bytes from a new
    peer makes it create the session and then panic at [buf[3:n]]: the
    listener dies, its deferred Close runs, and among the calls made there
    is no write. This is the defect C10 describes. *)
Theorem udpSocksLocal_short_datagram_dies :
  udpSocksLocal (H := Scenario.env) ":1080" "198.51.100.7:8488" 60
    {| b_server := inr Scenario.server; b_laddr := inr Scenario.client;
       b_listen := inr 1 |}
    [{| i_read := inr ([x00; x00], Scenario.client); i_listen := inr 2;
        i_write := None; i_resolve := inl "" |}]
  = ([ReadFrom 1; ListenPacket (inr 2); logf "UDP socks tunnel %s <-> %s <-> %s";
      go {| s_dst := 1; s_peer := Scenario.client_key; s_src := 1002;
            s_timeout := 60; s_role := socksClient |};
      Close 1],
     Died "slice bounds out of range").
Proof.
  unfold udpSocksLocal, serve, udpSocksLocal_iter. simpl i_read. cbv iota beta.
  vm_compute. reflexivity.
Qed.

(** X2. From three bytes on the SOCKS5 ingress forwards, to the server
    address, exactly the bytes after the header: bytes 3 to n-1 of the
    datagram read, over the connection of the sender's session (nothing when
    the sender has no canonical address or no connection could be created). *)
Theorem udpSocksLocal_forwards_after_header `{Extern} (c : PacketConn)
    (srvAddr : net_Addr) (st : ingress) (e : ingress_io) (d : list byte)
    (addr : net_Addr) :
  length (i_buf st) = udpBufSize →
  i_read e = inr (d, addr) →
  let n := length d `min` udpBufSize in
  3 ≤ n →
  ∃ st' effs,
    udpSocksLocal_iter c srvAddr st e = Ret (st', effs)
    ∧ length (i_buf st') = udpBufSize
    ∧ writes effs = forwarded shadow st e addr (drop 3 (take n d)) srvAddr.
Proof.
  intros Hlen Hrd n Hn.
  destruct (udpSocksLocal_iter_forwards c srvAddr st e d addr) as (st' & effs & ? & ? & ?);
    [rewrite Hlen, udpBufSize_eq; lia | done | by rewrite Hlen | ].
  exists st', effs. subst n. rewrite <- Hlen. done.
Qed.

(** Scenario 5, outbound leg: [0,0,0] ‖ encode(example.com:443) ‖ "GET". *)
Lemma udpSocksLocal_forwards_after_header_witness :
  let d := [x00; x00; x00] ++ Scenario.wire_example ++ String.list_byte_of_string "GET" in
  let st := {| i_nm := newNATmap 60; i_buf := make_buf |} in
  let e := {| i_read := inr (d, Scenario.client); i_listen := inr 2;
              i_write := None; i_resolve := inl "" |} in
  ∃ st' effs,
    udpSocksLocal_iter (H := Scenario.env) 1 Scenario.server st e = Ret (st', effs)
    ∧ length (i_buf st') = udpBufSize
    ∧ writes effs =
        forwarded (H := Scenario.env) shadow st e Scenario.client
          (drop 3 (take (length d `min` udpBufSize) d)) Scenario.server.
Proof.
  intros d st e.
  apply (udpSocksLocal_forwards_after_header (H := Scenario.env) 1 Scenario.server
           st e d Scenario.client).
  - apply length_make_buf.
  - reflexivity.
  - change (length d) with 21. rewrite udpBufSize_eq. lia.
Defined.

Lemma socksClient_reply `{Extern} (dst src : PacketConn) (udpTarget : net_Addr)
    (timeout : Z) (buf : list byte) (re : relay_io) (q : list byte) (A : net_Addr) :
  r_read re = inr (q, A) → length q ≤ length buf →
  ∃ buf',
    timedCopy_iter dst udpTarget src timeout socksClient buf re =
      Ret (buf',
           [SetReadDeadline src (now re + timeout); ReadFrom src;
            WriteTo dst ([x00; x00; x00] ++ q) udpTarget],
           r_write re)
    ∧ length buf' = length buf.
Proof.
  intros Hrd Hq. unfold timedCopy_iter. rewrite Hrd.
  pose proof (length_recv buf 0 q) as Hlen.
  destruct (recv buf 0 q) as [n buf'] eqn:Hrecv.
  assert (n = length q) as -> by (unfold recv in Hrecv; injection Hrecv; intros; subst; lia).
  rewrite (slice_recv _ _ _ _ _ Hrecv) by lia. simpl.
  rewrite take_ge by done. by eauto.
Qed.

(** C2. SOCKS5 mode, both directions. A client datagram made of a three-byte
    header (the claim's [0,0,0], or any other three bytes), a wire address
    [a] and a payload [p] leaves for the server as [a ‖ p], over the
    connection [pc] of the client's session; and whatever datagram [q] is
    then read on that connection is delivered over the listening socket [c]
    as [0,0,0] ‖ [q]. Only the three header bytes come and go. Both
    datagrams are within what a read can take (64 KiB); the client has a
    canonical address and a session connection. *)
Theorem socks_round_trip `{Extern} (c : PacketConn) (srvAddr : net_Addr) (st : ingress)
    (e : ingress_io) (hdr a p : list byte) (addr : net_Addr) (raddr : netip_AddrPort)
    (pc : PacketConn) (udpTarget : net_Addr) (timeout : Z) (buf : list byte)
    (re : relay_io) (q : list byte) (A : net_Addr) :
  length (i_buf st) = udpBufSize → length hdr = 3 →
  i_read e = inr (hdr ++ a ++ p, addr) → length (hdr ++ a ++ p) ≤ udpBufSize →
  udpAddrToNetip addr = (raddr, None) → session_conn shadow st e raddr = Some pc →
  length buf = udpBufSize → r_read re = inr (q, A) → length q ≤ udpBufSize →
  (∃ st' effs,
     udpSocksLocal_iter c srvAddr st e = Ret (st', effs)
     ∧ writes effs = [(pc, a ++ p, srvAddr)])
  ∧ (∃ buf' effs,
       timedCopy_iter c udpTarget pc timeout socksClient buf re
         = Ret (buf', effs, r_write re)
       ∧ writes effs = [(c, [x00; x00; x00] ++ q, udpTarget)]).
Proof.
  intros Hlen Hhdr Hrd Hfit Hconv Hconn Hbuf Hrd' Hq. split.
  - destruct (udpSocksLocal_iter_forwards c srvAddr st e (hdr ++ a ++ p) addr)
      as (st' & effs & ? & _ & Hw);
      [rewrite Hlen, udpBufSize_eq; lia | done | rewrite length_app in *; lia | ].
    exists st', effs. split; [done|].
    rewrite Hw. unfold forwarded. rewrite Hconv, Hconn.
    rewrite Nat.min_l, take_ge by lia.
    by rewrite drop_app_length' by done.
  - destruct (socksClient_reply c pc udpTarget timeout buf re q A) as (buf' & -> & _);
      [done | lia | ].
    by eauto.
Qed.

(** Scenario 5: the client sends [0,0,0] ‖ encode(example.com:443) ‖ "GET"
    and the reply read on the session's connection is "OK". *)
Lemma socks_round_trip_witness :
  let st := {| i_nm := newNATmap 60; i_buf := make_buf |} in
  let e := {| i_read := inr ([x00; x00; x00] ++ Scenario.wire_example ++
                             String.list_byte_of_string "GET", Scenario.client);
              i_listen := inr 2; i_write := None; i_resolve := inl "" |} in
  let re := {| now := 0; r_read := inr ([x4f; x4b], Scenario.server); r_write := None |} in
  (∃ st' effs,
     udpSocksLocal_iter (H := Scenario.env) 1 Scenario.server st e = Ret (st', effs)
     ∧ writes effs =
         [(1002, Scenario.wire_example ++ String.list_byte_of_string "GET",
           Scenario.server)])
  ∧ (∃ buf' effs,
       timedCopy_iter (H := Scenario.env) 1 Scenario.client 1002 60 socksClient make_buf re
         = Ret (buf', effs, r_write re)
       ∧ writes effs = [(1, [x00; x00; x00] ++ [x4f; x4b], Scenario.client)]).
Proof.
  intros st e re.
  apply (socks_round_trip (H := Scenario.env) 1 Scenario.server st e [x00; x00; x00]
           Scenario.wire_example (String.list_byte_of_string "GET") Scenario.client
           Scenario.client_key 1002 Scenario.client 60 make_buf re [x4f; x4b]
           Scenario.server).
  - apply length_make_buf.
  - reflexivity.
  - reflexivity.
  - rewrite udpBufSize_eq.
    change (length ([x00; x00; x00] ++ Scenario.wire_example ++
                    String.list_byte_of_string "GET")) with 21. lia.
  - reflexivity.
  - reflexivity.
  - apply length_make_buf.
  - reflexivity.
  - rewrite udpBufSize_eq. change (length [x4f; x4b]) with 2. lia.
Defined.

(** ** The reverse transform of a relayClient session *)

(** What the relay needs of [socks.SplitAddr]: the address it returns is cut
    from the front of the buffer it was given. *)
Definition splits_front `{Extern} : Prop :=
  ∀ b a : list byte, socks_SplitAddr b = Some a → a `prefix_of` b.

Lemma Scenario_splits_front : splits_front (H := Scenario.env).
Proof.
  intros b a. simpl. unfold Scenario.SplitAddr.
  destruct b as [|atyp rest]; [done|].
  destruct (if decide (atyp = x03) then _ else _) as [k|]; [|done].
  case_decide; [done|]. intros [= <-]. apply prefix_take.
Qed.

(** A relayClient session writes back the datagram read without its first
    len(srcAddr) bytes, [srcAddr] being what [socks.SplitAddr] makes of the
    datagram (nil, of length 0, when it makes nothing of it). *)
Lemma relayClient_iter_written `{Extern} (dst src : PacketConn) (udpTarget : net_Addr)
    (timeout : Z) (buf : list byte) (re : relay_io) (d : list byte) (A : net_Addr) :
  r_read re = inr (d, A) →
  let n := length d `min` length buf in
  let srcAddr := socks_SplitAddr (take n d) in
  len srcAddr ≤ n →
  ∃ buf',
    timedCopy_iter dst udpTarget src timeout relayClient buf re =
      Ret (buf',
           [SetReadDeadline src (now re + timeout); ReadFrom src;
            WriteTo dst (drop (len srcAddr) (take n d)) udpTarget],
           r_write re).
Proof.
  intros Hrd n srcAddr Hlen.
  unfold timedCopy_iter. rewrite Hrd.
  destruct (recv buf 0 d) as [n' buf'] eqn:Hrecv.
  assert (n' = n) as -> by (unfold recv in Hrecv; injection Hrecv; intros; subst; lia).
  rewrite (slice_recv _ _ _ _ _ Hrecv) by lia. cbn [run_bind after].
  rewrite drop_0. fold srcAddr.
  rewrite (slice_recv _ _ _ _ _ Hrecv) by done. cbn [run_bind after].
  by eauto.
Qed.

(** C5. A relayClient session that reads a datagram beginning with a
    decodable wire address writes back the datagram without that address:
    the datagram is the address followed by what is written, and nothing
    else is written. [take n d] is the datagram as read; [splits_front] is
    what is assumed of the codec. *)
Theorem relayClient_strips_address `{Extern} (dst src : PacketConn) (udpTarget : net_Addr)
    (timeout : Z) (buf : list byte) (re : relay_io) (d : list byte) (A : net_Addr)
    (a : list byte) :
  splits_front →
  r_read re = inr (d, A) →
  let n := length d `min` length buf in
  socks_SplitAddr (take n d) = Some a →
  ∃ buf' payload,
    take n d = a ++ payload
    ∧ timedCopy_iter dst udpTarget src timeout relayClient buf re =
        Ret (buf',
             [SetReadDeadline src (now re + timeout); ReadFrom src;
              WriteTo dst payload udpTarget],
             r_write re).
Proof.
  intros Hfront Hrd n Hsplit.
  destruct (Hfront _ _ Hsplit) as [payload Hd].
  assert (length a ≤ n) as Hlen.
  { assert (length (take n d) ≤ n) by (rewrite length_take; lia).
    rewrite Hd, length_app in *. lia. }
  destruct (relayClient_iter_written dst src udpTarget timeout buf re d A Hrd)
    as [buf' Hiter].
  { fold n. by rewrite Hsplit. }
  fold n in Hiter. rewrite Hsplit in Hiter. simpl in Hiter.
  exists buf', payload. split; [done|].
  rewrite Hiter. by rewrite Hd, drop_app_length.
Qed.

(** The server's answer to scenario 1 comes back to the transparent client:
    encode(93.184.216.34:80) ‖ "OK" is delivered as "OK". *)
Lemma relayClient_strips_address_witness :
  let re := {| now := 0; r_read := inr (Scenario.wire_target ++ [x4f; x4b], Scenario.server);
               r_write := None |} in
  ∃ buf' payload,
    take (9 `min` length make_buf) (Scenario.wire_target ++ [x4f; x4b])
      = Scenario.wire_target ++ payload
    ∧ timedCopy_iter (H := Scenario.env) 1 Scenario.client 1002 60 relayClient make_buf re =
        Ret (buf',
             [SetReadDeadline 1002 60; ReadFrom 1002; WriteTo 1 payload Scenario.client],
             None).
Proof.
  intros re.
  apply (relayClient_strips_address (H := Scenario.env) 1 1002 Scenario.client 60
           make_buf re (Scenario.wire_target ++ [x4f; x4b]) Scenario.server
           Scenario.wire_target Scenario_splits_front).
  - reflexivity.
  - rewrite length_make_buf, udpBufSize_eq.
    change (length (Scenario.wire_target ++ [x4f; x4b])) with 9.
    rewrite Nat.min_l by lia. reflexivity.
Defined.

(** ** The address adapter *)

(** C8. [udpAddrToNetip] fails, with the zero AddrPort, on an address that
    is not a [*net.UDPAddr], on one whose IP does not parse and on one whose
    parsed IP is not valid; on any other UDP address it returns the parsed IP
    with the port as a uint16 (the port itself when it is one). Failure and
    the zero AddrPort go together, and success happens for well-formed UDP
    addresses only. The function only computes its result. *)
Theorem udpAddrToNetip_classifies `{Extern} (addr : net_Addr) :
  (∀ network text, addr = OtherAddr network text →
     udpAddrToNetip addr = (AddrPort_zero, Some "not a UDPAddr"))
  ∧ (∀ IP Port Zone err, addr = UDPAddr IP Port Zone →
       netip_ParseAddr (IP_String IP) = inl err →
       udpAddrToNetip addr = (AddrPort_zero, Some ("invalid IP: " +:+ err)))
  ∧ (∀ IP Port Zone ip, addr = UDPAddr IP Port Zone →
       netip_ParseAddr (IP_String IP) = inr ip → IsValid ip = false →
       udpAddrToNetip addr = (AddrPort_zero, Some ("invalid IP: " +:+ IP_String IP)))
  ∧ (∀ IP Port Zone ip, addr = UDPAddr IP Port Zone →
       netip_ParseAddr (IP_String IP) = inr ip → IsValid ip = true →
       udpAddrToNetip addr = (AddrPortFrom ip (uint16 Port), None)
       ∧ ((0 ≤ Port < 65536)%Z → uint16 Port = Port))
  ∧ (∀ ap err, udpAddrToNetip addr = (ap, Some err) → ap = AddrPort_zero)
  ∧ (∀ ap, udpAddrToNetip addr = (ap, None) →
       IsValid (AddrPort_Addr ap) = true
       ∧ ∃ IP Port Zone, addr = UDPAddr IP Port Zone
           ∧ netip_ParseAddr (IP_String IP) = inr (AddrPort_Addr ap)
           ∧ AddrPort_Port ap = uint16 Port).
Proof.
  split_and!.
  - by intros ?? ->.
  - intros IP Port Zone err -> Hp. simpl. by rewrite Hp.
  - intros IP Port Zone ip -> Hp Hv. simpl. by rewrite Hp, Hv.
  - intros IP Port Zone ip -> Hp Hv. simpl. rewrite Hp, Hv. split; [done|].
    intros. unfold uint16. by rewrite Z.mod_small.
  - intros ap err. unfold udpAddrToNetip. destruct addr as [IP Port Zone|]; [|congruence].
    destruct (netip_ParseAddr (IP_String IP)) as [?|ip]; [congruence|].
    destruct (IsValid ip); simpl; congruence.
  - intros ap. unfold udpAddrToNetip. destruct addr as [IP Port Zone|]; [|done].
    destruct (netip_ParseAddr (IP_String IP)) as [?|ip] eqn:Hp; [done|].
    destruct (IsValid ip) eqn:Hv; simpl; [|done].
    intros [= <-]. split; [done|]. by eauto 10.
Qed.

(** 127.0.0.1:40000 has the key (127.0.0.1, 40000); a Unix address and a
    UDP address without IP have none. *)
Example udpAddrToNetip_scenario :
  udpAddrToNetip (H := Scenario.env) Scenario.client = (Scenario.client_key, None)
  ∧ udpAddrToNetip (H := Scenario.env) (OtherAddr "unix" "/tmp/sock")
    = (AddrPort_zero, Some "not a UDPAddr")
  ∧ udpAddrToNetip (H := Scenario.env) (UDPAddr [] 53 "")
    = (AddrPort_zero, Some "invalid IP: unable to parse IP").
Proof. by vm_compute. Qed.

(** ** Server mode: malformed datagrams *)

(** Two states of an ingress that differ at most in what their buffers
    hold. *)
Definition same_table (st1 st2 : ingress) : Prop :=
  i_nm st1 = i_nm st2 ∧ length (i_buf st1) = length (i_buf st2).

Definition same_served (r1 r2 : served) : Prop :=
  match r1, r2 with
  | Serving st1, Serving st2 => same_table st1 st2
  | Exited, Exited => True
  | Died msg1, Died msg2 => msg1 = msg2
  | _, _ => False
  end.

Lemma slice_recv_any (buf d : list byte) lo n buf' :
  recv buf 0 d = (n, buf') →
  slice buf' lo n =
    if decide (lo ≤ n) then Ret (drop lo (take n d))
    else Panic [] "slice bounds out of range".
Proof.
  intros Hrecv. case_decide.
  - by apply (slice_recv buf).
  - unfold slice, bounds. by rewrite decide_False by lia.
Qed.

(** What a body does with a datagram does not depend on what the buffer
    held before the read. *)
Definition buffer_blind (body : ingress → ingress_io → run (ingress * list effect)) : Prop :=
  ∀ st1 st2 e, same_table st1 st2 →
    match body st1 e, body st2 e with
    | Ret (st1', effs1), Ret (st2', effs2) => effs1 = effs2 ∧ same_table st1' st2'
    | Panic effs1 msg1, Panic effs2 msg2 => effs1 = effs2 ∧ msg1 = msg2
    | _, _ => False
    end.

Lemma serve_buffer_blind body :
  buffer_blind body →
  ∀ script st1 st2, same_table st1 st2 →
    (serve body st1 script).1 = (serve body st2 script).1
    ∧ same_served (serve body st1 script).2 (serve body st2 script).2.
Proof.
  intros Hblind. induction script as [|e script IH]; intros st1 st2 Hsame; simpl.
  - done.
  - specialize (Hblind st1 st2 e Hsame).
    destruct (body st1 e) as [[st1' effs1]|effs1 msg1],
             (body st2 e) as [[st2' effs2]|effs2 msg2];
      try done; try (by destruct Hblind; subst).
    destruct Hblind as [-> Hsame'].
    destruct (IH st1' st2' Hsame') as [Heffs Hserved].
    destruct (serve body st1' script) as [effs1' r1], (serve body st2' script) as [effs2' r2].
    simpl in *. by subst.
Qed.

Section udpRemote.
Context `{Extern}.
Variable (pc : PacketConn).

Lemma udpRemote_iter_buffer_blind : buffer_blind (udpRemote_iter pc).
Proof.
  intros st1 st2 e [Hnm Hlen]. unfold udpRemote_iter.
  destruct (i_read e) as [err|[d addr]]; [done|].
  pose proof (length_recv (i_buf st1) 0 d) as Hlen1.
  pose proof (length_recv (i_buf st2) 0 d) as Hlen2.
  destruct (recv (i_buf st1) 0 d) as [n1 buf1] eqn:Hrecv1.
  destruct (recv (i_buf st2) 0 d) as [n2 buf2] eqn:Hrecv2.
  assert (n2 = n1) as ->
    by (unfold recv in Hrecv1, Hrecv2; injection Hrecv1; injection Hrecv2; intros; subst; lia).
  simpl in Hlen1, Hlen2. cbn [i_nm i_buf]. rewrite <- Hnm.
  assert (∀ nm, same_table {| i_nm := nm; i_buf := buf1 |} {| i_nm := nm; i_buf := buf2 |})
    as Hsame by (intros; split; simpl; congruence).
  destruct (udpAddrToNetip addr) as [raddr [err|]]; [done|].
  rewrite (slice_recv _ _ _ _ _ Hrecv1), (slice_recv _ _ _ _ _ Hrecv2) by lia.
  cbn [run_bind after].
  destruct (socks_SplitAddr _) as [tgtAddr|]; [|done].
  destruct (i_resolve e) as [err|tgtUDPAddr]; [done|].
  rewrite (slice_recv_any _ _ _ _ _ Hrecv1), (slice_recv_any _ _ _ _ _ Hrecv2).
  case_decide; [|done]. cbn [run_bind after].
  destruct (natmap_Get raddr (i_nm st1)) as [pc'|]; [done|].
  destruct (i_listen e) as [err|pc']; done.
Qed.

(** A datagram from which no wire address can be split changes neither the
    table nor anything outside, but for the read and one log line. *)
Lemma udpRemote_iter_malformed (st : ingress) (e : ingress_io) d addr :
  i_read e = inr (d, addr) →
  socks_SplitAddr (take (length d `min` length (i_buf st)) d) = None →
  ∃ st' effs,
    udpRemote_iter pc st e = Ret (st', effs)
    ∧ same_table st st'
    ∧ (effs = [ReadFrom pc; logf "Address conversion failed: %v"]
       ∨ effs = [ReadFrom pc; logf "failed to split target address from packet: %q"]).
Proof.
  intros Hrd Hsplit. unfold udpRemote_iter. rewrite Hrd.
  pose proof (length_recv (i_buf st) 0 d) as Hlen.
  destruct (recv (i_buf st) 0 d) as [n buf'] eqn:Hrecv.
  assert (n = length d `min` length (i_buf st)) as Hn
    by (unfold recv in Hrecv; injection Hrecv; intros; subst; lia).
  simpl in Hlen. cbn [i_nm i_buf].
  assert (same_table st {| i_nm := i_nm st; i_buf := buf' |}) by (by split).
  destruct (udpAddrToNetip addr) as [raddr [err|]]; [by eauto 10|].
  rewrite (slice_recv _ _ _ _ _ Hrecv) by lia. cbn [run_bind after].
  rewrite drop_0, Hn, Hsplit. by eauto 10.
Qed.

End udpRemote.

(** C7. Server mode: a datagram from which no leading wire address can be
    split is dropped. Its iteration returns normally, writes nothing,
    creates no connection and starts no session (its only calls are the read
    and one log line), and leaves the table as it was; the loop goes on, and
    the datagrams after it are handled exactly as if it had never arrived. *)
Theorem udpRemote_drops_malformed `{Extern} (pc : PacketConn) (st : ingress)
    (e : ingress_io) (rest : list ingress_io) (d : list byte) (addr : net_Addr) :
  i_read e = inr (d, addr) →
  socks_SplitAddr (take (length d `min` length (i_buf st)) d) = None →
  ∃ st' effs,
    udpRemote_iter pc st e = Ret (st', effs)
    ∧ i_nm st' = i_nm st
    ∧ (effs = [ReadFrom pc; logf "Address conversion failed: %v"]
       ∨ effs = [ReadFrom pc; logf "failed to split target address from packet: %q"])
    ∧ (serve (udpRemote_iter pc) st (e :: rest)).1
        = effs ++ (serve (udpRemote_iter pc) st rest).1
    ∧ same_served (serve (udpRemote_iter pc) st rest).2
                  (serve (udpRemote_iter pc) st (e :: rest)).2.
Proof.
  intros Hrd Hsplit.
  destruct (udpRemote_iter_malformed pc st e d addr Hrd Hsplit)
    as (st' & effs & Hiter & Hsame & Heffs).
  exists st', effs. split_and!; [done | by destruct Hsame | done | |].
  all: simpl; rewrite Hiter;
    destruct (serve_buffer_blind _ (udpRemote_iter_buffer_blind pc) rest st st' Hsame)
      as [Heq Hserved];
    destruct (serve (udpRemote_iter pc) st' rest) as [effs' r'];
    destruct (serve (udpRemote_iter pc) st rest) as [effs0 r0]; simpl in *.
  - by subst.
  - done.
Qed.

(** Scenario 4: a datagram of one byte, shorter than any wire address, and
    after it a well-formed one for 93.184.216.34:80. *)
Lemma udpRemote_drops_malformed_witness :
  let st := {| i_nm := newNATmap 60; i_buf := make_buf |} in
  let bad := {| i_read := inr ([x01], Scenario.client); i_listen := inr 2;
                i_write := None; i_resolve := inr Scenario.host |} in
  let good := {| i_read := inr (Scenario.wire_target ++ String.list_byte_of_string "hello",
                                Scenario.client);
                 i_listen := inr 2; i_write := None; i_resolve := inr Scenario.host |} in
  ∃ st' effs,
    udpRemote_iter (H := Scenario.env) 1001 st bad = Ret (st', effs)
    ∧ i_nm st' = i_nm st
    ∧ (effs = [ReadFrom 1001; logf "Address conversion failed: %v"]
       ∨ effs = [ReadFrom 1001; logf "failed to split target address from packet: %q"])
    ∧ (serve (udpRemote_iter (H := Scenario.env) 1001) st (bad :: [good])).1
        = effs ++ (serve (udpRemote_iter (H := Scenario.env) 1001) st [good]).1
    ∧ same_served (serve (udpRemote_iter (H := Scenario.env) 1001) st [good]).2
                  (serve (udpRemote_iter (H := Scenario.env) 1001) st (bad :: [good])).2.
Proof.
  intros st bad good.
  apply (udpRemote_drops_malformed (H := Scenario.env) 1001 st bad [good] [x01]
           Scenario.client).
  - reflexivity.
  - change (length [x01]) with 1. simpl i_buf.
    rewrite length_make_buf, udpBufSize_eq, Nat.min_l by lia. reflexivity.
Defined.

(** The trace of scenario 4: the short datagram is logged and dropped, the
    next one reaches the host. *)
Example udpRemote_scenario :
  let bad := {| i_read := inr ([x01], Scenario.client); i_listen := inr 2;
                i_write := None; i_resolve := inr Scenario.host |} in
  let good := {| i_read := inr (Scenario.wire_target ++ String.list_byte_of_string "hello",
                                Scenario.client);
                 i_listen := inr 2; i_write := None; i_resolve := inr Scenario.host |} in
  (udpRemote (H := Scenario.env) ":8488" 60
     {| b_server := inl ""; b_laddr := inr Scenario.server; b_listen := inr 1 |}
     [bad; good]).1
  = [logf "listening UDP on %s";
     ReadFrom 1001; logf "failed to split target address from packet: %q";
     ReadFrom 1001; ListenPacket (inr 2);
     go {| s_dst := 2; s_peer := Scenario.client_key; s_src := 2;
           s_timeout := 60; s_role := remoteServer |};
     WriteTo 2 (String.list_byte_of_string "hello") Scenario.host].
Proof. vm_compute. reflexivity. Qed.

(** ** Sessions: lookup, creation and reuse *)

(** The calls of [net.ListenPacket] in a trace with their results, the
    connections they created, the goroutines started and the connections
    closed. *)
Definition listens (effs : list effect) : list (error + PacketConn) :=
  omap (λ eff, match eff with ListenPacket r => Some r | _ => None end) effs.
Definition created (effs : list effect) : list PacketConn :=
  omap (λ eff, match eff with ListenPacket (inr pc) => Some pc | _ => None end) effs.
Definition started (effs : list effect) : list session :=
  omap (λ eff, match eff with go s => Some s | _ => None end) effs.
Definition closed (effs : list effect) : list PacketConn :=
  omap (λ eff, match eff with Close pc => Some pc | _ => None end) effs.

(** The number of entries the table holds for a peer. *)
Definition entries_for (key : netip_AddrPort) (nm : natmap) : nat :=
  length (filter (λ kv, kv.1 = key) (map_to_list (m nm))).

(** What one iteration of an ingress loop can do about sessions. *)
Inductive lookup_step `{Extern} (wrap dst : PacketConn → PacketConn) (role : mode)
    (st : ingress) (e : ingress_io) (st' : ingress) (effs : list effect) : Prop :=
  | step_drop :
      i_nm st' = i_nm st → listens effs = [] → started effs = [] → writes effs = [] →
      lookup_step wrap dst role st e st' effs
  | step_hit d addr raddr pc data to :
      i_read e = inr (d, addr) → udpAddrToNetip addr = (raddr, None) →
      natmap_Get raddr (i_nm st) = Some pc →
      i_nm st' = i_nm st → listens effs = [] → started effs = [] →
      writes effs = [(pc, data, to)] →
      lookup_step wrap dst role st e st' effs
  | step_refused d addr raddr err :
      i_read e = inr (d, addr) → udpAddrToNetip addr = (raddr, None) →
      natmap_Get raddr (i_nm st) = None → i_listen e = inl err →
      i_nm st' = i_nm st → listens effs = [inl err] → started effs = [] →
      writes effs = [] →
      lookup_step wrap dst role st e st' effs
  | step_create d addr raddr pc0 data to :
      i_read e = inr (d, addr) → udpAddrToNetip addr = (raddr, None) →
      natmap_Get raddr (i_nm st) = None → i_listen e = inr pc0 →
      i_nm st' = natmap_Set raddr (wrap pc0) (i_nm st) →
      listens effs = [inr pc0] →
      started effs = [{| s_dst := dst pc0; s_peer := raddr; s_src := wrap pc0;
                         s_timeout := timeout (i_nm st); s_role := role |}] →
      writes effs = [(wrap pc0, data, to)] →
      lookup_step wrap dst role st e st' effs.

(** The connections created are the successful calls of [net.ListenPacket]. *)
Lemma created_listens effs :
  created effs = omap (λ r, match r with inr pc => Some pc | inl _ => None end) (listens effs).
Proof.
  unfold created, listens. induction effs as [|eff effs IH]; [done|].
  destruct eff as [| [err|pc] | | | | |]; simpl; first [exact IH | f_equal; exact IH].
Qed.

Ltac ingress_cases Hret :=
  repeat (match type of Hret with
          | after _ _ = Ret _ => apply after_Ret in Hret
          | context [run_bind ?x _] => destruct x eqn:?
          | context [match ?x with _ => _ end] => destruct x eqn:?
          end; cbn [run_bind after] in Hret; try discriminate Hret).

Ltac lookup_step_done e :=
  unfold written; destruct (i_write e);
  first [ by eapply step_hit | by eapply step_create
        | by eapply step_refused | by eapply step_drop ].

Section lookup_steps.
Context `{Extern}.

Lemma udpLocal_iter_lookup c srvAddr tgt st e st' effs :
  udpLocal_iter c srvAddr tgt st e = Ret (st', effs) →
  lookup_step shadow (λ _, c) relayClient st e st' effs.
Proof.
  unfold udpLocal_iter, natmap_Add. intros Hret.
  ingress_cases Hret; injection Hret as <- <-; lookup_step_done e.
Qed.

Lemma udpSocksLocal_iter_lookup c srvAddr st e st' effs :
  udpSocksLocal_iter c srvAddr st e = Ret (st', effs) →
  lookup_step shadow (λ _, c) socksClient st e st' effs.
Proof.
  unfold udpSocksLocal_iter, natmap_Add. intros Hret.
  ingress_cases Hret; injection Hret as <- <-; lookup_step_done e.
Qed.

Lemma udpRemote_iter_lookup pc st e st' effs :
  udpRemote_iter pc st e = Ret (st', effs) →
  lookup_step id id remoteServer st e st' effs.
Proof.
  unfold udpRemote_iter, natmap_Add. intros Hret.
  ingress_cases Hret; injection Hret as <- <-; lookup_step_done e.
Qed.

End lookup_steps.

Lemma length_filter_key {V} (key : netip_AddrPort) (l : list (netip_AddrPort * V)) :
  NoDup l.*1 →
  length (filter (λ kv, kv.1 = key) l) = if decide (key ∈ l.*1) then 1 else 0.
Proof.
  induction l as [|[k v] l IH]; intros Hnd; simpl.
  - done.
  - apply NoDup_cons in Hnd as [Hk Hnd]. rewrite filter_cons. simpl.
    specialize (IH Hnd). destruct (decide (k = key)) as [->|Hne].
    + simpl. rewrite IH. rewrite decide_False by done.
      by rewrite decide_True by (apply elem_of_cons; by left).
    + rewrite IH. destruct (decide (key ∈ l.*1)).
      * by rewrite decide_True by (apply elem_of_cons; by right).
      * rewrite decide_False; [done|]. by intros [?|?]%elem_of_cons.
Qed.

Lemma entries_for_lookup key nm :
  entries_for key nm = match natmap_Get key nm with Some _ => 1 | None => 0 end.
Proof.
  unfold entries_for, natmap_Get.
  rewrite length_filter_key by apply NoDup_fst_map_to_list.
  destruct (m nm !! key) as [pc|] eqn:Hget.
  - rewrite decide_True; [done|].
    apply list_elem_of_fmap. exists (key, pc). split; [done|].
    by apply elem_of_map_to_list.
  - rewrite decide_False; [done|].
    intros ([k pc] & -> & Hin%elem_of_map_to_list)%list_elem_of_fmap.
    simpl in Hget. congruence.
Qed.

Lemma natmap_Get_Set key pc nm : natmap_Get key (natmap_Set key pc nm) = Some pc.
Proof. unfold natmap_Get, natmap_Set. simpl. apply lookup_insert_eq. Qed.

Lemma natmap_Get_Set_ne key key' pc nm :
  key ≠ key' → natmap_Get key' (natmap_Set key pc nm) = natmap_Get key' nm.
Proof. intros. unfold natmap_Get, natmap_Set. simpl. by apply lookup_insert_ne. Qed.

(** The three read loops. *)
Definition ingress_body `{Extern}
    (body : ingress → ingress_io → run (ingress * list effect)) : Prop :=
  (∃ c srvAddr tgt, body = udpLocal_iter c srvAddr tgt)
  ∨ (∃ c srvAddr, body = udpSocksLocal_iter c srvAddr)
  ∨ (∃ pc, body = udpRemote_iter pc).

Lemma ingress_body_lookup `{Extern} body st e st' effs :
  ingress_body body → body st e = Ret (st', effs) →
  ∃ wrap dst role, lookup_step wrap dst role st e st' effs.
Proof.
  intros [(c & srvAddr & tgt & ->)|[(c & srvAddr & ->)|(pc & ->)]] Hret.
  - do 3 eexists. by eapply udpLocal_iter_lookup.
  - do 3 eexists. by eapply udpSocksLocal_iter_lookup.
  - do 3 eexists. by eapply udpRemote_iter_lookup.
Qed.

Lemma listens_app effs1 effs2 : listens (effs1 ++ effs2) = listens effs1 ++ listens effs2.
Proof. apply omap_app. Qed.
Lemma created_app effs1 effs2 : created (effs1 ++ effs2) = created effs1 ++ created effs2.
Proof. apply omap_app. Qed.
Lemma started_app effs1 effs2 : started (effs1 ++ effs2) = started effs1 ++ started effs2.
Proof. apply omap_app. Qed.

Section lookup_step_cases.
Context `{Extern}.
Variables (wrap dst : PacketConn → PacketConn) (role : mode).

(** A datagram of a peer that has an entry: nothing is created, the table
    stays, and what is written goes over the entry's connection. *)
Lemma lookup_step_hit_inv st e st' effs d addr raddr pc :
  lookup_step wrap dst role st e st' effs →
  i_read e = inr (d, addr) → udpAddrToNetip addr = (raddr, None) →
  natmap_Get raddr (i_nm st) = Some pc →
  i_nm st' = i_nm st ∧ listens effs = [] ∧ started effs = []
  ∧ ∀ w, w ∈ writes effs → w.1.1 = pc.
Proof.
  intros Hstep Hrd Hconv Hget.
  destruct Hstep as [??? Hw|d' addr' raddr' pc' ?? Hrd' Hconv' Hget' ??? Hw
                     |d' addr' raddr' ? Hrd' Hconv' Hget'
                     |d' addr' raddr' ??? Hrd' Hconv' Hget'].
  - split_and!; [done..|]. rewrite Hw. by intros w ?%elem_of_nil.
  - assert (raddr' = raddr) as -> by congruence.
    assert (pc' = pc) as -> by congruence.
    split_and!; [done..|]. rewrite Hw. by intros w ->%list_elem_of_singleton.
  - assert (raddr' = raddr) as -> by congruence. congruence.
  - assert (raddr' = raddr) as -> by congruence. congruence.
Qed.

(** A datagram of a peer that has none: either nothing is written, no
    session is started and the table stays, or one connection is created,
    one session started, the entry installed and the datagram written over
    the new connection. *)
Lemma lookup_step_miss_inv st e st' effs d addr raddr :
  lookup_step wrap dst role st e st' effs →
  i_read e = inr (d, addr) → udpAddrToNetip addr = (raddr, None) →
  natmap_Get raddr (i_nm st) = None →
  (i_nm st' = i_nm st ∧ created effs = [] ∧ started effs = [] ∧ writes effs = [])
  ∨ (∃ pc0 conn, created effs = [pc0] ∧ length (started effs) = 1
       ∧ natmap_Get raddr (i_nm st') = Some conn
       ∧ ∀ w, w ∈ writes effs → w.1.1 = conn).
Proof.
  intros Hstep Hrd Hconv Hget.
  destruct Hstep as [? Hl Hs Hw|d' addr' raddr' pc' ?? Hrd' Hconv' Hget' ??? Hw
                     |d' addr' raddr' ? Hrd' Hconv' Hget' ?? Hl Hs Hw
                     |d' addr' raddr' pc0 ?? Hrd' Hconv' Hget' ? Hnm Hl Hs Hw].
  - left. by rewrite created_listens, Hl.
  - assert (raddr' = raddr) as -> by congruence. congruence.
  - left. by rewrite created_listens, Hl.
  - assert (raddr' = raddr) as -> by congruence.
    right. exists pc0, (wrap pc0). split_and!.
    + by rewrite created_listens, Hl.
    + by rewrite Hs.
    + rewrite Hnm. apply natmap_Get_Set.
    + rewrite Hw. by intros w ->%list_elem_of_singleton.
Qed.

(** A datagram that is forwarded, by what the lookup finds: over the entry
    when there is one; when there is none, over a connection created, which
    is installed and given a session; not at all when none could be
    created. *)
Lemma lookup_step_forwarded st e st' effs d addr raddr data to :
  lookup_step wrap dst role st e st' effs →
  i_read e = inr (d, addr) → udpAddrToNetip addr = (raddr, None) →
  writes effs = forwarded wrap st e addr data to →
  match natmap_Get raddr (i_nm st), i_listen e with
  | Some pc, _ =>
      i_nm st' = i_nm st ∧ created effs = [] ∧ started effs = []
      ∧ writes effs = [(pc, data, to)]
  | None, inr pc0 =>
      i_nm st' = natmap_Set raddr (wrap pc0) (i_nm st) ∧ created effs = [pc0]
      ∧ started effs = [{| s_dst := dst pc0; s_peer := raddr; s_src := wrap pc0;
                           s_timeout := timeout (i_nm st); s_role := role |}]
      ∧ writes effs = [(wrap pc0, data, to)]
  | None, inl _ =>
      i_nm st' = i_nm st ∧ created effs = [] ∧ started effs = [] ∧ writes effs = []
  end.
Proof.
  intros Hstep Hrd Hconv. unfold forwarded, session_conn. rewrite Hconv.
  rewrite (created_listens effs).
  destruct Hstep as [? Hl Hs Hw|d' addr' raddr' pc' ?? Hrd' Hconv' Hget' ? Hl Hs Hw
                     |d' addr' raddr' ? Hrd' Hconv' Hget' Hli ? Hl Hs Hw
                     |d' addr' raddr' pc0 ?? Hrd' Hconv' Hget' Hli Hnm Hl Hs Hw].
  - rewrite Hw, Hl. destruct (natmap_Get raddr (i_nm st)); [done|].
    by destruct (i_listen e).
  - assert (raddr' = raddr) as -> by congruence.
    rewrite Hget', Hl. by intros <-.
  - assert (raddr' = raddr) as -> by congruence.
    rewrite Hget', Hli, Hl. by intros <-.
  - assert (raddr' = raddr) as -> by congruence.
    rewrite Hget', Hli, Hl, Hs. by intros <-.
Qed.

End lookup_step_cases.

(** What an iteration of [udpRemote] forwards, and that the buffer keeps its
    length. *)
Lemma udpRemote_iter_forwards `{Extern} pc st e d addr a t :
  i_read e = inr (d, addr) →
  let n := length d `min` length (i_buf st) in
  socks_SplitAddr (take n d) = Some a → length a ≤ n →
  i_resolve e = inr t →
  ∃ st' effs,
    udpRemote_iter pc st e = Ret (st', effs)
    ∧ writes effs = forwarded id st e addr (drop (length a) (take n d)) t.
Proof.
  intros Hrd n Hsplit Hlen Hres. unfold udpRemote_iter, forwarded, session_conn.
  rewrite Hrd.
  destruct (recv (i_buf st) 0 d) as [n' buf'] eqn:Hrecv.
  assert (n' = n) as -> by (unfold recv in Hrecv; injection Hrecv; intros; subst; lia).
  cbn [i_nm i_buf].
  destruct (udpAddrToNetip addr) as [raddr [err|]]; [by eauto|].
  rewrite (slice_recv _ _ _ _ _ Hrecv) by lia. cbn [run_bind after].
  rewrite drop_0, Hsplit, Hres.
  rewrite (slice_recv _ _ _ _ _ Hrecv) by done. cbn [run_bind after].
  destruct (natmap_Get raddr (i_nm st)) as [pc'|].
  - eexists _, _. split; [done|]. unfold written. by destruct (i_write e).
  - destruct (i_listen e) as [err|pc']; [by eauto|].
    unfold natmap_Add. eexists _, _. split; [done|].
    unfold written. by destruct (i_write e).
Qed.

Lemma udpRemote_iter_length `{Extern} pc st e st' effs :
  udpRemote_iter pc st e = Ret (st', effs) → length (i_buf st') = length (i_buf st).
Proof.
  unfold udpRemote_iter, natmap_Add. intros Hret.
  destruct (i_read e) as [err|[d addr]]; [by injection Hret as <- _|].
  pose proof (length_recv (i_buf st) 0 d) as Hlen.
  destruct (recv (i_buf st) 0 d) as [n buf]. simpl in Hlen.
  ingress_cases Hret; by injection Hret as <- _.
Qed.

(** ** The three read loops side by side *)

(** The read loops, each with what its start-up fixed. *)
Inductive loop :=
  | loop_udpLocal (c : PacketConn) (srvAddr : net_Addr) (tgt : list byte)
  | loop_udpSocksLocal (c : PacketConn) (srvAddr : net_Addr)
  | loop_udpRemote (pc : PacketConn).

Definition loop_body `{Extern} (l : loop)
    : ingress → ingress_io → run (ingress * list effect) :=
  match l with
  | loop_udpLocal c srvAddr tgt => udpLocal_iter c srvAddr tgt
  | loop_udpSocksLocal c srvAddr => udpSocksLocal_iter c srvAddr
  | loop_udpRemote pc => udpRemote_iter pc
  end.

(** What a loop keeps of a connection it created ([shadow(pc)] at the client
    ends, [pc] itself at the server), and the [dst] and [role] it gives to
    [Add]. *)
Definition loop_wrap `{Extern} (l : loop) : PacketConn → PacketConn :=
  match l with
  | loop_udpRemote _ => id
  | _ => shadow
  end.

Definition loop_dst (l : loop) : PacketConn → PacketConn :=
  match l with
  | loop_udpLocal c _ _ | loop_udpSocksLocal c _ => λ _, c
  | loop_udpRemote _ => id
  end.

Definition loop_role (l : loop) : mode :=
  match l with
  | loop_udpLocal _ _ _ => relayClient
  | loop_udpSocksLocal _ _ => socksClient
  | loop_udpRemote _ => remoteServer
  end.

(** The buffer as start-up made it: [udpBufSize] bytes, with the target's
    wire address in front in transparent mode. *)
Definition loop_ready (l : loop) (st : ingress) : Prop :=
  match l with
  | loop_udpLocal _ _ tgt => length tgt ≤ udpBufSize ∧ tgt_in_front tgt st
  | _ => length (i_buf st) = udpBufSize
  end.

(** The datagrams [d] a loop forwards, told from what arrives: any in
    transparent mode; those of three bytes or more in SOCKS5 mode; in server
    mode those from whose front (as far as the buffer takes it) a wire
    address is split, when that address resolves. *)
Definition loop_takes `{Extern} (l : loop) (e : ingress_io) (d : list byte) : Prop :=
  match l with
  | loop_udpLocal _ _ _ => True
  | loop_udpSocksLocal _ _ => 3 ≤ length d
  | loop_udpRemote _ =>
      is_Some (socks_SplitAddr (take (length d `min` udpBufSize) d))
      ∧ ∃ tgtUDPAddr, i_resolve e = inr tgtUDPAddr
  end.

Lemma loop_body_ingress `{Extern} l : ingress_body (loop_body l).
Proof.
  destruct l as [c srvAddr tgt|c srvAddr|pc]; simpl.
  - left. by exists c, srvAddr, tgt.
  - right. left. by exists c, srvAddr.
  - right. right. by exists pc.
Qed.

Lemma loop_body_lookup `{Extern} l st e st' effs :
  loop_body l st e = Ret (st', effs) →
  lookup_step (loop_wrap l) (loop_dst l) (loop_role l) st e st' effs.
Proof.
  destruct l as [c srvAddr tgt|c srvAddr|pc]; simpl.
  - apply udpLocal_iter_lookup.
  - apply udpSocksLocal_iter_lookup.
  - apply udpRemote_iter_lookup.
Qed.

(** A datagram the loop takes is handled without a panic and forwarded, if
    the sender has a canonical address and a connection can be had; the
    buffer stays as start-up made it. *)
Lemma loop_body_forwards `{Extern} l st e d addr :
  splits_front → loop_ready l st → i_read e = inr (d, addr) → loop_takes l e d →
  ∃ st' effs data to,
    loop_body l st e = Ret (st', effs)
    ∧ loop_ready l st'
    ∧ writes effs = forwarded (loop_wrap l) st e addr data to.
Proof.
  intros Hfront Hready Hrd Htakes.
  destruct l as [c srvAddr tgt|c srvAddr|pc]; simpl in *.
  - destruct Hready as [Htgt Hinv].
    destruct (udpLocal_iter_forwards c srvAddr tgt st e d addr Htgt Hinv Hrd)
      as (st' & effs & Hret & Hinv' & Hw).
    by eauto 10.
  - destruct (udpSocksLocal_iter_forwards c srvAddr st e d addr)
      as (st' & effs & Hret & Hlen & Hw);
      [rewrite Hready, udpBufSize_eq; lia | done
      | rewrite Hready, udpBufSize_eq; lia |].
    exists st', effs. do 2 eexists. split_and!; [done | congruence | exact Hw].
  - destruct Htakes as [[a Hsplit] [t Hres]]. rewrite <- Hready in Hsplit.
    assert (length a ≤ length d `min` length (i_buf st)) as Hlen.
    { apply Hfront, prefix_length in Hsplit. rewrite length_take in Hsplit. lia. }
    destruct (udpRemote_iter_forwards pc st e d addr a t Hrd Hsplit Hlen Hres)
      as (st' & effs & Hret & Hw).
    exists st', effs. do 2 eexists. split_and!; [done | | exact Hw].
    by rewrite (udpRemote_iter_length _ _ _ _ _ Hret).
Qed.

(** C9. In each of the three read loops a connection is created and [Add] is
    called only when [Get] finds no entry for the sender; when it finds one,
    that connection is the one written to and the table is left as it was
    (last but one conjunct, for every iteration). So, of two datagrams of one
    peer that the loop takes, handled one after the other with no session
    ending in between, both are handled without a panic and:
    - if the peer has no entry and [net.ListenPacket] succeeds, the first
      creates exactly one connection, installs it and starts exactly one
      session; the second creates nothing and leaves the table as the first
      left it; both are written over that one connection; the table holds no
      entry for the peer before and one after each of the two;
    - if the peer has an entry, nothing is created or started, the table
      does not change and both are written over the entry's connection;
    - if the peer has no entry and [net.ListenPacket] fails, the first
      datagram is dropped: nothing is created, started, installed or
      written.
    No table ever holds more than one entry for a peer. *)
Theorem one_session_per_peer `{Extern} (l : loop) (st : ingress) (e1 e2 : ingress_io)
    (d1 d2 : list byte) (addr1 addr2 : net_Addr) (raddr : netip_AddrPort) :
  splits_front →
  loop_ready l st →
  i_read e1 = inr (d1, addr1) → i_read e2 = inr (d2, addr2) →
  udpAddrToNetip addr1 = (raddr, None) → udpAddrToNetip addr2 = (raddr, None) →
  loop_takes l e1 d1 → loop_takes l e2 d2 →
  ∃ st1 effs1 st2 effs2,
    loop_body l st e1 = Ret (st1, effs1)
    ∧ loop_body l st1 e2 = Ret (st2, effs2)
    ∧ match natmap_Get raddr (i_nm st), i_listen e1 with
      | None, inr pc0 =>
          created (effs1 ++ effs2) = [pc0]
          ∧ started (effs1 ++ effs2)
            = [{| s_dst := loop_dst l pc0; s_peer := raddr; s_src := loop_wrap l pc0;
                  s_timeout := timeout (i_nm st); s_role := loop_role l |}]
          ∧ created effs2 = [] ∧ started effs2 = []
          ∧ i_nm st1 = natmap_Set raddr (loop_wrap l pc0) (i_nm st)
          ∧ i_nm st2 = i_nm st1
          ∧ length (writes effs1) = 1 ∧ length (writes effs2) = 1
          ∧ (∀ w, w ∈ writes (effs1 ++ effs2) → w.1.1 = loop_wrap l pc0)
          ∧ entries_for raddr (i_nm st) = 0
          ∧ entries_for raddr (i_nm st1) = 1
          ∧ entries_for raddr (i_nm st2) = 1
      | Some pc, _ =>
          created (effs1 ++ effs2) = [] ∧ started (effs1 ++ effs2) = []
          ∧ i_nm st1 = i_nm st ∧ i_nm st2 = i_nm st
          ∧ length (writes effs1) = 1 ∧ length (writes effs2) = 1
          ∧ (∀ w, w ∈ writes (effs1 ++ effs2) → w.1.1 = pc)
          ∧ entries_for raddr (i_nm st2) = 1
      | None, inl _ =>
          created effs1 = [] ∧ started effs1 = [] ∧ writes effs1 = []
          ∧ i_nm st1 = i_nm st
      end
    ∧ (∀ st e st' effs,
         loop_body l st e = Ret (st', effs) →
         ((listens effs ≠ [] ∨ started effs ≠ [] ∨ i_nm st' ≠ i_nm st) →
            ∃ d addr raddr,
              i_read e = inr (d, addr) ∧ udpAddrToNetip addr = (raddr, None)
              ∧ natmap_Get raddr (i_nm st) = None)
         ∧ (∀ d addr raddr pc,
              i_read e = inr (d, addr) → udpAddrToNetip addr = (raddr, None) →
              natmap_Get raddr (i_nm st) = Some pc →
              i_nm st' = i_nm st ∧ listens effs = [] ∧ started effs = []
              ∧ ∀ w, w ∈ writes effs → w.1.1 = pc))
    ∧ (∀ nm key, entries_for key nm ≤ 1).
Proof.
  intros Hfront Hready Hrd1 Hrd2 Hconv1 Hconv2 Htakes1 Htakes2.
  destruct (loop_body_forwards l st e1 d1 addr1 Hfront Hready Hrd1 Htakes1)
    as (st1 & effs1 & data1 & to1 & Hret1 & Hready1 & Hw1).
  destruct (loop_body_forwards l st1 e2 d2 addr2 Hfront Hready1 Hrd2 Htakes2)
    as (st2 & effs2 & data2 & to2 & Hret2 & _ & Hw2).
  exists st1, effs1, st2, effs2.
  split; [exact Hret1|]. split; [exact Hret2|]. split_and!.
  - pose proof (lookup_step_forwarded _ _ _ _ _ _ _ _ _ _ _ _
                  (loop_body_lookup _ _ _ _ _ Hret1) Hrd1 Hconv1 Hw1) as H1.
    pose proof (lookup_step_forwarded _ _ _ _ _ _ _ _ _ _ _ _
                  (loop_body_lookup _ _ _ _ _ Hret2) Hrd2 Hconv2 Hw2) as H2.
    rewrite !entries_for_lookup.
    destruct (natmap_Get raddr (i_nm st)) as [pc|] eqn:Hget.
    + destruct H1 as (Hnm1 & Hc1 & Hs1 & Hwr1).
      rewrite Hnm1, Hget in H2. destruct H2 as (Hnm2 & Hc2 & Hs2 & Hwr2).
      rewrite created_app, started_app, writes_app, Hc1, Hc2, Hs1, Hs2, Hwr1, Hwr2.
      rewrite Hnm2, Hnm1, Hget.
      split_and!; try done.
      intros w [->|[->|[]%elem_of_nil]%elem_of_cons]%elem_of_cons; done.
    + destruct (i_listen e1) as [err|pc0].
      * destruct H1 as (Hnm1 & Hc1 & Hs1 & Hwr1). by split_and!.
      * destruct H1 as (Hnm1 & Hc1 & Hs1 & Hwr1).
        rewrite Hnm1, natmap_Get_Set in H2. destruct H2 as (Hnm2 & Hc2 & Hs2 & Hwr2).
        rewrite created_app, started_app, writes_app, Hc1, Hc2, Hs1, Hs2, Hwr1, Hwr2.
        rewrite Hnm2, Hnm1, natmap_Get_Set.
        split_and!; try done.
        intros w [->|[->|[]%elem_of_nil]%elem_of_cons]%elem_of_cons; done.
  - intros st0 e st' effs Hret.
    pose proof (loop_body_lookup _ _ _ _ _ Hret) as Hstep. split.
    + intros Hsome.
      destruct Hstep; [exfalso | exfalso | by eauto 10 | by eauto 10];
        destruct Hsome as [?|[?|?]]; congruence.
    + intros d addr raddr0 pc.
      by apply (lookup_step_hit_inv _ _ _ _ _ _ _ _ _ _ _ Hstep).
  - intros nm key. rewrite entries_for_lookup. destruct (natmap_Get key nm); lia.
Qed.

(** Scenario 2 in each of the three modes: two datagrams from
    127.0.0.1:40000, which has no entry, one after the other. *)
Lemma one_session_per_peer_witness :
  let hello := String.list_byte_of_string "hello" in
  let session l pc0 :=
    {| s_dst := loop_dst l pc0; s_peer := Scenario.client_key;
       s_src := loop_wrap (H := Scenario.env) l pc0;
       s_timeout := 60; s_role := loop_role l |} in
  let one l st e1 e2 :=
    ∃ st1 effs1 st2 effs2,
      loop_body (H := Scenario.env) l st e1 = Ret (st1, effs1)
      ∧ loop_body (H := Scenario.env) l st1 e2 = Ret (st2, effs2)
      ∧ created (effs1 ++ effs2) = [2]
      ∧ started (effs1 ++ effs2) = [session l 2]
      ∧ i_nm st2 = i_nm st1
      ∧ length (writes effs1) = 1 ∧ length (writes effs2) = 1
      ∧ (∀ w, w ∈ writes (effs1 ++ effs2) → w.1.1 = loop_wrap (H := Scenario.env) l 2)
      ∧ entries_for Scenario.client_key (i_nm st) = 0
      ∧ entries_for Scenario.client_key (i_nm st1) = 1
      ∧ entries_for Scenario.client_key (i_nm st2) = 1 in
  let ask d := {| i_read := inr (d, Scenario.client); i_listen := inr 2;
                  i_write := None; i_resolve := inr Scenario.host |} in
  let again d := {| i_read := inr (d, Scenario.client); i_listen := inr 3;
                    i_write := None; i_resolve := inr Scenario.host |} in
  one (loop_udpLocal 1 Scenario.server Scenario.wire_target)
      {| i_nm := newNATmap 60; i_buf := copy_to make_buf 0 Scenario.wire_target |}
      (ask hello) (again hello)
  ∧ one (loop_udpSocksLocal 1 Scenario.server)
        {| i_nm := newNATmap 60; i_buf := make_buf |}
        (ask ([x00; x00; x00] ++ Scenario.wire_example ++ hello))
        (again ([x00; x00; x00] ++ Scenario.wire_example ++ hello))
  ∧ one (loop_udpRemote 1007)
        {| i_nm := newNATmap 60; i_buf := make_buf |}
        (ask (Scenario.wire_target ++ hello)) (again (Scenario.wire_target ++ hello)).
Proof.
  intros hello session one ask again.
  assert (length Scenario.wire_target ≤ udpBufSize) as Htgt
    by (rewrite udpBufSize_eq; change (length Scenario.wire_target) with 7; lia).
  assert (is_Some (socks_SplitAddr (Extern := Scenario.env)
            (take (length (Scenario.wire_target ++ hello) `min` udpBufSize)
                  (Scenario.wire_target ++ hello)))) as Hsplit.
  { rewrite Nat.min_l, take_ge
      by (rewrite ?udpBufSize_eq;
          change (length (Scenario.wire_target ++ hello)) with 12; lia).
    by exists Scenario.wire_target. }
  split_and!.
  - destruct (one_session_per_peer (H := Scenario.env)
                (loop_udpLocal 1 Scenario.server Scenario.wire_target)
                {| i_nm := newNATmap 60; i_buf := copy_to make_buf 0 Scenario.wire_target |}
                (ask hello) (again hello) hello hello Scenario.client Scenario.client
                Scenario.client_key Scenario_splits_front
                (conj Htgt (tgt_in_front_init _ (newNATmap 60) Htgt))
                eq_refl eq_refl eq_refl eq_refl I I)
      as (st1 & effs1 & st2 & effs2 & Hret1 & Hret2 & Hnew & _).
    exists st1, effs1, st2, effs2.
    destruct Hnew as (? & ? & _ & _ & _ & ? & ? & ? & ? & ? & ? & ?).
    split_and!; assumption.
  - assert (3 ≤ length ([x00; x00; x00] ++ Scenario.wire_example ++ hello)) as Hlen
      by (change (length ([x00; x00; x00] ++ Scenario.wire_example ++ hello)) with 23; lia).
    destruct (one_session_per_peer (H := Scenario.env)
                (loop_udpSocksLocal 1 Scenario.server)
                {| i_nm := newNATmap 60; i_buf := make_buf |}
                (ask ([x00; x00; x00] ++ Scenario.wire_example ++ hello))
                (again ([x00; x00; x00] ++ Scenario.wire_example ++ hello))
                _ _ Scenario.client Scenario.client
                Scenario.client_key Scenario_splits_front length_make_buf
                eq_refl eq_refl eq_refl eq_refl Hlen Hlen)
      as (st1 & effs1 & st2 & effs2 & Hret1 & Hret2 & Hnew & _).
    exists st1, effs1, st2, effs2.
    destruct Hnew as (? & ? & _ & _ & _ & ? & ? & ? & ? & ? & ? & ?).
    split_and!; assumption.
  - destruct (one_session_per_peer (H := Scenario.env)
                (loop_udpRemote 1007)
                {| i_nm := newNATmap 60; i_buf := make_buf |}
                (ask (Scenario.wire_target ++ hello))
                (again (Scenario.wire_target ++ hello))
                _ _ Scenario.client Scenario.client
                Scenario.client_key Scenario_splits_front length_make_buf
                eq_refl eq_refl eq_refl eq_refl
                (conj Hsplit (ex_intro _ Scenario.host eq_refl))
                (conj Hsplit (ex_intro _ Scenario.host eq_refl)))
      as (st1 & effs1 & st2 & effs2 & Hret1 & Hret2 & Hnew & _).
    exists st1, effs1, st2, effs2.
    destruct Hnew as (? & ? & _ & _ & _ & ? & ? & ? & ? & ? & ? & ?).
    split_and!; assumption.
Defined.

(** The trace of scenario 2: one connection, one session, two writes over
    it. *)
Example udpLocal_reuse_scenario :
  let e := {| i_read := inr (String.list_byte_of_string "hello", Scenario.client);
              i_listen := inr 2; i_write := None; i_resolve := inl "" |} in
  let b := {| b_server := inr Scenario.server; b_laddr := inr Scenario.client;
              b_listen := inr 1 |} in
  (udpLocal (H := Scenario.env) ":1080" "198.51.100.7:8488" "93.184.216.34:80" 60 b [e; e]).1
  = [logf "UDP tunnel %s <-> %s <-> %s"; ReadFrom 1; ListenPacket (inr 2);
     go {| s_dst := 1; s_peer := Scenario.client_key; s_src := 1002;
           s_timeout := 60; s_role := relayClient |};
     WriteTo 1002 (Scenario.wire_target ++ String.list_byte_of_string "hello")
       Scenario.server;
     ReadFrom 1;
     WriteTo 1002 (Scenario.wire_target ++ String.list_byte_of_string "hello")
       Scenario.server].
Proof. vm_compute. reflexivity. Qed.

(** ** The end of a session *)

(** The deadlines set and the reads made, in order. *)
Definition clock (effs : list effect) : list effect :=
  omap (λ eff, match eff with
               | SetReadDeadline _ _ | ReadFrom _ => Some eff
               | _ => None
               end) effs.

Lemma clock_app effs1 effs2 : clock (effs1 ++ effs2) = clock effs1 ++ clock effs2.
Proof. apply omap_app. Qed.
Lemma closed_app effs1 effs2 : closed (effs1 ++ effs2) = closed effs1 ++ closed effs2.
Proof. apply omap_app. Qed.

Section timedCopy.
Context `{Extern}.
Variables (dst src : PacketConn) (udpTarget : net_Addr) (timeout : Z) (role : mode).

(** One iteration sets the deadline to [timeout] from now, reads once and,
    if the read succeeded, writes once to [dst]; it hands back the error of
    the read, or else the result of the write. *)
Lemma timedCopy_iter_shape buf e buf' effs r :
  timedCopy_iter dst udpTarget src timeout role buf e = Ret (buf', effs, r) →
  ∃ ws,
    effs = SetReadDeadline src (now e + timeout) :: ReadFrom src :: ws
    ∧ ((∃ err, r_read e = inl err ∧ ws = [] ∧ r = Some err ∧ buf' = buf)
       ∨ (∃ d A out, r_read e = inr (d, A) ∧ ws = [WriteTo dst out udpTarget]
                     ∧ r = r_write e)).
Proof.
  unfold timedCopy_iter. intros Hret.
  destruct (r_read e) as [err|[d A]] eqn:Hrd.
  - injection Hret as <- <- <-. by eauto 10.
  - destruct (recv buf 0 d) as [n buf1].
    destruct role; ingress_cases Hret; injection Hret as <- <- <-; by eauto 10.
Qed.

Lemma timedCopy_loop_app buf pre post :
  timedCopy_loop dst udpTarget src timeout role buf (pre ++ post) =
    match timedCopy_loop dst udpTarget src timeout role buf pre with
    | (effs, Running buf') =>
        let '(effs', st) := timedCopy_loop dst udpTarget src timeout role buf' post in
        (effs ++ effs', st)
    | r => r
    end.
Proof.
  revert buf. induction pre as [|e pre IH]; intros buf; simpl.
  - by destruct (timedCopy_loop dst udpTarget src timeout role buf post).
  - destruct (timedCopy_iter dst udpTarget src timeout role buf e)
      as [[[buf1 effs1] [err|]]|effs0 msg]; [done| |done].
    rewrite IH.
    destruct (timedCopy_loop dst udpTarget src timeout role buf1 pre)
      as [effs2 [buf2|err|msg]]; [|done..].
    destruct (timedCopy_loop dst udpTarget src timeout role buf2 post) as [effs3 st].
    by rewrite app_assoc.
Qed.

(** While the loop runs it closes nothing, and before each of its reads it
    has set the deadline of that read. *)
Lemma timedCopy_loop_running script : ∀ buf effs buf',
  timedCopy_loop dst udpTarget src timeout role buf script = (effs, Running buf') →
  closed effs = []
  ∧ clock effs =
      concat (map (λ e, [SetReadDeadline src (now e + timeout); ReadFrom src]) script).
Proof.
  induction script as [|e script IH]; intros buf effs buf'; simpl.
  - by intros [= <- <-].
  - destruct (timedCopy_iter dst udpTarget src timeout role buf e)
      as [[[buf1 effs1] [err|]]|effs0 msg] eqn:Hiter; [done| |done].
    destruct (timedCopy_loop dst udpTarget src timeout role buf1 script)
      as [effs2 st] eqn:Hloop.
    intros [= <- ->].
    destruct (IH _ _ _ Hloop) as [Hclosed Hclock].
    destruct (timedCopy_iter_shape _ _ _ _ _ Hiter) as (ws & -> & Hws).
    rewrite closed_app, clock_app, Hclosed, Hclock.
    by destruct Hws as [(? & ? & -> & ? & ?)|(? & ? & ? & ? & -> & ?)].
Qed.

(** The loop returns at the first iteration that hands back an error,
    whatever the outside would have answered afterwards. *)
Lemma timedCopy_loop_returns buf pre e post effs_pre buf_k buf' effs_e err :
  timedCopy_loop dst udpTarget src timeout role buf pre = (effs_pre, Running buf_k) →
  timedCopy_iter dst udpTarget src timeout role buf_k e = Ret (buf', effs_e, Some err) →
  timedCopy_loop dst udpTarget src timeout role buf (pre ++ e :: post)
    = (effs_pre ++ effs_e, Returned err).
Proof.
  intros Hpre Hiter. rewrite timedCopy_loop_app, Hpre. simpl. by rewrite Hiter.
Qed.

End timedCopy.

Lemma natmap_Del_spec key nm :
  natmap_Get key (natmap_Del key nm).2 = None
  ∧ (natmap_Del key nm).1 = natmap_Get key nm
  ∧ ∀ key', key' ≠ key →
      natmap_Get key' (natmap_Del key nm).2 = natmap_Get key' nm.
Proof.
  unfold natmap_Del, natmap_Get. destruct (m nm !! key) as [pc|] eqn:Hget; simpl.
  - split_and!; [apply lookup_delete_eq | done |].
    intros key' Hne. by apply lookup_delete_ne.
  - done.
Qed.

(** C6 (as the code has it). The relay loop of a session returns, without
    another read or write, at the first error of its own read on the
    outbound connection [src] (a deadline that expired is one) or of its own
    write on the reverse destination [dst]; before every read it has set the
    read deadline to [timeout] from now. The goroutine then deletes the
    peer's entry from the table as it then stands and closes the connection
    the deletion returned, once, or nothing if there was no entry. [dst] is
    the listening socket for relayClient and socksClient sessions and the
    outbound connection itself for remoteServer sessions; an error of the
    ingress loop's write on the outbound connection is not met by this
    loop. *)
Theorem session_ends_on_relay_error `{Extern} (s : session) (pre post : list relay_io)
    (e : relay_io) (nm : natmap) (effs_pre : list effect) (buf_k : list byte)
    (err : error) :
  let udpTarget :=
    UDPAddr (AsSlice (AddrPort_Addr (s_peer s))) (AddrPort_Port (s_peer s)) "" in
  let deadline e := SetReadDeadline (s_src s) (now e + s_timeout s) in
  timedCopy (s_dst s) (s_peer s) (s_src s) (s_timeout s) (s_role s) pre
    = (effs_pre, Running buf_k) →
  (r_read e = inl err
   ∨ (∃ d A, r_read e = inr (d, A)) ∧ r_write e = Some err
     ∧ ¬ panics (timedCopy_iter (s_dst s) udpTarget (s_src s) (s_timeout s) (s_role s)
                   buf_k e)) →
  ∃ ws nm',
    let effs_e := deadline e :: ReadFrom (s_src s) :: ws in
    let closing := match natmap_Get (s_peer s) nm with
                   | Some pc => [pc]
                   | None => []
                   end in
    (ws = [] ∧ r_read e = inl err
     ∨ ∃ out, ws = [WriteTo (s_dst s) out udpTarget] ∧ r_write e = Some err)
    ∧ timedCopy (s_dst s) (s_peer s) (s_src s) (s_timeout s) (s_role s)
        (pre ++ e :: post) = (effs_pre ++ effs_e, Returned err)
    ∧ clock (effs_pre ++ effs_e)
        = concat (map (λ e, [deadline e; ReadFrom (s_src s)]) (pre ++ [e]))
    ∧ session_task s (pre ++ e :: post) nm
        = (effs_pre ++ effs_e ++ map Close closing, nm', Returned err)
    ∧ closed (effs_pre ++ effs_e ++ map Close closing) = closing
    ∧ natmap_Get (s_peer s) nm' = None
    ∧ ∀ key, key ≠ s_peer s → natmap_Get key nm' = natmap_Get key nm.
Proof.
  intros udpTarget deadline Hpre Hfail.
  unfold timedCopy in Hpre. fold udpTarget in Hpre.
  assert (∃ buf' effs_e,
            timedCopy_iter (s_dst s) udpTarget (s_src s) (s_timeout s) (s_role s) buf_k e
              = Ret (buf', effs_e, Some err)) as (buf' & effs_e & Hiter).
  { destruct Hfail as [Hrd|([d [A Hrd]] & Hwr & Hnp)].
    - unfold timedCopy_iter. rewrite Hrd. by eauto.
    - destruct (timedCopy_iter _ _ _ _ _ _ _) as [[[buf' effs_e] r]|effs0 msg] eqn:Hiter;
        [|done].
      destruct (timedCopy_iter_shape _ _ _ _ _ _ _ _ _ _ Hiter)
        as (ws & _ & [(? & ? & _)|(? & ? & ? & _ & _ & ->)]); [congruence|].
      rewrite Hwr. by eauto. }
  destruct (timedCopy_iter_shape _ _ _ _ _ _ _ _ _ _ Hiter) as (ws & -> & Hws).
  destruct (timedCopy_loop_running _ _ _ _ _ _ _ _ _ Hpre) as [Hclosed Hclock].
  pose proof (timedCopy_loop_returns _ _ _ _ _ _ _ e post _ _ _ _ _ Hpre Hiter) as Hloop.
  destruct (natmap_Del_spec (s_peer s) nm) as (Hgone & Hdel & Hothers).
  exists ws, (natmap_Del (s_peer s) nm).2. cbv zeta.
  assert (closed ws = []) as Hws_closed
    by (by destruct Hws as [(? & ? & -> & ?)|(? & ? & ? & ? & -> & ?)]).
  split_and!.
  - destruct Hws as [(err' & Hrd & -> & [= ->] & _)|(d & A & out & Hrd & -> & Hr)].
    + by left.
    + right. by eauto.
  - done.
  - rewrite clock_app, Hclock, map_app, concat_app. f_equal. simpl.
    by destruct Hws as [(? & ? & -> & ?)|(? & ? & ? & ? & -> & ?)].
  - unfold session_task, timedCopy. fold udpTarget. rewrite Hloop.
    destruct (natmap_Del (s_peer s) nm) as [[pc|] nm'] eqn:HDel; simpl in *;
      rewrite <- Hdel; simpl; [by rewrite <- !app_assoc|].
    by rewrite app_nil_r.
  - rewrite !closed_app, Hclosed. simpl. rewrite Hws_closed. simpl.
    destruct (natmap_Get (s_peer s) nm); done.
  - done.
  - done.
Qed.

(** The server's answer encode(93.184.216.34:80) ‖ "OK", read by the
    relayClient session of the scenarios in its first iteration. *)
Lemma relayClient_scenario_answer (timeout t : Z) :
  ∃ buf',
    timedCopy_iter (H := Scenario.env) 1 Scenario.client 1002 timeout relayClient make_buf
      {| now := t;
         r_read := inr (Scenario.wire_target ++ [x4f; x4b], Scenario.server);
         r_write := None |}
    = Ret (buf',
           [SetReadDeadline 1002 (t + timeout); ReadFrom 1002;
            WriteTo 1 [x4f; x4b] Scenario.client],
           None).
Proof.
  destruct (relayClient_iter_written (H := Scenario.env) 1 1002 Scenario.client timeout
              make_buf
              {| now := t;
                 r_read := inr (Scenario.wire_target ++ [x4f; x4b], Scenario.server);
                 r_write := None |}
              (Scenario.wire_target ++ [x4f; x4b]) Scenario.server eq_refl)
    as [buf' Hiter].
  - rewrite length_make_buf, udpBufSize_eq.
    change (length (Scenario.wire_target ++ [x4f; x4b])) with 9.
    rewrite Nat.min_l by lia. vm_compute. lia.
  - exists buf'. rewrite Hiter.
    rewrite length_make_buf, udpBufSize_eq.
    change (length (Scenario.wire_target ++ [x4f; x4b])) with 9.
    rewrite Nat.min_l by lia. reflexivity.
Qed.

(** A relayClient session relays one answer; then its read deadline expires
    while the table still holds its entry. *)
Lemma session_ends_on_relay_error_witness :
  let s := {| s_dst := 1; s_peer := Scenario.client_key; s_src := 1002;
              s_timeout := 60; s_role := relayClient |} in
  let ok := {| now := 5;
               r_read := inr (Scenario.wire_target ++ [x4f; x4b], Scenario.server);
               r_write := None |} in
  let late := {| now := 70; r_read := inl "i/o timeout"; r_write := None |} in
  let nm := natmap_Set Scenario.client_key 1002 (newNATmap 60) in
  ∃ effs_pre ws nm',
    (ws = [] ∧ r_read late = inl "i/o timeout"
     ∨ ∃ out, ws = [WriteTo 1 out Scenario.client] ∧ r_write late = Some "i/o timeout")
    ∧ timedCopy (H := Scenario.env) 1 Scenario.client_key 1002 60 relayClient
        ([ok] ++ late :: [ok])
      = (effs_pre ++ SetReadDeadline 1002 130 :: ReadFrom 1002 :: ws,
         Returned "i/o timeout")
    ∧ clock (effs_pre ++ SetReadDeadline 1002 130 :: ReadFrom 1002 :: ws)
      = [SetReadDeadline 1002 65; ReadFrom 1002; SetReadDeadline 1002 130; ReadFrom 1002]
    ∧ session_task (H := Scenario.env) s ([ok] ++ late :: [ok]) nm
      = (effs_pre ++ (SetReadDeadline 1002 130 :: ReadFrom 1002 :: ws) ++ [Close 1002],
         nm', Returned "i/o timeout")
    ∧ closed (effs_pre ++ (SetReadDeadline 1002 130 :: ReadFrom 1002 :: ws) ++ [Close 1002])
      = [1002]
    ∧ natmap_Get Scenario.client_key nm' = None
    ∧ ∀ key, key ≠ Scenario.client_key → natmap_Get key nm' = natmap_Get key nm.
Proof.
  intros s ok late nm.
  destruct (relayClient_scenario_answer 60 5) as (buf1 & Hiter). fold ok in Hiter.
  assert (timedCopy (H := Scenario.env) 1 Scenario.client_key 1002 60 relayClient [ok]
          = ([SetReadDeadline 1002 65; ReadFrom 1002; WriteTo 1 [x4f; x4b] Scenario.client],
             Running buf1)) as Hpre.
  { unfold timedCopy, timedCopy_loop.
    change (UDPAddr (AsSlice (AddrPort_Addr Scenario.client_key))
              (AddrPort_Port Scenario.client_key) "") with Scenario.client.
    rewrite Hiter. reflexivity. }
  destruct (session_ends_on_relay_error (H := Scenario.env) s [ok] [ok] late nm _ buf1
              "i/o timeout" Hpre (or_introl eq_refl))
    as (ws & nm' & Hrest).
  eexists _, ws, nm'. exact Hrest.
Defined.

(** A datagram of a peer that has a session: its iteration in full. *)
Lemma udpLocal_iter_hit `{Extern} (c : PacketConn) (srvAddr : net_Addr) (tgt : list byte)
    (st : ingress) (e : ingress_io) d addr raddr pc :
  length tgt ≤ udpBufSize → tgt_in_front tgt st →
  i_read e = inr (d, addr) → udpAddrToNetip addr = (raddr, None) →
  natmap_Get raddr (i_nm st) = Some pc →
  udpLocal_iter c srvAddr tgt st e =
    Ret ({| i_nm := i_nm st; i_buf := copy_to (i_buf st) (length tgt) d |},
         ReadFrom c ::
         written pc (tgt ++ take (length d `min` (udpBufSize - length tgt)) d) srvAddr e
           "UDP local write error: %v").
Proof.
  intros Htgt [Hlen Hfront] Hrd Hconv Hget.
  unfold udpLocal_iter. rewrite bounds_ok by lia. cbn [run_bind after].
  rewrite Hrd. unfold recv. rewrite Hconv, Hget.
  rewrite slice_prefix by (rewrite length_copy_to; lia).
  rewrite take_copy_to by lia. by rewrite Hfront, Hlen.
Qed.

(** C6, as stated, fails: a write error on the outbound connection of a
    session does not end it. The transparent ingress writes a client's
    datagram to the outbound connection 1002 of the client's session and the
    write fails; the ingress logs the error and goes on, the table keeps the
    entry and nothing is closed; and the relay loop of that session, whose
    own read and write succeed, relays the next answer and is still
    running. *)
Lemma outbound_write_error_keeps_session :
  let st := {| i_nm := natmap_Set Scenario.client_key 1002 (newNATmap 60);
               i_buf := copy_to make_buf 0 Scenario.wire_target |} in
  let e := {| i_read := inr (String.list_byte_of_string "hello", Scenario.client);
              i_listen := inr 2; i_write := Some "sendto: network is unreachable";
              i_resolve := inl "" |} in
  let answer := {| now := 5;
                   r_read := inr (Scenario.wire_target ++ [x4f; x4b], Scenario.server);
                   r_write := None |} in
  ∃ st' buf',
    udpLocal_iter (H := Scenario.env) 1 Scenario.server Scenario.wire_target st e
      = Ret (st',
             [ReadFrom 1;
              WriteTo 1002 (Scenario.wire_target ++ String.list_byte_of_string "hello")
                Scenario.server;
              logf "UDP local write error: %v"])
    ∧ natmap_Get Scenario.client_key (i_nm st') = Some 1002
    ∧ timedCopy (H := Scenario.env) 1 Scenario.client_key 1002 60 relayClient [answer]
      = ([SetReadDeadline 1002 65; ReadFrom 1002; WriteTo 1 [x4f; x4b] Scenario.client],
         Running buf').
Proof.
  intros st e answer.
  assert (length Scenario.wire_target ≤ udpBufSize) as Htgt
    by (rewrite udpBufSize_eq; change (length Scenario.wire_target) with 7; lia).
  assert (tgt_in_front Scenario.wire_target st) as Hinv
    by apply (tgt_in_front_init Scenario.wire_target _ Htgt).
  destruct (relayClient_scenario_answer 60 5) as (buf' & Hiter). fold answer in Hiter.
  eexists _, buf'. split_and!.
  - rewrite (udpLocal_iter_hit (H := Scenario.env) 1 Scenario.server Scenario.wire_target
               st e (String.list_byte_of_string "hello") Scenario.client
               Scenario.client_key 1002 Htgt Hinv eq_refl eq_refl)
      by apply natmap_Get_Set.
    change (length (String.list_byte_of_string "hello")) with 5.
    change (length Scenario.wire_target) with 7.
    rewrite udpBufSize_eq, Nat.min_l by lia. reflexivity.
  - apply natmap_Get_Set.
  - unfold timedCopy, timedCopy_loop.
    change (UDPAddr (AsSlice (AddrPort_Addr Scenario.client_key))
              (AddrPort_Port Scenario.client_key) "") with Scenario.client.
    rewrite Hiter. reflexivity.
Qed.

(** ** Two more facts about the transforms *)

(** X3. A relayClient session that reads a datagram of which
    [socks.SplitAddr] makes nothing takes the address to be nil, of length
    0, and writes back the whole datagram as read. *)
Theorem relayClient_undecodable_forwards_all `{Extern} (dst src : PacketConn)
    (udpTarget : net_Addr) (timeout : Z) (buf : list byte) (re : relay_io)
    (d : list byte) (A : net_Addr) :
  r_read re = inr (d, A) →
  let n := length d `min` length buf in
  socks_SplitAddr (take n d) = None →
  ∃ buf',
    timedCopy_iter dst udpTarget src timeout relayClient buf re =
      Ret (buf',
           [SetReadDeadline src (now re + timeout); ReadFrom src;
            WriteTo dst (take n d) udpTarget],
           r_write re).
Proof.
  intros Hrd n Hsplit.
  destruct (relayClient_iter_written dst src udpTarget timeout buf re d A Hrd)
    as [buf' Hiter].
  { fold n. rewrite Hsplit. simpl. lia. }
  fold n in Hiter. rewrite Hsplit in Hiter. simpl in Hiter.
  by exists buf'.
Qed.

(** A datagram of type 9, which is no address type. *)
Lemma relayClient_undecodable_forwards_all_witness :
  let re := {| now := 0; r_read := inr ([x09; x4f; x4b], Scenario.server);
               r_write := None |} in
  ∃ buf',
    timedCopy_iter (H := Scenario.env) 1 Scenario.client 1002 60 relayClient make_buf re =
      Ret (buf',
           [SetReadDeadline 1002 60; ReadFrom 1002;
            WriteTo 1 (take (3 `min` length make_buf) [x09; x4f; x4b]) Scenario.client],
           None).
Proof.
  intros re.
  apply (relayClient_undecodable_forwards_all (H := Scenario.env) 1 1002 Scenario.client
           60 make_buf re [x09; x4f; x4b] Scenario.server).
  - reflexivity.
  - rewrite length_make_buf, udpBufSize_eq.
    change (length [x09; x4f; x4b]) with 3.
    rewrite Nat.min_l by lia. reflexivity.
Defined.

(** X4. Server mode, a datagram of a new peer whose leading wire address is
    decoded and resolved: the ingress creates a connection, starts a
    remoteServer session whose reverse destination and outbound connection
    are both that new connection, installs it for the peer, and writes the
    datagram without its address to the resolved target over it. *)
Theorem udpRemote_new_peer `{Extern} (pc : PacketConn) (st : ingress) (e : ingress_io)
    (d : list byte) (addr : net_Addr) (raddr : netip_AddrPort) (tgtAddr : list byte)
    (tgtUDPAddr : net_Addr) (pc' : PacketConn) :
  splits_front →
  i_read e = inr (d, addr) → udpAddrToNetip addr = (raddr, None) →
  let n := length d `min` length (i_buf st) in
  socks_SplitAddr (take n d) = Some tgtAddr →
  i_resolve e = inr tgtUDPAddr →
  natmap_Get raddr (i_nm st) = None → i_listen e = inr pc' →
  ∃ st' payload,
    take n d = tgtAddr ++ payload
    ∧ udpRemote_iter pc st e =
        Ret (st',
             [ReadFrom pc; ListenPacket (inr pc');
              go {| s_dst := pc'; s_peer := raddr; s_src := pc';
                    s_timeout := timeout (i_nm st); s_role := remoteServer |}] ++
             written pc' payload tgtUDPAddr e "UDP remote write error: %v")
    ∧ natmap_Get raddr (i_nm st') = Some pc'.
Proof.
  intros Hfront Hrd Hconv n Hsplit Hres Hget Hlisten.
  destruct (Hfront _ _ Hsplit) as [payload Hd].
  assert (length tgtAddr ≤ n) as Hlen.
  { assert (length (take n d) ≤ n) by (rewrite length_take; lia).
    rewrite Hd, length_app in *. lia. }
  unfold udpRemote_iter. rewrite Hrd.
  destruct (recv (i_buf st) 0 d) as [n' buf'] eqn:Hrecv.
  assert (n' = n) as -> by (unfold recv in Hrecv; injection Hrecv; intros; subst; lia).
  cbn [i_nm i_buf]. rewrite Hconv.
  rewrite (slice_recv _ _ _ _ _ Hrecv) by lia. cbn [run_bind after].
  rewrite drop_0, Hsplit, Hres.
  rewrite (slice_recv _ _ _ _ _ Hrecv) by done. cbn [run_bind after].
  rewrite Hget, Hlisten. unfold natmap_Add.
  exists {| i_nm := natmap_Set raddr pc' (i_nm st); i_buf := buf' |}, payload.
  split_and!; [done | | apply natmap_Get_Set].
  by rewrite Hd, drop_app_length.
Qed.

(** Scenario: the tunnel peer 127.0.0.1:40000 sends
    encode(93.184.216.34:80) ‖ "hello" to the server. *)
Lemma udpRemote_new_peer_witness :
  let st := {| i_nm := newNATmap 60; i_buf := make_buf |} in
  let d := Scenario.wire_target ++ String.list_byte_of_string "hello" in
  let e := {| i_read := inr (d, Scenario.client); i_listen := inr 2;
              i_write := None; i_resolve := inr Scenario.host |} in
  ∃ st' payload,
    take (length d `min` length (i_buf st)) d = Scenario.wire_target ++ payload
    ∧ udpRemote_iter (H := Scenario.env) 1001 st e =
        Ret (st',
             [ReadFrom 1001; ListenPacket (inr 2);
              go {| s_dst := 2; s_peer := Scenario.client_key; s_src := 2;
                    s_timeout := timeout (i_nm st); s_role := remoteServer |}] ++
             written 2 payload Scenario.host e "UDP remote write error: %v")
    ∧ natmap_Get Scenario.client_key (i_nm st') = Some 2.
Proof.
  intros st d e.
  apply (udpRemote_new_peer (H := Scenario.env) 1001 st e d Scenario.client
           Scenario.client_key Scenario.wire_target Scenario.host 2
           Scenario_splits_front).
  - reflexivity.
  - reflexivity.
  - change (length d) with 12. change (i_buf st) with make_buf.
    rewrite length_make_buf, udpBufSize_eq, Nat.min_l by lia. reflexivity.
  - reflexivity.
  - reflexivity.
  - reflexivity.
Defined.

(** * Further properties of the code *)

(** ** The table *)

(** X5. The table as a map: a new table has no entry; [Set] makes [Get]
    return the connection set and leaves every other key alone; [Del]
    returns what [Get] would, after which the key has no entry and a second
    [Del] returns nil; every other key is left alone; setting a key that had
    no entry and deleting it again gives back the table; and neither [Set]
    nor [Del] touches the timeout. *)
Theorem natmap_table_laws (nm : natmap) (key key' : netip_AddrPort)
    (pc : PacketConn) (T : Z) :
  natmap_Get key (newNATmap T) = None
  ∧ (natmap_Del key (newNATmap T)).1 = None
  ∧ natmap_Get key (natmap_Set key pc nm) = Some pc
  ∧ (key ≠ key' → natmap_Get key' (natmap_Set key pc nm) = natmap_Get key' nm)
  ∧ (natmap_Del key nm).1 = natmap_Get key nm
  ∧ natmap_Get key (natmap_Del key nm).2 = None
  ∧ (key ≠ key' → natmap_Get key' (natmap_Del key nm).2 = natmap_Get key' nm)
  ∧ natmap_Del key (natmap_Del key nm).2 = (None, (natmap_Del key nm).2)
  ∧ (natmap_Get key nm = None → natmap_Del key (natmap_Set key pc nm) = (Some pc, nm))
  ∧ timeout (natmap_Set key pc nm) = timeout nm
  ∧ timeout (natmap_Del key nm).2 = timeout nm.
Proof.
  destruct (natmap_Del_spec key nm) as (Hgone & Hdel & Hothers).
  split_and!.
  - apply lookup_empty.
  - unfold natmap_Del, newNATmap. simpl. by rewrite lookup_empty.
  - apply natmap_Get_Set.
  - apply natmap_Get_Set_ne.
  - done.
  - done.
  - intros Hne. apply Hothers. congruence.
  - unfold natmap_Del at 1. unfold natmap_Get in Hgone. by rewrite Hgone.
  - intros Hnone. unfold natmap_Del, natmap_Set, natmap_Get in *. simpl.
    rewrite lookup_insert_eq. f_equal.
    destruct nm as [tbl T']. simpl in *. f_equal. by apply delete_insert_id.
  - done.
  - unfold natmap_Del. by destruct (m nm !! key).
Qed.

(** ** Add does not look *)

(** X6. [Add] does not check for an entry. Called for a peer that has a
    session, it replaces the entry by the new connection and starts a second
    goroutine; the first connection is neither closed nor reachable through
    the table any more. When the first session's loop then returns, its
    goroutine deletes the entry of the second session and closes the second
    session's connection; the first session's own connection is not
    closed. *)
Theorem add_over_existing_entry `{Extern} (peer : netip_AddrPort)
    (dst1 src1 dst2 src2 : PacketConn) (role1 role2 : mode) (nm : natmap)
    (script : list relay_io) (effs : list effect) (err : error) :
  let nm1 := (natmap_Add peer dst1 src1 role1 nm).1 in
  let nm2 := (natmap_Add peer dst2 src2 role2 nm1).1 in
  let s1 := {| s_dst := dst1; s_peer := peer; s_src := src1;
               s_timeout := timeout nm; s_role := role1 |} in
  let s2 := {| s_dst := dst2; s_peer := peer; s_src := src2;
               s_timeout := timeout nm; s_role := role2 |} in
  src1 ≠ src2 →
  timedCopy dst1 peer src1 (timeout nm) role1 script = (effs, Returned err) →
  (natmap_Add peer dst1 src1 role1 nm).2 = [go s1]
  ∧ (natmap_Add peer dst2 src2 role2 nm1).2 = [go s2]
  ∧ natmap_Get peer nm1 = Some src1
  ∧ natmap_Get peer nm2 = Some src2
  ∧ ∃ nm3,
      session_task s1 script nm2 = (effs ++ [Close src2], nm3, Returned err)
      ∧ natmap_Get peer nm3 = None
      ∧ closed (effs ++ [Close src2]) = [src2]
      ∧ src1 ∉ closed (effs ++ [Close src2]).
Proof.
  intros nm1 nm2 s1 s2 Hne Hloop.
  assert (natmap_Get peer nm2 = Some src2) as Hget2 by apply natmap_Get_Set.
  destruct (natmap_Del_spec peer nm2) as (Hgone & Hdel & _).
  assert (closed effs = []) as Hclosed.
  { unfold timedCopy in Hloop. revert Hloop. generalize make_buf.
    generalize (UDPAddr (AsSlice (AddrPort_Addr peer)) (AddrPort_Port peer) "").
    intros udpTarget buf. revert buf effs.
    induction script as [|e script IH]; intros buf effs; simpl; [done|].
    destruct (timedCopy_iter dst1 udpTarget src1 (timeout nm) role1 buf e)
      as [[[buf1 effs1] [err1|]]|effs0 msg] eqn:Hiter; [| |done].
    - intros [= <- _].
      destruct (timedCopy_iter_shape _ _ _ _ _ _ _ _ _ _ Hiter) as (ws & -> & Hws).
      by destruct Hws as [(? & ? & -> & ?)|(? & ? & ? & ? & -> & ?)].
    - destruct (timedCopy_loop dst1 udpTarget src1 (timeout nm) role1 buf1 script)
        as [effs2 st] eqn:Hloop.
      intros [= <- ->]. rewrite closed_app, (IH _ _ Hloop), app_nil_r.
      destruct (timedCopy_iter_shape _ _ _ _ _ _ _ _ _ _ Hiter) as (ws & -> & Hws).
      by destruct Hws as [(? & ? & -> & ?)|(? & ? & ? & ? & -> & ?)]. }
  split_and!; [done | done | apply natmap_Get_Set | done |].
  exists (natmap_Del peer nm2).2. split_and!.
  - unfold session_task. cbn [s_dst s_peer s_src s_timeout s_role s1].
    rewrite Hloop. rewrite Hget2 in Hdel.
    destruct (natmap_Del peer nm2) as [[pc|] nm3]; simpl in Hdel; [|done].
    by injection Hdel as ->.
  - done.
  - by rewrite closed_app, Hclosed.
  - rewrite closed_app, Hclosed. simpl. by intros ->%list_elem_of_singleton.
Qed.

(** The client's session is added twice; the first session's read then
    fails. *)
Lemma add_over_existing_entry_witness :
  let late := {| now := 70; r_read := inl "i/o timeout"; r_write := None |} in
  let nm := newNATmap 60 in
  let nm1 := (natmap_Add Scenario.client_key 1 1002 relayClient nm).1 in
  let nm2 := (natmap_Add Scenario.client_key 1 1003 relayClient nm1).1 in
  let s1 := {| s_dst := 1; s_peer := Scenario.client_key; s_src := 1002;
               s_timeout := 60; s_role := relayClient |} in
  natmap_Get Scenario.client_key nm2 = Some 1003
  ∧ ∃ nm3,
      session_task (H := Scenario.env) s1 [late] nm2
        = ([SetReadDeadline 1002 130; ReadFrom 1002] ++ [Close 1003], nm3,
           Returned "i/o timeout")
      ∧ natmap_Get Scenario.client_key nm3 = None.
Proof.
  intros late nm nm1 nm2 s1.
  destruct (add_over_existing_entry (H := Scenario.env) Scenario.client_key
              1 1002 1 1003 relayClient relayClient nm [late]
              [SetReadDeadline 1002 130; ReadFrom 1002] "i/o timeout")
    as (_ & _ & _ & Hget & nm3 & Htask & Hgone & _).
  - lia.
  - reflexivity.
  - split; [exact Hget|]. exists nm3. split; [exact Htask | exact Hgone].
Defined.

(** ** What the relay loop does and never does *)

(** The calls a relay loop may make: deadlines and reads on [src], writes
    over [dst] to the one peer. *)
Definition relay_call (dst src : PacketConn) (udpTarget : net_Addr) (eff : effect) : Prop :=
  match eff with
  | SetReadDeadline pc _ | ReadFrom pc => pc = src
  | WriteTo pc _ addr => pc = dst ∧ addr = udpTarget
  | _ => False
  end.

Lemma bounds_Panic lo hi cap effs msg :
  bounds lo hi cap = Panic effs msg → effs = [].
Proof. unfold bounds. case_decide; [done|]. by intros [= <- _]. Qed.

Lemma slice_Panic s lo hi effs msg : slice s lo hi = Panic effs msg → effs = [].
Proof.
  unfold slice. destruct (bounds lo hi (length s)) eqn:Hb; simpl; [done|].
  intros [= <- _]. by eapply bounds_Panic.
Qed.

Section relay_calls.
Context `{Extern}.
Variables (dst src : PacketConn) (udpTarget : net_Addr) (timeout : Z) (role : mode).

Lemma timedCopy_iter_Panic buf e effs msg :
  timedCopy_iter dst udpTarget src timeout role buf e = Panic effs msg →
  effs = [SetReadDeadline src (now e + timeout); ReadFrom src].
Proof.
  unfold timedCopy_iter. destruct (r_read e) as [err|[d A]]; [done|].
  destruct (recv buf 0 d) as [n buf1].
  destruct role;
    repeat (match goal with
            | |- context [run_bind ?x _] =>
                let Hx := fresh "Hx" in
                destruct x eqn:Hx; cbn [run_bind after];
                [| first [apply slice_Panic in Hx | apply bounds_Panic in Hx];
                   subst; by intros [= <- _]]
            end);
    done.
Qed.

Lemma timedCopy_loop_calls script : ∀ buf,
  Forall (relay_call dst src udpTarget)
    (timedCopy_loop dst udpTarget src timeout role buf script).1.
Proof.
  induction script as [|e script IH]; intros buf; simpl; [by constructor|].
  destruct (timedCopy_iter dst udpTarget src timeout role buf e)
    as [[[buf1 effs1] r]|effs0 msg] eqn:Hiter.
  - assert (Forall (relay_call dst src udpTarget) effs1) as Hcalls.
    { destruct (timedCopy_iter_shape _ _ _ _ _ _ _ _ _ _ Hiter) as (ws & -> & Hws).
      destruct Hws as [(? & ? & -> & ?)|(? & ? & ? & ? & -> & ?)];
        repeat constructor. }
    destruct r as [err|]; [done|].
    specialize (IH buf1).
    destruct (timedCopy_loop dst udpTarget src timeout role buf1 script) as [effs2 st].
    simpl in *. by apply Forall_app.
  - apply timedCopy_iter_Panic in Hiter as ->. simpl. by repeat constructor.
Qed.

(** The iterations of relayClient and socksClient sessions do not panic. *)
Lemma timedCopy_iter_total buf e :
  splits_front → role ≠ remoteServer →
  ∃ buf' effs r,
    timedCopy_iter dst udpTarget src timeout role buf e = Ret (buf', effs, r).
Proof.
  intros Hfront Hrole. unfold timedCopy_iter.
  destruct (r_read e) as [err|[d A]]; [by eauto|].
  destruct (recv buf 0 d) as [n buf1] eqn:Hrecv.
  destruct role; [done| |].
  - rewrite (slice_recv _ _ _ _ _ Hrecv) by lia. cbn [run_bind after].
    rewrite drop_0.
    assert (len (socks_SplitAddr (take n d)) ≤ n) as Hlen.
    { destruct (socks_SplitAddr (take n d)) as [a|] eqn:Hsplit; simpl; [|lia].
      destruct (Hfront _ _ Hsplit) as [rest Hd].
      assert (length (take n d) ≤ n) by (rewrite length_take; lia).
      rewrite Hd, length_app in *. lia. }
    rewrite (slice_recv _ _ _ _ _ Hrecv) by done. cbn [run_bind after]. by eauto.
  - rewrite (slice_recv _ _ _ _ _ Hrecv) by lia. cbn [run_bind after]. by eauto.
Qed.

End relay_calls.

(** X7. Whatever it is answered, and whether it keeps running, returns or
    panics, the relay loop of a session only sets read deadlines on and
    reads from its outbound connection [src] and writes over [dst] to the
    address of its peer: it never writes to another address, closes,
    listens, logs or starts a goroutine. *)
Theorem timedCopy_only_relays `{Extern} (dst src : PacketConn) (target : netip_AddrPort)
    (timeout : Z) (role : mode) (script : list relay_io) :
  let udpTarget :=
    UDPAddr (AsSlice (AddrPort_Addr target)) (AddrPort_Port target) "" in
  let effs := (timedCopy dst target src timeout role script).1 in
  Forall (relay_call dst src udpTarget) effs
  ∧ closed effs = [] ∧ started effs = [] ∧ listens effs = []
  ∧ Forall (λ w, w = (dst, w.1.2, udpTarget)) (writes effs).
Proof.
  intros udpTarget effs.
  assert (Forall (relay_call dst src udpTarget) effs) as Hcalls
    by apply timedCopy_loop_calls.
  split; [done|]. clearbody effs.
  induction Hcalls as [|eff effs Heff _ IH]; [done|].
  destruct IH as (Hc & Hs & Hl & Hw).
  destruct eff; try done; simpl in Heff.
  destruct Heff as [-> ->]. split_and!; [done..|].
  by constructor.
Qed.

(** X8. The relay loop of a relayClient or socksClient session never
    panics: after any finite number of answers it is either still running or
    has returned the error of a read or write. (For relayClient this rests
    on [socks.SplitAddr] returning a prefix of what it is given.) *)
Theorem relay_loop_never_panics `{Extern} (dst src : PacketConn) (target : netip_AddrPort)
    (timeout : Z) (role : mode) (script : list relay_io) :
  splits_front → role ≠ remoteServer →
  ∃ effs,
    (∃ buf, timedCopy dst target src timeout role script = (effs, Running buf))
    ∨ (∃ err, timedCopy dst target src timeout role script = (effs, Returned err)).
Proof.
  intros Hfront Hrole. unfold timedCopy. generalize make_buf.
  induction script as [|e script IH]; intros buf; simpl; [by eauto|].
  destruct (timedCopy_iter_total dst src
              (UDPAddr (AsSlice (AddrPort_Addr target)) (AddrPort_Port target) "")
              timeout role buf e Hfront Hrole) as (buf1 & effs1 & r & ->).
  destruct r as [err|]; [by eauto|].
  destruct (IH buf1) as [effs2 [[buf2 ->]|[err ->]]]; by eauto.
Qed.

(** A socksClient session relays one datagram and then meets the deadline. *)
Lemma relay_loop_never_panics_witness :
  ∃ effs,
    (∃ buf, timedCopy (H := Scenario.env) 1 Scenario.client_key 1002 60 socksClient
              [{| now := 5; r_read := inr ([x4f; x4b], Scenario.server); r_write := None |};
               {| now := 70; r_read := inl "i/o timeout"; r_write := None |}]
            = (effs, Running buf))
    ∨ (∃ err, timedCopy (H := Scenario.env) 1 Scenario.client_key 1002 60 socksClient
                [{| now := 5; r_read := inr ([x4f; x4b], Scenario.server);
                    r_write := None |};
                 {| now := 70; r_read := inl "i/o timeout"; r_write := None |}]
              = (effs, Returned err)).
Proof.
  apply (relay_loop_never_panics (H := Scenario.env) 1 1002 Scenario.client_key 60
           socksClient _ Scenario_splits_front).
  discriminate.
Defined.

(** ** What an ingress loop does to the table *)

Ltac panic_cases Hret :=
  repeat (match type of Hret with
          | context [after _ ?y] =>
              let Hy := fresh "Hy" in
              destruct y eqn:Hy; cbn [run_bind after] in Hret;
              [| first [apply slice_Panic in Hy | apply bounds_Panic in Hy]; subst]
          | context [run_bind ?x _] =>
              let Hx := fresh "Hx" in
              destruct x eqn:Hx;
              [| first [apply slice_Panic in Hx | apply bounds_Panic in Hx]; subst]
          | context [match ?x with _ => _ end] => destruct x eqn:?
          end; cbn [run_bind after] in Hret; try discriminate Hret).

Section ingress_closes_nothing.
Context `{Extern}.

Lemma written_closed pc b addr e format : closed (written pc b addr e format) = [].
Proof. unfold written. by destruct (i_write e). Qed.

Lemma udpLocal_iter_closed c srvAddr tgt st e :
  match udpLocal_iter c srvAddr tgt st e with
  | Ret (_, effs) | Panic effs _ => closed effs = []
  end.
Proof.
  destruct (udpLocal_iter c srvAddr tgt st e) as [[st' effs]|effs msg] eqn:Hret;
    unfold udpLocal_iter, natmap_Add in Hret.
  - ingress_cases Hret; injection Hret as <- <-;
      unfold written; by destruct (i_write e).
  - panic_cases Hret; by injection Hret as <- <-.
Qed.

Lemma udpSocksLocal_iter_closed c srvAddr st e :
  match udpSocksLocal_iter c srvAddr st e with
  | Ret (_, effs) | Panic effs _ => closed effs = []
  end.
Proof.
  destruct (udpSocksLocal_iter c srvAddr st e) as [[st' effs]|effs msg] eqn:Hret;
    unfold udpSocksLocal_iter, natmap_Add in Hret.
  - ingress_cases Hret; injection Hret as <- <-;
      unfold written; by destruct (i_write e).
  - panic_cases Hret; by injection Hret as <- <-.
Qed.

Lemma udpRemote_iter_closed pc st e :
  match udpRemote_iter pc st e with
  | Ret (_, effs) | Panic effs _ => closed effs = []
  end.
Proof.
  destruct (udpRemote_iter pc st e) as [[st' effs]|effs msg] eqn:Hret;
    unfold udpRemote_iter, natmap_Add in Hret.
  - ingress_cases Hret; injection Hret as <- <-;
      unfold written; by destruct (i_write e).
  - panic_cases Hret; by injection Hret as <- <-.
Qed.

Lemma ingress_body_closed body st e :
  ingress_body body →
  match body st e with
  | Ret (_, effs) | Panic effs _ => closed effs = []
  end.
Proof.
  intros [(c & srvAddr & tgt & ->)|[(c & srvAddr & ->)|(pc & ->)]].
  - apply udpLocal_iter_closed.
  - apply udpSocksLocal_iter_closed.
  - apply udpRemote_iter_closed.
Qed.

(** What an iteration does to the table: nothing, or, for a sender that had
    no entry, it installs the connection it created and starts the session
    of that connection. *)
Lemma lookup_step_table wrap dst role st e st' effs :
  lookup_step wrap dst role st e st' effs →
  (started effs = [] ∧ i_nm st' = i_nm st ∧ created effs = [])
  ∨ (∃ s, started effs = [s]
          ∧ natmap_Get (s_peer s) (i_nm st) = None
          ∧ i_nm st' = natmap_Set (s_peer s) (s_src s) (i_nm st)
          ∧ s_timeout s = timeout (i_nm st) ∧ s_role s = role
          ∧ length (created effs) = 1
          ∧ ∃ data to, writes effs = [(s_src s, data, to)]).
Proof.
  intros [? Hl ? ?|d addr raddr pc ?? ???? Hl ??
          |d addr raddr err ????? Hl ??
          |d addr raddr pc0 data to ????? Hl Hs Hw].
  - left. by rewrite created_listens, Hl.
  - left. by rewrite created_listens, Hl.
  - left. by rewrite created_listens, Hl.
  - right. eexists. split_and!; [exact Hs|simpl..]; try done.
    + by rewrite created_listens, Hl.
    + by eauto.
Qed.

End ingress_closes_nothing.

Lemma natmap_Get_Set_Some key key' pc pc' nm :
  natmap_Get key nm = None →
  natmap_Get key' (natmap_Set key pc nm) = Some pc' ↔
  (key' = key ∧ pc' = pc) ∨ natmap_Get key' nm = Some pc'.
Proof.
  intros Hnone. destruct (decide (key = key')) as [<-|Hne].
  - rewrite natmap_Get_Set, Hnone. split.
    + intros [= ->]. by left.
    + intros [[_ ->]|?]; done.
  - rewrite natmap_Get_Set_ne by done. split.
    + intros ?. by right.
    + intros [[-> _]|?]; done.
Qed.

Section ingress_sessions.
Context `{Extern}.
Variable (body : ingress → ingress_io → run (ingress * list effect)).
Hypothesis (Hbody : ingress_body body).

(** The table after a run of the loop is the table before it plus one entry
    for each session started, all for peers that had none. *)
Lemma serve_sessions script : ∀ st effs st',
  serve body st script = (effs, Serving st') →
  (∀ key pc, natmap_Get key (i_nm st') = Some pc ↔
     natmap_Get key (i_nm st) = Some pc
     ∨ ∃ s, s ∈ started effs ∧ s_peer s = key ∧ s_src s = pc)
  ∧ Forall (λ s, natmap_Get (s_peer s) (i_nm st) = None) (started effs)
  ∧ NoDup (s_peer <$> started effs)
  ∧ size (m (i_nm st')) = size (m (i_nm st)) + length (started effs)
  ∧ length (created effs) = length (started effs)
  ∧ timeout (i_nm st') = timeout (i_nm st)
  ∧ Forall (λ s, s_timeout s = timeout (i_nm st)) (started effs).
Proof.
  induction script as [|e script IH]; intros st effs st'; simpl.
  - intros [= <- <-]. split_and!; try done; try by constructor.
    intros key pc. split; [by left|]. intros [?|(s & []%elem_of_nil & _)]. done.
  - destruct (body st e) as [[st1 effs1]|effs0 msg] eqn:Hret; [|done].
    destruct (serve body st1 script) as [effs2 r] eqn:Hserve.
    intros [= <- ->].
    destruct (IH _ _ _ Hserve) as (Hiff & Hnew & Hnd & Hsize & Hcr & Hto & Htos).
    destruct (ingress_body_lookup body st e st1 effs1 Hbody Hret)
      as (wrap & dst & role & Hstep).
    rewrite started_app, created_app, !length_app.
    destruct (lookup_step_table _ _ _ _ _ _ _ Hstep)
      as [(Hs & Hnm & Hc)|(s & Hs & Hnone & Hnm & Hts & _ & Hc & _)];
      rewrite Hs.
    + rewrite Hnm in *. rewrite Hc. simpl. by split_and!.
    + assert (∀ s', s' ∈ started effs2 → s_peer s' ≠ s_peer s) as Hfresh.
      { intros s' Hin Heq. rewrite Forall_forall in Hnew.
        specialize (Hnew s' Hin). rewrite Heq, Hnm, natmap_Get_Set in Hnew. done. }
      split_and!.
      * intros key pc. rewrite Hiff, Hnm, natmap_Get_Set_Some by done.
        split.
        -- intros [[[-> ->]|?]|(s' & ? & ? & ?)].
           ++ right. exists s. split; [apply elem_of_cons; by left | done].
           ++ by left.
           ++ right. exists s'. split; [apply elem_of_cons; by right | done].
        -- intros [?|(s' & [->|?]%elem_of_cons & ? & ?)].
           ++ left. by right.
           ++ left. left. done.
           ++ right. by exists s'.
      * simpl. constructor; [done|].
        rewrite Forall_forall in Hnew |- *. intros s' Hin.
        specialize (Hnew s' Hin). rewrite Hnm in Hnew.
        by rewrite natmap_Get_Set_ne in Hnew by (intros ?; by eapply Hfresh).
      * simpl. constructor; [|done].
        intros (s' & Heq & Hin)%list_elem_of_fmap. by eapply Hfresh.
      * rewrite Hsize, Hnm. simpl.
        rewrite map_size_insert_None by done. lia.
      * rewrite Hc, Hcr. done.
      * by rewrite Hto, Hnm.
      * simpl. constructor; [done|].
        rewrite Hnm in Htos. done.
Qed.

(** The loop closes nothing. *)
Lemma serve_closed script : ∀ st, closed (serve body st script).1 = [].
Proof.
  induction script as [|e script IH]; intros st; simpl; [done|].
  pose proof (ingress_body_closed body st e Hbody) as Hc.
  destruct (body st e) as [[st1 effs1]|effs0 msg]; [|done].
  specialize (IH st1). destruct (serve body st1 script) as [effs2 r].
  simpl in *. by rewrite closed_app, Hc, IH.
Qed.

End ingress_sessions.

(** X9. While it serves, an ingress loop (any of the three) never removes
    and never replaces an entry of the table, never changes the timeout of
    the table and never closes a connection: what [Get] returned for a peer
    before a run of the loop it returns after it. Sessions end only through
    their own goroutines. *)
Theorem ingress_table_only_grows `{Extern}
    (body : ingress → ingress_io → run (ingress * list effect))
    (st : ingress) (script : list ingress_io) :
  ingress_body body →
  closed (serve body st script).1 = []
  ∧ ∀ st', (serve body st script).2 = Serving st' →
      timeout (i_nm st') = timeout (i_nm st)
      ∧ ∀ key pc, natmap_Get key (i_nm st) = Some pc →
                  natmap_Get key (i_nm st') = Some pc.
Proof.
  intros Hbody. split; [by apply serve_closed|].
  intros st' Hserving.
  destruct (serve body st script) as [effs r] eqn:Hserve. simpl in Hserving. subst r.
  destruct (serve_sessions body Hbody script _ _ _ Hserve)
    as (Hiff & _ & _ & _ & _ & Hto & _).
  split; [done|]. intros key pc Hget. apply Hiff. by left.
Qed.

Lemma ingress_table_only_grows_witness :
  let body := udpLocal_iter (H := Scenario.env) 1 Scenario.server Scenario.wire_target in
  let st := {| i_nm := newNATmap 60; i_buf := copy_to make_buf 0 Scenario.wire_target |} in
  let e := {| i_read := inr (String.list_byte_of_string "hello", Scenario.client);
              i_listen := inr 2; i_write := None; i_resolve := inl "" |} in
  ingress_body (H := Scenario.env) body
  ∧ closed (serve body st [e; e]).1 = []
  ∧ ∀ st', (serve body st [e; e]).2 = Serving st' →
      timeout (i_nm st') = timeout (i_nm st)
      ∧ ∀ key pc, natmap_Get key (i_nm st) = Some pc →
                  natmap_Get key (i_nm st') = Some pc.
Proof.
  intros body st e.
  assert (ingress_body (H := Scenario.env) body) as Hbody
    by (left; by exists 1, Scenario.server, Scenario.wire_target).
  split; [exact Hbody|].
  exact (ingress_table_only_grows (H := Scenario.env) body st [e; e] Hbody).
Defined.

(** ** The table under the read loop and the sessions together *)

(** The table is shared between the read loop and the goroutines of the
    sessions: the loop looks up and installs, and a goroutine, once its relay
    loop has returned, removes the entry of its peer and closes what the
    removal returned. [Get], [Set] and [Del] each hold the lock of the
    table. An iteration of the loop does one [Get] and, on a miss, one [Set]
    of the same key; a [Del] that falls between the two is of a key that has
    no entry or of another key, so the table goes through the same states as
    if it had fallen before the iteration. What happens to the table is thus
    a sequence of events of two kinds. *)
Inductive table_event :=
  | Handles (e : ingress_io)
  | Ends (s : session).

(** The read loop with the ends of sessions in between. *)
Fixpoint serve_shared (body : ingress → ingress_io → run (ingress * list effect))
    (st : ingress) (events : list table_event) : list effect * served :=
  match events with
  | [] => ([], Serving st)
  | Handles e :: events' =>
      match body st e with
      | Panic effs msg => (effs, Died msg)
      | Ret (st', effs) =>
          let '(effs', r) := serve_shared body st' events' in (effs ++ effs', r)
      end
  | Ends s :: events' =>
      let del := natmap_Del (s_peer s) (i_nm st) in
      let '(effs', r) :=
        serve_shared body {| i_nm := del.2; i_buf := i_buf st |} events' in
      (match del.1 with Some pc => [Close pc] | None => [] end ++ effs', r)
  end.

(** With no session ending it is the read loop alone. *)
Lemma serve_shared_Handles body script : ∀ st,
  serve_shared body st (Handles <$> script) = serve body st script.
Proof.
  induction script as [|e script IH]; intros st; simpl; [done|].
  destruct (body st e) as [[st' effs]|effs msg]; [|done]. by rewrite IH.
Qed.

(** An [Ends] event is what the goroutine of [Add] does when [timedCopy] has
    returned. *)
Lemma session_task_Ends `{Extern} s script nm effs err :
  timedCopy (s_dst s) (s_peer s) (s_src s) (s_timeout s) (s_role s) script
    = (effs, Returned err) →
  session_task s script nm
  = (effs ++ match (natmap_Del (s_peer s) nm).1 with
             | Some pc => [Close pc]
             | None => []
             end,
     (natmap_Del (s_peer s) nm).2, Returned err).
Proof.
  intros Hloop. unfold session_task. rewrite Hloop.
  destruct (natmap_Del (s_peer s) nm) as [[pc|] nm']; simpl; [done|].
  by rewrite app_nil_r.
Qed.

Lemma timeout_natmap_Del key nm : timeout (natmap_Del key nm).2 = timeout nm.
Proof. unfold natmap_Del. by destruct (m nm !! key). Qed.

Lemma size_natmap_Del key nm :
  size (m (natmap_Del key nm).2)
  + length (match (natmap_Del key nm).1 with Some pc => [Close pc] | None => [] end)
  = size (m nm).
Proof.
  unfold natmap_Del. destruct (m nm !! key) as [pc|] eqn:Hget; simpl; [|lia].
  rewrite map_size_delete_Some by done.
  pose proof (map_size_ne_0_lookup_2 (m nm) key (mk_is_Some _ _ Hget)). lia.
Qed.

Section shared_table.
Context `{Extern}.
Variable (body : ingress → ingress_io → run (ingress * list effect)).
Hypothesis (Hbody : ingress_body body).

(** Entries come from the table at the start or from sessions started since;
    so do the connections closed; every connection created got a session;
    and every session started is still counted, by an entry or by a
    connection closed. *)
Lemma serve_shared_sessions events : ∀ st effs st',
  serve_shared body st events = (effs, Serving st') →
  (∀ key pc, natmap_Get key (i_nm st') = Some pc →
     natmap_Get key (i_nm st) = Some pc
     ∨ ∃ s, s ∈ started effs ∧ s_peer s = key ∧ s_src s = pc)
  ∧ (∀ pc, pc ∈ closed effs →
       (∃ key, natmap_Get key (i_nm st) = Some pc)
       ∨ ∃ s, s ∈ started effs ∧ s_src s = pc)
  ∧ length (created effs) = length (started effs)
  ∧ size (m (i_nm st')) + length (closed effs)
    = size (m (i_nm st)) + length (started effs)
  ∧ timeout (i_nm st') = timeout (i_nm st)
  ∧ Forall (λ s, s_timeout s = timeout (i_nm st)) (started effs).
Proof.
  induction events as [|[e|s] events IH]; intros st effs st'; simpl.
  - intros [= <- <-].
    split_and!; [by left | by intros pc ?%elem_of_nil | done.. | by constructor].
  - destruct (body st e) as [[st1 effs1]|effs0 msg] eqn:Hret; [|done].
    destruct (serve_shared body st1 events) as [effs2 r] eqn:Hserve.
    intros [= <- ->].
    destruct (IH _ _ _ Hserve) as (Hent & Hcl & Hcr & Hsize & Hto & Htos).
    destruct (ingress_body_lookup body st e st1 effs1 Hbody Hret)
      as (wrap & dst & role & Hstep).
    pose proof (ingress_body_closed body st e Hbody) as Hc1. rewrite Hret in Hc1.
    rewrite started_app, created_app, closed_app, !length_app, Hc1.
    destruct (lookup_step_table _ _ _ _ _ _ _ Hstep)
      as [(Hs & Hnm & Hc)|(s & Hs & Hnone & Hnm & Hts & _ & Hc & _)];
      rewrite Hs.
    + rewrite Hnm in *. rewrite Hc. simpl. by split_and!.
    + split_and!.
      * intros key pc Hget. destruct (Hent key pc Hget) as [Hold|(s' & ? & ? & ?)].
        -- rewrite Hnm in Hold.
           apply natmap_Get_Set_Some in Hold as [[-> ->]|?]; [|by left|done].
           right. exists s. split; [apply elem_of_cons; by left | done].
        -- right. exists s'. split; [apply elem_of_cons; by right | done].
      * simpl. intros pc Hin. destruct (Hcl pc Hin) as [[key Hold]|(s' & ? & ?)].
        -- rewrite Hnm in Hold.
           apply natmap_Get_Set_Some in Hold as [[-> ->]|?]; [|by left; eauto|done].
           right. exists s. split; [apply elem_of_cons; by left | done].
        -- right. exists s'. split; [apply elem_of_cons; by right | done].
      * rewrite Hc, Hcr. done.
      * simpl. rewrite Hsize, Hnm. simpl.
        rewrite map_size_insert_None by done. lia.
      * by rewrite Hto, Hnm.
      * simpl. constructor; [done|]. by rewrite Hnm in Htos.
  - destruct (serve_shared body _ events) as [effs2 r] eqn:Hserve.
    intros [= <- ->].
    destruct (IH _ _ _ Hserve) as (Hent & Hcl & Hcr & Hsize & Hto & Htos).
    cbn [i_nm] in *.
    destruct (natmap_Del_spec (s_peer s) (i_nm st)) as (Hgone & Hdel & Hothers).
    pose proof (size_natmap_Del (s_peer s) (i_nm st)) as Hsz.
    rewrite timeout_natmap_Del in Hto, Htos.
    assert (∀ key pc, natmap_Get key (natmap_Del (s_peer s) (i_nm st)).2 = Some pc →
                      natmap_Get key (i_nm st) = Some pc) as Hkept.
    { intros key pc Hget. destruct (decide (key = s_peer s)) as [->|Hne].
      - congruence.
      - by rewrite <- Hothers. }
    assert (closed (match (natmap_Del (s_peer s) (i_nm st)).1 with
                    | Some pc => [Close pc]
                    | None => []
                    end)
            = match natmap_Get (s_peer s) (i_nm st) with
              | Some pc => [pc]
              | None => []
              end) as Hclosing.
    { rewrite Hdel. by destruct (natmap_Get (s_peer s) (i_nm st)). }
    assert (started (match (natmap_Del (s_peer s) (i_nm st)).1 with
                     | Some pc => [Close pc]
                     | None => []
                     end) = []
            ∧ created (match (natmap_Del (s_peer s) (i_nm st)).1 with
                       | Some pc => [Close pc]
                       | None => []
                       end) = []) as [Hs0 Hc0]
      by (by destruct ((natmap_Del (s_peer s) (i_nm st)).1)).
    rewrite started_app, created_app, closed_app, Hs0, Hc0. simpl.
    split_and!; [| |done| |done|done].
    + intros key pc Hget. destruct (Hent key pc Hget) as [?|?]; [left|right]; eauto.
    + intros pc [Hin|Hin]%elem_of_app.
      * left. exists (s_peer s). rewrite Hclosing in Hin.
        destruct (natmap_Get (s_peer s) (i_nm st)); [|by apply elem_of_nil in Hin].
        by apply list_elem_of_singleton in Hin as ->.
      * destruct (Hcl pc Hin) as [[key ?]|?]; [left|right]; eauto.
    + rewrite length_app.
      assert (length (closed (match (natmap_Del (s_peer s) (i_nm st)).1 with
                              | Some pc => [Close pc]
                              | None => []
                              end))
              = length (match (natmap_Del (s_peer s) (i_nm st)).1 with
                        | Some pc => [Close pc]
                        | None => []
                        end)) as Hlen
        by (by destruct ((natmap_Del (s_peer s) (i_nm st)).1)).
      lia.
Qed.

End shared_table.

(** X10. The table and the sessions, with sessions ending while the loop
    runs. From an empty table, after any sequence of datagrams handled by an
    ingress loop (any of the three) and of sessions ending in between, each
    end removing the entry of its peer and closing what it removed:
    every entry of the table is the peer and outbound connection of a
    session that was started; every connection closed is the outbound
    connection of a session that was started; every connection created got
    a session; every session started is accounted for, by an entry still in
    the table or by a connection closed (as many sessions as entries and
    connections closed together); and the table and every session carry the
    timeout the table was made with. *)
Theorem sessions_account_for_table `{Extern}
    (body : ingress → ingress_io → run (ingress * list effect))
    (T : Z) (buf : list byte) (events : list table_event) (effs : list effect)
    (st' : ingress) :
  ingress_body body →
  serve_shared body {| i_nm := newNATmap T; i_buf := buf |} events
    = (effs, Serving st') →
  (∀ key pc, natmap_Get key (i_nm st') = Some pc →
     ∃ s, s ∈ started effs ∧ s_peer s = key ∧ s_src s = pc)
  ∧ (∀ pc, pc ∈ closed effs → ∃ s, s ∈ started effs ∧ s_src s = pc)
  ∧ length (created effs) = length (started effs)
  ∧ size (m (i_nm st')) + length (closed effs) = length (started effs)
  ∧ timeout (i_nm st') = T
  ∧ Forall (λ s, s_timeout s = T) (started effs).
Proof.
  intros Hbody Hserve.
  destruct (serve_shared_sessions body Hbody events _ _ _ Hserve)
    as (Hent & Hcl & Hcr & Hsize & Hto & Htos).
  simpl in *. unfold natmap_Get in Hent, Hcl. simpl in Hent, Hcl.
  split_and!; [| |exact Hcr| |exact Hto|exact Htos].
  - intros key pc Hget. destruct (Hent key pc Hget) as [Hold|?]; [|done].
    by rewrite lookup_empty in Hold.
  - intros pc Hin. destruct (Hcl pc Hin) as [[key Hold]|?]; [|done].
    by rewrite lookup_empty in Hold.
  - rewrite Hsize. by rewrite map_size_empty.
Qed.

Lemma serve_shared_three body st e1 s e2 st1 effs1 st2 effs2 :
  body st e1 = Ret (st1, effs1) →
  body {| i_nm := (natmap_Del (s_peer s) (i_nm st1)).2; i_buf := i_buf st1 |} e2
    = Ret (st2, effs2) →
  serve_shared body st [Handles e1; Ends s; Handles e2]
  = (effs1 ++ match (natmap_Del (s_peer s) (i_nm st1)).1 with
              | Some pc => [Close pc]
              | None => []
              end ++ effs2 ++ [],
     Serving st2).
Proof. intros H1 H2. cbn [serve_shared]. by rewrite H1, H2. Qed.

(** Scenario: "hello" from 127.0.0.1:40000, the end of the session it
    opened, and "hello" again. *)
Lemma sessions_account_for_table_witness :
  let body := udpLocal_iter (H := Scenario.env) 1 Scenario.server Scenario.wire_target in
  let buf := copy_to make_buf 0 Scenario.wire_target in
  let e pc0 := {| i_read := inr (String.list_byte_of_string "hello", Scenario.client);
                  i_listen := inr pc0; i_write := None; i_resolve := inl "" |} in
  let s := {| s_dst := 1; s_peer := Scenario.client_key; s_src := 1002;
              s_timeout := 60; s_role := relayClient |} in
  ∃ effs st',
    serve_shared body {| i_nm := newNATmap 60; i_buf := buf |}
      [Handles (e 2); Ends s; Handles (e 3)] = (effs, Serving st')
    ∧ (∀ key pc, natmap_Get key (i_nm st') = Some pc →
         ∃ s, s ∈ started effs ∧ s_peer s = key ∧ s_src s = pc)
    ∧ (∀ pc, pc ∈ closed effs → ∃ s, s ∈ started effs ∧ s_src s = pc)
    ∧ length (created effs) = length (started effs)
    ∧ size (m (i_nm st')) + length (closed effs) = length (started effs)
    ∧ timeout (i_nm st') = 60%Z
    ∧ Forall (λ s, s_timeout s = 60%Z) (started effs).
Proof.
  intros body buf e s.
  assert (length Scenario.wire_target ≤ udpBufSize) as Htgt
    by (rewrite udpBufSize_eq; change (length Scenario.wire_target) with 7; lia).
  destruct (udpLocal_iter_forwards (H := Scenario.env) 1 Scenario.server
              Scenario.wire_target {| i_nm := newNATmap 60; i_buf := buf |} (e 2)
              (String.list_byte_of_string "hello")
              Scenario.client Htgt (tgt_in_front_init _ (newNATmap 60) Htgt) eq_refl)
    as (st1 & effs1 & Hret1 & Hinv1 & _).
  destruct (udpLocal_iter_forwards (H := Scenario.env) 1 Scenario.server
              Scenario.wire_target
              {| i_nm := (natmap_Del (s_peer s) (i_nm st1)).2; i_buf := i_buf st1 |}
              (e 3) (String.list_byte_of_string "hello")
              Scenario.client Htgt Hinv1 eq_refl)
    as (st2 & effs2 & Hret2 & _ & _).
  assert (ingress_body (H := Scenario.env) body) as Hbody
    by (left; by exists 1, Scenario.server, Scenario.wire_target).
  pose proof (serve_shared_three body _ (e 2) s (e 3) _ _ _ _ Hret1 Hret2) as Hserve.
  eexists _, st2. split; [exact Hserve|].
  exact (sessions_account_for_table (H := Scenario.env) body 60 buf _ _ st2 Hbody Hserve).
Defined.

(** ** The read loop of the server does not panic *)

Lemma udpRemote_iter_total `{Extern} pc st e :
  splits_front → ∃ st' effs, udpRemote_iter pc st e = Ret (st', effs).
Proof.
  intros Hfront. unfold udpRemote_iter.
  destruct (i_read e) as [err|[d addr]]; [by eauto|].
  destruct (recv (i_buf st) 0 d) as [n buf'] eqn:Hrecv.
  destruct (udpAddrToNetip addr) as [raddr [err|]]; [by eauto|].
  rewrite (slice_recv _ _ _ _ _ Hrecv) by lia. cbn [run_bind after].
  destruct (socks_SplitAddr _) as [tgtAddr|] eqn:Hsplit; [|by eauto].
  destruct (i_resolve e) as [err|tgtUDPAddr]; [by eauto|].
  apply Hfront, prefix_length in Hsplit.
  rewrite drop_0, length_take in Hsplit.
  rewrite (slice_recv _ _ _ _ _ Hrecv) by lia. cbn [run_bind after].
  destruct (natmap_Get raddr _) as [pc'|]; [by eauto|].
  destruct (i_listen e) as [err|pc']; [by eauto|].
  unfold natmap_Add. by eauto.
Qed.

(** X11. No iteration of the read loop of [udpRemote] panics. Whatever the
    table holds at that moment, whatever the buffer holds and however long it
    is, and whatever is answered (a datagram of any length and content, from
    any sender; a read error; a failed resolution, [ListenPacket] or write),
    the iteration comes back to the head of the loop: [buf[:n]] and
    [buf[len(tgtAddr):n]] are in range, given that [socks.SplitAddr] returns
    a prefix of what it is given. The iteration closes nothing and leaves the
    buffer its length. This is the loop of [udpRemote] alone; the
    remoteServer sessions it starts run [timedCopy] in goroutines of their
    own. *)
Theorem udpRemote_loop_never_panics `{Extern} (pc : PacketConn) (st : ingress)
    (e : ingress_io) :
  splits_front →
  ∃ st' effs,
    udpRemote_iter pc st e = Ret (st', effs)
    ∧ closed effs = []
    ∧ length (i_buf st') = length (i_buf st).
Proof.
  intros Hfront.
  destruct (udpRemote_iter_total pc st e Hfront) as (st' & effs & Hret).
  exists st', effs. split; [exact Hret|]. split.
  - pose proof (udpRemote_iter_closed pc st e) as Hc. by rewrite Hret in Hc.
  - by apply udpRemote_iter_length in Hret.
Qed.

(** A datagram of one byte, too short for any wire address, and an empty
    table. *)
Lemma udpRemote_loop_never_panics_witness :
  let st := {| i_nm := newNATmap 60; i_buf := make_buf |} in
  let e := {| i_read := inr ([x01], Scenario.client);
              i_listen := inr 2; i_write := None; i_resolve := inl "" |} in
  ∃ st' effs,
    udpRemote_iter (H := Scenario.env) 1007 st e = Ret (st', effs)
    ∧ closed effs = []
    ∧ length (i_buf st') = length (i_buf st).
Proof.
  intros st e.
  exact (udpRemote_loop_never_panics (H := Scenario.env) 1007 st e Scenario_splits_front).
Defined.

(** ** The two ends of the tunnel, composed *)

(** What the two ends need of the codec together: a wire address made by
    [socks.ParseAddr] is split again from the front of any datagram that
    begins with it. *)
Definition splits_parsed `{Extern} : Prop :=
  ∀ (s : string) (a rest : list byte),
    socks_ParseAddr s = Some a → socks_SplitAddr (a ++ rest) = Some a.

Lemma Scenario_splits_parsed : splits_parsed (H := Scenario.env).
Proof.
  intros s a rest. simpl. unfold Scenario.ParseAddr.
  repeat case_decide; intros [= <-]; try done.
  all: unfold Scenario.SplitAddr; simpl; rewrite decide_False by lia; reflexivity.
Qed.

(** X12. The way out, transparent mode: a client datagram [d] that fits the
    buffer behind the target's wire address leaves [udpLocal] as
    [tgt ‖ d]; and [udpRemote], reading that datagram, writes exactly [d]
    to the address the target resolved to, over the connection of the
    sender's session. The payload crosses the tunnel unchanged. *)
Theorem tunnel_delivers_payload `{Extern} (c : PacketConn) (srvAddr : net_Addr)
    (target : string) (tgt : list byte) (stL : ingress) (eL : ingress_io)
    (d : list byte) (addrL : net_Addr)
    (pc : PacketConn) (stR : ingress) (eR : ingress_io) (addrR tgtUDPAddr : net_Addr) :
  splits_parsed →
  socks_ParseAddr target = Some tgt →
  length tgt + length d ≤ udpBufSize →
  tgt_in_front tgt stL → i_read eL = inr (d, addrL) →
  length (i_buf stR) = udpBufSize →
  i_read eR = inr (tgt ++ d, addrR) → i_resolve eR = inr tgtUDPAddr →
  ∃ stL' effsL stR' effsR,
    udpLocal_iter c srvAddr tgt stL eL = Ret (stL', effsL)
    ∧ writes effsL = forwarded shadow stL eL addrL (tgt ++ d) srvAddr
    ∧ udpRemote_iter pc stR eR = Ret (stR', effsR)
    ∧ writes effsR = forwarded id stR eR addrR d tgtUDPAddr.
Proof.
  intros Hcodec Hparse Hfit Hinv HrdL HlenR HrdR Hres.
  destruct (udpLocal_iter_forwards c srvAddr tgt stL eL d addrL) as
    (stL' & effsL & HiterL & _ & HwL); [lia | done | done |].
  rewrite Nat.min_l, take_ge in HwL by lia.
  assert (take (length (tgt ++ d) `min` length (i_buf stR)) (tgt ++ d) = tgt ++ d) as Htake
    by (rewrite take_ge; [done | rewrite HlenR, length_app; lia]).
  destruct (udpRemote_iter_forwards pc stR eR (tgt ++ d) addrR tgt tgtUDPAddr)
    as (stR' & effsR & HiterR & HwR);
    [done | by rewrite Htake; eapply Hcodec | rewrite HlenR, length_app; lia | done |].
  rewrite Htake, drop_app_length in HwR.
  by exists stL', effsL, stR', effsR.
Qed.

Lemma remoteServer_iter_written `{Extern} (dst src : PacketConn) (udpTarget : net_Addr)
    (timeout : Z) (buf : list byte) (e : relay_io) (d : list byte) (A : net_Addr) :
  r_read e = inr (d, A) →
  let n := length d `min` length buf in
  let srcAddr := socks_ParseAddr (Addr_String A) in
  len srcAddr + n ≤ length buf →
  ∃ buf',
    timedCopy_iter dst udpTarget src timeout remoteServer buf e =
      Ret (buf',
           [SetReadDeadline src (now e + timeout); ReadFrom src;
            WriteTo dst (bytes_of srcAddr ++ take n d) udpTarget],
           r_write e).
Proof.
  intros Hrd n srcAddr Hfit.
  unfold timedCopy_iter. rewrite Hrd.
  pose proof (take_recv buf d) as Htake.
  pose proof (length_recv buf 0 d) as Hlen.
  destruct (recv buf 0 d) as [n' buf1] eqn:Hrecv.
  assert (n' = n) as -> by (unfold recv in Hrecv; injection Hrecv; intros; subst; lia).
  simpl in Htake, Hlen. fold srcAddr.
  rewrite !bounds_ok by lia. simpl.
  rewrite Nat.min_r by lia.
  assert (len srcAddr = length (bytes_of srcAddr)) as HL by (by destruct srcAddr).
  rewrite HL in *.
  rewrite slice_prefix
    by (rewrite length_copy_to, length_memmove; lia).
  rewrite splice_prefix by lia. simpl.
  eexists. by rewrite Htake.
Qed.

(** X13. The way back, transparent mode: a reply [r] that a remoteServer
    session reads from a host [A] whose address the codec encodes as [a],
    fitting the buffer together with [a], is written towards the peer as
    [a ‖ r]; and a relayClient session reading that datagram writes exactly
    [r] to its client. What the server end puts in front, the client end
    takes off. *)
Theorem tunnel_returns_reply `{Extern} (dstR srcR : PacketConn) (peer : net_Addr)
    (TR : Z) (bufR : list byte) (eR : relay_io) (r : list byte) (A : net_Addr)
    (a : list byte)
    (dstL srcL : PacketConn) (client : net_Addr) (TL : Z) (bufL : list byte)
    (eL : relay_io) (B : net_Addr) :
  splits_parsed →
  r_read eR = inr (r, A) → socks_ParseAddr (Addr_String A) = Some a →
  length a + length r ≤ length bufR → length bufR ≤ length bufL →
  r_read eL = inr (a ++ r, B) →
  ∃ bufR' bufL',
    timedCopy_iter dstR peer srcR TR remoteServer bufR eR =
      Ret (bufR',
           [SetReadDeadline srcR (now eR + TR); ReadFrom srcR;
            WriteTo dstR (a ++ r) peer],
           r_write eR)
    ∧ timedCopy_iter dstL client srcL TL relayClient bufL eL =
        Ret (bufL',
             [SetReadDeadline srcL (now eL + TL); ReadFrom srcL;
              WriteTo dstL r client],
             r_write eL).
Proof.
  intros Hcodec HrdR Hparse Hfit Hbufs HrdL.
  destruct (remoteServer_iter_written dstR srcR peer TR bufR eR r A HrdR)
    as [bufR' HiterR].
  { rewrite Hparse. simpl. lia. }
  rewrite Hparse, Nat.min_l, take_ge in HiterR by lia. simpl in HiterR.
  assert (take (length (a ++ r) `min` length bufL) (a ++ r) = a ++ r) as Htake
    by (rewrite take_ge; [done | rewrite length_app; lia]).
  destruct (relayClient_iter_written dstL srcL client TL bufL eL (a ++ r) B HrdL)
    as [bufL' HiterL].
  { rewrite Htake, (Hcodec _ _ _ Hparse). simpl. rewrite length_app. lia. }
  rewrite Htake, (Hcodec _ _ _ Hparse) in HiterL. simpl in HiterL.
  rewrite drop_app_length in HiterL.
  by exists bufR', bufL'.
Qed.

(** Scenario: "hello" from 127.0.0.1:40000 for the fixed target
    93.184.216.34:80, through both ends, and the answer "OK" back. *)
Lemma tunnel_delivers_payload_witness :
  let hello := String.list_byte_of_string "hello" in
  let stL := {| i_nm := newNATmap 60; i_buf := copy_to make_buf 0 Scenario.wire_target |} in
  let eL := {| i_read := inr (hello, Scenario.client);
               i_listen := inr 2; i_write := None; i_resolve := inl "" |} in
  let stR := {| i_nm := newNATmap 60; i_buf := make_buf |} in
  let eR := {| i_read := inr (Scenario.wire_target ++ hello, Scenario.client);
               i_listen := inr 3; i_write := None; i_resolve := inr Scenario.host |} in
  ∃ stL' effsL stR' effsR,
    udpLocal_iter (H := Scenario.env) 1 Scenario.server Scenario.wire_target stL eL
      = Ret (stL', effsL)
    ∧ writes effsL = forwarded (H := Scenario.env) shadow stL eL Scenario.client
                       (Scenario.wire_target ++ hello) Scenario.server
    ∧ udpRemote_iter (H := Scenario.env) 1007 stR eR = Ret (stR', effsR)
    ∧ writes effsR = forwarded (H := Scenario.env) id stR eR Scenario.client hello
                       Scenario.host.
Proof.
  intros hello stL eL stR eR.
  assert (length Scenario.wire_target ≤ udpBufSize) as Htgt
    by (rewrite udpBufSize_eq; change (length Scenario.wire_target) with 7; lia).
  apply (tunnel_delivers_payload (H := Scenario.env) 1 Scenario.server
           "93.184.216.34:80" Scenario.wire_target stL eL hello Scenario.client
           1007 stR eR Scenario.client Scenario.host).
  - exact Scenario_splits_parsed.
  - reflexivity.
  - rewrite udpBufSize_eq. change (length Scenario.wire_target) with 7.
    change (length hello) with 5. lia.
  - exact (tgt_in_front_init _ (newNATmap 60) Htgt).
  - reflexivity.
  - exact length_make_buf.
  - reflexivity.
  - reflexivity.
Defined.

Lemma tunnel_returns_reply_witness :
  let eR := {| now := 0; r_read := inr ([x4f; x4b], Scenario.host); r_write := None |} in
  let eL := {| now := 5;
               r_read := inr (Scenario.wire_target ++ [x4f; x4b], Scenario.server);
               r_write := None |} in
  ∃ bufR' bufL',
    timedCopy_iter (H := Scenario.env) 7 Scenario.server 7 60 remoteServer make_buf eR =
      Ret (bufR',
           [SetReadDeadline 7 60; ReadFrom 7;
            WriteTo 7 (Scenario.wire_target ++ [x4f; x4b]) Scenario.server],
           None)
    ∧ timedCopy_iter (H := Scenario.env) 1 Scenario.client 1002 60 relayClient make_buf eL =
        Ret (bufL',
             [SetReadDeadline 1002 65; ReadFrom 1002;
              WriteTo 1 [x4f; x4b] Scenario.client],
             None).
Proof.
  intros eR eL.
  apply (tunnel_returns_reply (H := Scenario.env) 7 7 Scenario.server 60 make_buf eR
           [x4f; x4b] Scenario.host Scenario.wire_target
           1 1002 Scenario.client 60 make_buf eL Scenario.server).
  - exact Scenario_splits_parsed.
  - reflexivity.
  - reflexivity.
  - rewrite length_make_buf, udpBufSize_eq.
    change (length Scenario.wire_target) with 7. change (length [x4f; x4b]) with 2. lia.
  - reflexivity.
  - reflexivity.
Defined.

(** ** Failures the ingress only logs *)

(** The answers [e] with the outcome of the write replaced by [w]. *)
Definition with_write (w : option error) (e : ingress_io) : ingress_io :=
  {| i_read := i_read e; i_listen := i_listen e; i_write := w;
     i_resolve := i_resolve e |}.

(** The two runs of an iteration, one whose write succeeds and one whose
    write fails: the same state, and the same calls but for one more log
    line at the end of the second. *)
Definition differ_by_a_log_line (ok failed : run (ingress * list effect)) : Prop :=
  match ok, failed with
  | Ret (st1, effs1), Ret (st2, effs2) =>
      st1 = st2
      ∧ (effs2 = effs1 ∧ writes effs1 = []
         ∨ ∃ format, effs2 = effs1 ++ [logf format] ∧ length (writes effs1) = 1)
  | Panic effs1 msg1, Panic effs2 msg2 => effs1 = effs2 ∧ msg1 = msg2
  | _, _ => False
  end.

Ltac both_cases :=
  repeat (match goal with
          | |- context [run_bind ?x _] => destruct x eqn:?
          | |- context [match ?x with _ => _ end] => destruct x eqn:?
          end; cbn [run_bind after]).

Section write_errors.
Context `{Extern}.
Variables (st : ingress) (e : ingress_io) (err : error).

Ltac log_line_done :=
  unfold differ_by_a_log_line;
  first [ by split
        | split; [reflexivity|]; first [ by left | right; by eexists ] ].

Lemma udpLocal_iter_write_error c srvAddr tgt :
  differ_by_a_log_line (udpLocal_iter c srvAddr tgt st (with_write None e))
                       (udpLocal_iter c srvAddr tgt st (with_write (Some err) e)).
Proof.
  unfold udpLocal_iter, natmap_Add, written, with_write.
  cbn [i_read i_listen i_write i_resolve].
  both_cases; log_line_done.
Qed.

Lemma udpSocksLocal_iter_write_error c srvAddr :
  differ_by_a_log_line (udpSocksLocal_iter c srvAddr st (with_write None e))
                       (udpSocksLocal_iter c srvAddr st (with_write (Some err) e)).
Proof.
  unfold udpSocksLocal_iter, natmap_Add, written, with_write.
  cbn [i_read i_listen i_write i_resolve].
  both_cases; log_line_done.
Qed.

Lemma udpRemote_iter_write_error pc :
  differ_by_a_log_line (udpRemote_iter pc st (with_write None e))
                       (udpRemote_iter pc st (with_write (Some err) e)).
Proof.
  unfold udpRemote_iter, natmap_Add, written, with_write.
  cbn [i_read i_listen i_write i_resolve].
  both_cases; log_line_done.
Qed.

End write_errors.

(** The calls of a trace other than its log lines. *)
Definition calls (effs : list effect) : list effect :=
  omap (λ eff, match eff with logf _ => None | _ => Some eff end) effs.

Lemma calls_app effs1 effs2 : calls (effs1 ++ effs2) = calls effs1 ++ calls effs2.
Proof. apply omap_app. Qed.

Lemma with_write_same e : with_write (i_write e) e = e.
Proof. by destruct e. Qed.

Lemma ingress_body_write_error `{Extern} body st e err :
  ingress_body body →
  differ_by_a_log_line (body st (with_write None e)) (body st (with_write (Some err) e)).
Proof.
  intros [(c & srvAddr & tgt & ->)|[(c & srvAddr & ->)|(pc & ->)]].
  - apply udpLocal_iter_write_error.
  - apply udpSocksLocal_iter_write_error.
  - apply udpRemote_iter_write_error.
Qed.

(** X14. A failed [WriteTo] on a session's outbound connection changes
    nothing but the log. Run an ingress loop (any of the three) against a
    script, and against the same script with every write succeeding: the two
    runs end alike (the same table and buffer, or the same panic) and make
    the same calls in the same order, log lines apart. No entry is removed,
    no connection closed or replaced, nothing is retried. *)
Theorem write_errors_are_only_logged `{Extern}
    (body : ingress → ingress_io → run (ingress * list effect))
    (st : ingress) (script : list ingress_io) :
  ingress_body body →
  (serve body st script).2 = (serve body st (with_write None <$> script)).2
  ∧ calls (serve body st script).1
    = calls (serve body st (with_write None <$> script)).1.
Proof.
  intros Hbody. revert st.
  induction script as [|e script IH]; intros st; [done|].
  rewrite fmap_cons. cbn [serve].
  assert (differ_by_a_log_line (body st (with_write None e)) (body st e)
          ∨ body st (with_write None e) = body st e) as [Hd|Heq].
  { destruct (i_write e) as [err|] eqn:Hw.
    - left. rewrite <- (with_write_same e) at 2. rewrite Hw.
      by apply ingress_body_write_error.
    - right. rewrite <- Hw. by rewrite with_write_same. }
  - unfold differ_by_a_log_line in Hd.
    destruct (body st (with_write None e)) as [[st1 effs1]|effs1 msg1],
             (body st e) as [[st2 effs2]|effs2 msg2]; try done.
    + destruct Hd as [<- Hd]. specialize (IH st1).
      destruct (serve body st1 script) as [effs r],
               (serve body st1 (with_write None <$> script)) as [effs' r'].
      simpl in *. destruct IH as [-> IH]. split; [done|].
      rewrite !calls_app, IH.
      destruct Hd as [[-> _]|(format & -> & _)]; [done|].
      rewrite calls_app. simpl. by rewrite app_nil_r.
    + by destruct Hd as [-> ->].
  - rewrite Heq. destruct (body st e) as [[st1 effs1]|effs1 msg1]; [|done].
    specialize (IH st1).
    destruct (serve body st1 script) as [effs r],
             (serve body st1 (with_write None <$> script)) as [effs' r'].
    simpl in *. destruct IH as [-> IH]. by rewrite !calls_app, IH.
Qed.

Lemma write_errors_are_only_logged_witness :
  let body := udpLocal_iter (H := Scenario.env) 1 Scenario.server Scenario.wire_target in
  let st := {| i_nm := newNATmap 60; i_buf := copy_to make_buf 0 Scenario.wire_target |} in
  let e := {| i_read := inr (String.list_byte_of_string "hello", Scenario.client);
              i_listen := inr 2; i_write := Some "sendto: network is unreachable";
              i_resolve := inl "" |} in
  ingress_body (H := Scenario.env) body
  ∧ (serve body st [e; e]).2 = (serve body st (with_write None <$> [e; e])).2
  ∧ calls (serve body st [e; e]).1
    = calls (serve body st (with_write None <$> [e; e])).1.
Proof.
  intros body st e.
  assert (ingress_body (H := Scenario.env) body) as Hbody
    by (left; by exists 1, Scenario.server, Scenario.wire_target).
  split; [exact Hbody|].
  exact (write_errors_are_only_logged (H := Scenario.env) body st [e; e] Hbody).
Defined.

(** ** The listening socket *)

Lemma closed_app_Close effs c : closed effs = [] → closed (effs ++ [Close c]) = [c].
Proof. intros Hc. by rewrite closed_app, Hc. Qed.

(** X15. The only connection an ingress function ever closes is its own
    listening socket, and only through [defer]: it is closed, once and as
    the last call, exactly when the loop panicked. A function that gave up
    at start-up or is still serving has closed nothing; the connections of
    the sessions are never closed by the ingress. In server mode the socket
    closed is [cc] itself, not [shadow(cc)], which the loop reads from. *)
Theorem listener_closed_iff_died `{Extern} (laddr server target : string)
    (UDPTimeout : Z) (b : boot) (script : list ingress_io) :
  let closes (r : list effect * served) :=
    closed r.1 = match r.2, b_listen b with
                 | Died _, inr c => [c]
                 | _, _ => []
                 end in
  closes (udpLocal laddr server target UDPTimeout b script)
  ∧ closes (udpSocksLocal laddr server UDPTimeout b script)
  ∧ closes (udpRemote laddr UDPTimeout b script).
Proof.
  intros closes. unfold closes, udpLocal, udpSocksLocal, udpRemote.
  destruct (b_server b) as [?|srvAddr], (socks_ParseAddr target) as [tgt|],
           (b_laddr b) as [?|la], (b_listen b) as [?|c]; simpl; split_and!; try done.
  all: match goal with
       | |- context [serve ?body ?st ?s] =>
           let Hc := fresh in
           assert (closed (serve body st s).1 = []) as Hc
             by (apply serve_closed;
                 first [ left; by eexists _, _, _
                       | right; left; by eexists _, _
                       | right; right; by eexists ]);
           destruct (serve body st s) as [effs [st'| |msg]]; simpl in *;
           rewrite ?closed_app_Close by done; try done
       end.
Qed.

(** ** The end of a session and the peer's next datagram *)

Lemma relay_calls_closed dst src udpTarget effs :
  Forall (relay_call dst src udpTarget) effs → closed effs = [].
Proof.
  induction 1 as [|eff effs Heff _ IH]; [done|].
  by destruct eff.
Qed.

(** X16. A session whose connection the table still holds for its peer,
    and whose relay loop returns: its goroutine closes that connection and
    removes the entry; the next datagram of the peer that an ingress loop
    forwards then finds no entry, so that a new connection is created and
    installed and a new session is started for the peer, with the timeout of
    the table, and the datagram leaves over the new connection. *)
Theorem session_end_frees_the_peer `{Extern}
    (body : ingress → ingress_io → run (ingress * list effect))
    (st : ingress) (s : session) (script : list relay_io) (effs_r : list effect)
    (err : error) (e : ingress_io) (d : list byte) (addr : net_Addr)
    (pc0 : PacketConn) (st2 : ingress) (effs2 : list effect) :
  ingress_body body →
  natmap_Get (s_peer s) (i_nm st) = Some (s_src s) →
  timedCopy (s_dst s) (s_peer s) (s_src s) (s_timeout s) (s_role s) script
    = (effs_r, Returned err) →
  let nm' := (session_task s script (i_nm st)).1.2 in
  i_read e = inr (d, addr) → udpAddrToNetip addr = (s_peer s, None) →
  i_listen e = inr pc0 →
  body {| i_nm := nm'; i_buf := i_buf st |} e = Ret (st2, effs2) →
  writes effs2 ≠ [] →
  session_task s script (i_nm st) = (effs_r ++ [Close (s_src s)], nm', Returned err)
  ∧ closed (effs_r ++ [Close (s_src s)]) = [s_src s]
  ∧ natmap_Get (s_peer s) nm' = None
  ∧ created effs2 = [pc0]
  ∧ ∃ s', started effs2 = [s']
          ∧ s_peer s' = s_peer s ∧ s_timeout s' = timeout (i_nm st)
          ∧ natmap_Get (s_peer s) (i_nm st2) = Some (s_src s')
          ∧ ∀ w, w ∈ writes effs2 → w.1.1 = s_src s'.
Proof.
  intros Hbody Hget Hloop nm' Hrd Hconv Hlisten Hret Hfwd.
  destruct (natmap_Del_spec (s_peer s) (i_nm st)) as (Hgone & Hdel & _).
  pose proof (timeout_natmap_Del (s_peer s) (i_nm st)) as Hto.
  assert (session_task s script (i_nm st)
          = (effs_r ++ [Close (s_src s)], (natmap_Del (s_peer s) (i_nm st)).2,
             Returned err)) as Htask.
  { unfold session_task. rewrite Hloop. rewrite Hget in Hdel.
    destruct (natmap_Del (s_peer s) (i_nm st)) as [o nm1]. simpl in Hdel. by subst o. }
  assert (nm' = (natmap_Del (s_peer s) (i_nm st)).2) as Hnm'
    by (unfold nm'; by rewrite Htask).
  clearbody nm'. subst nm'.
  assert (closed effs_r = []) as Hclosed.
  { pose proof (timedCopy_loop_calls (s_dst s) (s_src s)
                  (UDPAddr (AsSlice (AddrPort_Addr (s_peer s))) (AddrPort_Port (s_peer s)) "")
                  (s_timeout s) (s_role s) script make_buf) as Hcalls.
    unfold timedCopy in Hloop. rewrite Hloop in Hcalls.
    by eapply relay_calls_closed. }
  split_and!; [exact Htask | by apply closed_app_Close | exact Hgone | |].
  all: destruct (ingress_body_lookup body _ e st2 effs2 Hbody Hret)
         as (wrap & dst & role & Hstep);
       destruct Hstep as [? Hl Hs Hw|d' addr' raddr' pc' ?? Hrd' Hconv' Hget' ??? Hw
                          |d' addr' raddr' ? Hrd' Hconv' Hget' ?? Hl Hs Hw
                          |d' addr' raddr' pc1 ?? Hrd' Hconv' Hget' Hlisten' Hnm Hl Hs Hw];
       try done; cbn [i_nm] in *;
       assert (raddr' = s_peer s) as -> by congruence;
       try congruence.
  - rewrite created_listens, Hl. simpl. congruence.
  - eexists. split; [exact Hs|]. simpl. split_and!; [done | by rewrite Hto | |].
    + rewrite Hnm. apply natmap_Get_Set.
    + rewrite Hw. by intros w ->%list_elem_of_singleton.
Qed.

(** Scenario: the session of 127.0.0.1:40000 meets its deadline; the
    client's next "hello" opens a new one. *)
Lemma session_end_frees_the_peer_witness :
  let body := udpLocal_iter (H := Scenario.env) 1 Scenario.server Scenario.wire_target in
  let st := {| i_nm := natmap_Set Scenario.client_key 1002 (newNATmap 60);
               i_buf := copy_to make_buf 0 Scenario.wire_target |} in
  let s := {| s_dst := 1; s_peer := Scenario.client_key; s_src := 1002;
              s_timeout := 60; s_role := relayClient |} in
  let script := [{| now := 0; r_read := inl "i/o timeout"; r_write := None |}] in
  let effs_r := [SetReadDeadline 1002 60; ReadFrom 1002] in
  let e := {| i_read := inr (String.list_byte_of_string "hello", Scenario.client);
              i_listen := inr 2; i_write := None; i_resolve := inl "" |} in
  let nm' := (session_task (H := Scenario.env) s script (i_nm st)).1.2 in
  ∃ st2 effs2,
    body {| i_nm := nm'; i_buf := i_buf st |} e = Ret (st2, effs2)
    ∧ session_task (H := Scenario.env) s script (i_nm st)
      = (effs_r ++ [Close 1002], nm', Returned "i/o timeout")
    ∧ closed (effs_r ++ [Close 1002]) = [1002]
    ∧ natmap_Get Scenario.client_key nm' = None
    ∧ created effs2 = [2]
    ∧ ∃ s', started effs2 = [s']
            ∧ s_peer s' = Scenario.client_key ∧ s_timeout s' = 60%Z
            ∧ natmap_Get Scenario.client_key (i_nm st2) = Some (s_src s')
            ∧ ∀ w, w ∈ writes effs2 → w.1.1 = s_src s'.
Proof.
  intros body st s script effs_r e nm'.
  assert (length Scenario.wire_target ≤ udpBufSize) as Htgt
    by (rewrite udpBufSize_eq; change (length Scenario.wire_target) with 7; lia).
  destruct (udpLocal_iter_forwards (H := Scenario.env) 1 Scenario.server
              Scenario.wire_target {| i_nm := nm'; i_buf := i_buf st |} e
              (String.list_byte_of_string "hello")
              Scenario.client Htgt (tgt_in_front_init _ _ Htgt) eq_refl)
    as (st2 & effs2 & Hret & _ & Hw).
  assert (writes effs2 ≠ []) as Hfwd by (rewrite Hw; vm_compute; discriminate).
  exists st2, effs2. split; [exact Hret|].
  apply (session_end_frees_the_peer (H := Scenario.env) body st s script effs_r
           "i/o timeout" e (String.list_byte_of_string "hello") Scenario.client 2
           st2 effs2).
  - left. by exists 1, Scenario.server, Scenario.wire_target.
  - reflexivity.
  - vm_compute. reflexivity.
  - reflexivity.
  - reflexivity.
  - reflexivity.
  - exact Hret.
  - exact Hfwd.
Defined.

(** ** Where the replies of a session go *)

Lemma relay_calls_writes dst src udpTarget effs :
  Forall (relay_call dst src udpTarget) effs →
  Forall (λ w, w = (dst, w.1.2, udpTarget)) (writes effs).
Proof.
  induction 1 as [|eff effs Heff _ IH]; [done|].
  destruct eff; try done. simpl in Heff. destruct Heff as [-> ->].
  by constructor.
Qed.

(** X17. From sender to key and back: a session keyed by what
    [udpAddrToNetip] made of a sender's address writes every reply to the
    sender's IP and port, without the zone, whatever zone the sender's
    address had. (The IP is the sender's when [netip.ParseAddr] gives back
    the bytes that [IP.String] printed; the port when it is a uint16.) *)
Theorem replies_go_to_the_sender `{Extern} (dst src : PacketConn) (T : Z) (role : mode)
    (script : list relay_io) (IP : list byte) (Port : Z) (Zone : string)
    (key : netip_AddrPort) :
  udpAddrToNetip (UDPAddr IP Port Zone) = (key, None) →
  AsSlice (AddrPort_Addr key) = IP → (0 ≤ Port < 65536)%Z →
  Forall (λ w, w = (dst, w.1.2, UDPAddr IP Port ""))
         (writes (timedCopy dst key src T role script).1).
Proof.
  intros Hconv Hip Hport.
  assert (AddrPort_Port key = Port) as Hp.
  { unfold udpAddrToNetip in Hconv.
    destruct (netip_ParseAddr (IP_String IP)) as [?|ip]; [done|].
    destruct (IsValid ip); simpl in Hconv; [|done].
    injection Hconv as <-. simpl. unfold uint16. by rewrite Z.mod_small. }
  unfold timedCopy. rewrite Hip, Hp.
  apply relay_calls_writes with src, timedCopy_loop_calls.
Qed.

Lemma replies_go_to_the_sender_witness :
  Forall (λ w, w = (1, w.1.2, UDPAddr Scenario.ip_client 40000 ""))
         (writes (timedCopy (H := Scenario.env) 1 Scenario.client_key 1002 60 relayClient
                    [{| now := 5;
                        r_read := inr (Scenario.wire_target ++ [x4f; x4b], Scenario.server);
                        r_write := None |}]).1).
Proof.
  apply (replies_go_to_the_sender (H := Scenario.env) 1 1002 60 relayClient _
           Scenario.ip_client 40000 "eth0" Scenario.client_key).
  - reflexivity.
  - reflexivity.
  - lia.
Defined.

(** ** Read errors *)

(** X18. A read error never ends an ingress loop, and is not waited out:
    against any run of failing reads each of the three loops reads again at
    once, as many times as there are failures, logging each, and is still
    serving with its table and buffer untouched; nothing is written, created
    or closed. (For [udpLocal], with the target's wire address no longer than
    the buffer.) *)
Theorem read_errors_are_retried `{Extern} (c : PacketConn) (srvAddr : net_Addr)
    (tgt : list byte) (st : ingress) (script : list ingress_io) :
  Forall (λ e, ∃ err, i_read e = inl err) script →
  let spin format := concat (map (λ _, [ReadFrom c; logf format]) script) in
  (length tgt ≤ length (i_buf st) →
   serve (udpLocal_iter c srvAddr tgt) st script
     = (spin "UDP local read error: %v", Serving st))
  ∧ serve (udpSocksLocal_iter c srvAddr) st script
    = (spin "UDP local read error: %v", Serving st)
  ∧ serve (udpRemote_iter c) st script
    = (spin "UDP remote read error: %v", Serving st).
Proof.
  intros Hall spin. unfold spin. clear spin.
  induction Hall as [|e script [err Hrd] _ (IH1 & IH2 & IH3)]; [done|].
  split_and!.
  - intros Htgt.
    assert (udpLocal_iter c srvAddr tgt st e
            = Ret (st, [ReadFrom c; logf "UDP local read error: %v"])) as Hstep.
    { unfold udpLocal_iter. rewrite bounds_ok by lia. cbn [run_bind]. by rewrite Hrd. }
    cbn [serve]. by rewrite Hstep, (IH1 Htgt).
  - assert (udpSocksLocal_iter c srvAddr st e
            = Ret (st, [ReadFrom c; logf "UDP local read error: %v"])) as Hstep
      by (unfold udpSocksLocal_iter; by rewrite Hrd).
    cbn [serve]. by rewrite Hstep, IH2.
  - assert (udpRemote_iter c st e
            = Ret (st, [ReadFrom c; logf "UDP remote read error: %v"])) as Hstep
      by (unfold udpRemote_iter; by rewrite Hrd).
    cbn [serve]. by rewrite Hstep, IH3.
Qed.

Lemma read_errors_are_retried_witness :
  let st := {| i_nm := newNATmap 60; i_buf := copy_to make_buf 0 Scenario.wire_target |} in
  let e := {| i_read := inl "use of closed network connection";
              i_listen := inr 2; i_write := None; i_resolve := inl "" |} in
  let spin format := concat (map (λ _, [ReadFrom 1; logf format]) [e; e; e]) in
  (length Scenario.wire_target ≤ length (i_buf st) →
   serve (udpLocal_iter (H := Scenario.env) 1 Scenario.server Scenario.wire_target)
     st [e; e; e]
     = (spin "UDP local read error: %v", Serving st))
  ∧ serve (udpSocksLocal_iter (H := Scenario.env) 1 Scenario.server) st [e; e; e]
    = (spin "UDP local read error: %v", Serving st)
  ∧ serve (udpRemote_iter (H := Scenario.env) 1) st [e; e; e]
    = (spin "UDP remote read error: %v", Serving st).
Proof.
  intros st e.
  apply (read_errors_are_retried (H := Scenario.env) 1 Scenario.server
           Scenario.wire_target st [e; e; e]).
  repeat constructor; by exists "use of closed network connection".
Defined.

(** ** SOCKS5 mode through both ends *)

(** X19. The way out, SOCKS5 mode: a client datagram made of a three-byte
    header, the wire address [a] of a host and a payload [p] leaves
    [udpSocksLocal] as [a ‖ p]; [udpRemote], reading that datagram, writes
    exactly [p] to the address [a] resolved to. The target travels in the
    datagram; the header does not. *)
Theorem socks5_payload_crosses `{Extern} (c : PacketConn) (srvAddr : net_Addr)
    (host : string) (a hdr p : list byte) (stL : ingress) (eL : ingress_io)
    (addrL : net_Addr)
    (pc : PacketConn) (stR : ingress) (eR : ingress_io) (addrR tgtUDPAddr : net_Addr) :
  splits_parsed →
  socks_ParseAddr host = Some a →
  length hdr = 3 → length (hdr ++ a ++ p) ≤ udpBufSize →
  length (i_buf stL) = udpBufSize → i_read eL = inr (hdr ++ a ++ p, addrL) →
  length (i_buf stR) = udpBufSize →
  i_read eR = inr (a ++ p, addrR) → i_resolve eR = inr tgtUDPAddr →
  ∃ stL' effsL stR' effsR,
    udpSocksLocal_iter c srvAddr stL eL = Ret (stL', effsL)
    ∧ writes effsL = forwarded shadow stL eL addrL (a ++ p) srvAddr
    ∧ udpRemote_iter pc stR eR = Ret (stR', effsR)
    ∧ writes effsR = forwarded id stR eR addrR p tgtUDPAddr.
Proof.
  intros Hcodec Hparse Hhdr Hfit HlenL HrdL HlenR HrdR Hres.
  rewrite !length_app in Hfit.
  destruct (udpSocksLocal_iter_forwards c srvAddr stL eL (hdr ++ a ++ p) addrL)
    as (stL' & effsL & HiterL & _ & HwL);
    [rewrite HlenL, udpBufSize_eq; lia | done | rewrite !length_app; lia |].
  rewrite Nat.min_l, take_ge in HwL by (rewrite ?HlenL, !length_app; lia).
  rewrite drop_app_length' in HwL by done.
  assert (take (length (a ++ p) `min` length (i_buf stR)) (a ++ p) = a ++ p) as Htake
    by (rewrite take_ge; [done | rewrite HlenR, length_app; lia]).
  destruct (udpRemote_iter_forwards pc stR eR (a ++ p) addrR a tgtUDPAddr)
    as (stR' & effsR & HiterR & HwR);
    [done | by rewrite Htake; eapply Hcodec | rewrite HlenR, length_app; lia | done |].
  rewrite Htake, drop_app_length in HwR.
  by exists stL', effsL, stR', effsR.
Qed.

Lemma socks5_payload_crosses_witness :
  let get := String.list_byte_of_string "GET" in
  let stL := {| i_nm := newNATmap 60; i_buf := make_buf |} in
  let eL := {| i_read := inr ([x00; x00; x00] ++ Scenario.wire_example ++ get,
                              Scenario.client);
               i_listen := inr 2; i_write := None; i_resolve := inl "" |} in
  let stR := {| i_nm := newNATmap 60; i_buf := make_buf |} in
  let eR := {| i_read := inr (Scenario.wire_example ++ get, Scenario.client);
               i_listen := inr 3; i_write := None; i_resolve := inr Scenario.host |} in
  ∃ stL' effsL stR' effsR,
    udpSocksLocal_iter (H := Scenario.env) 1 Scenario.server stL eL = Ret (stL', effsL)
    ∧ writes effsL = forwarded (H := Scenario.env) shadow stL eL Scenario.client
                       (Scenario.wire_example ++ get) Scenario.server
    ∧ udpRemote_iter (H := Scenario.env) 1007 stR eR = Ret (stR', effsR)
    ∧ writes effsR = forwarded (H := Scenario.env) id stR eR Scenario.client get
                       Scenario.host.
Proof.
  intros get stL eL stR eR.
  apply (socks5_payload_crosses (H := Scenario.env) 1 Scenario.server
           "example.com:443" Scenario.wire_example [x00; x00; x00] get stL eL
           Scenario.client 1007 stR eR Scenario.client Scenario.host).
  - exact Scenario_splits_parsed.
  - reflexivity.
  - reflexivity.
  - rewrite udpBufSize_eq.
    change (length ([x00; x00; x00] ++ Scenario.wire_example ++ get)) with 21. lia.
  - exact length_make_buf.
  - reflexivity.
  - exact length_make_buf.
  - reflexivity.
  - reflexivity.
Defined.

(** X20. The way back, SOCKS5 mode: a reply [r] read by a remoteServer
    session from a host [A] whose address the codec encodes as [a] reaches
    the SOCKS5 client, through the socksClient session of the other end, as
    [0,0,0 ‖ a ‖ r]: the three zero bytes, the wire address of the host that
    answered, the reply. *)
Theorem socks5_reply_crosses `{Extern} (dstR srcR : PacketConn) (peer : net_Addr)
    (TR : Z) (bufR : list byte) (eR : relay_io) (r : list byte) (A : net_Addr)
    (a : list byte)
    (dstL srcL : PacketConn) (client : net_Addr) (TL : Z) (bufL : list byte)
    (eL : relay_io) (B : net_Addr) :
  r_read eR = inr (r, A) → socks_ParseAddr (Addr_String A) = Some a →
  length a + length r ≤ length bufR → length bufR ≤ length bufL →
  r_read eL = inr (a ++ r, B) →
  ∃ bufR' bufL',
    timedCopy_iter dstR peer srcR TR remoteServer bufR eR =
      Ret (bufR',
           [SetReadDeadline srcR (now eR + TR); ReadFrom srcR;
            WriteTo dstR (a ++ r) peer],
           r_write eR)
    ∧ timedCopy_iter dstL client srcL TL socksClient bufL eL =
        Ret (bufL',
             [SetReadDeadline srcL (now eL + TL); ReadFrom srcL;
              WriteTo dstL ([x00; x00; x00] ++ a ++ r) client],
             r_write eL).
Proof.
  intros HrdR Hparse Hfit Hbufs HrdL.
  destruct (remoteServer_iter_written dstR srcR peer TR bufR eR r A HrdR)
    as [bufR' HiterR].
  { rewrite Hparse. simpl. lia. }
  rewrite Hparse, Nat.min_l, take_ge in HiterR by lia. simpl in HiterR.
  destruct (socksClient_reply dstL srcL client TL bufL eL (a ++ r) B HrdL)
    as (bufL' & HiterL & _); [rewrite length_app; lia|].
  by exists bufR', bufL'.
Qed.

Lemma socks5_reply_crosses_witness :
  let eR := {| now := 0; r_read := inr ([x4f; x4b], Scenario.host); r_write := None |} in
  let eL := {| now := 5;
               r_read := inr (Scenario.wire_target ++ [x4f; x4b], Scenario.server);
               r_write := None |} in
  ∃ bufR' bufL',
    timedCopy_iter (H := Scenario.env) 7 Scenario.server 7 60 remoteServer make_buf eR =
      Ret (bufR',
           [SetReadDeadline 7 60; ReadFrom 7;
            WriteTo 7 (Scenario.wire_target ++ [x4f; x4b]) Scenario.server],
           None)
    ∧ timedCopy_iter (H := Scenario.env) 1 Scenario.client 1002 60 socksClient make_buf eL =
        Ret (bufL',
             [SetReadDeadline 1002 65; ReadFrom 1002;
              WriteTo 1 ([x00; x00; x00] ++ Scenario.wire_target ++ [x4f; x4b])
                Scenario.client],
             None).
Proof.
  intros eR eL.
  apply (socks5_reply_crosses (H := Scenario.env) 7 7 Scenario.server 60 make_buf eR
           [x4f; x4b] Scenario.host Scenario.wire_target
           1 1002 Scenario.client 60 make_buf eL Scenario.server).
  - reflexivity.
  - reflexivity.
  - rewrite length_make_buf, udpBufSize_eq.
    change (length Scenario.wire_target) with 7. change (length [x4f; x4b]) with 2. lia.
  - reflexivity.
  - reflexivity.
Defined.
